(** * soclaw: the security-operations service

    A shallow embedding of the Go packages [pkg/secops] (service.go,
    types.go) and [pkg/tools/secops] (the two [replaceParams] methods),
    with the properties of the schedule parser, the template substitution,
    the proposal store and the service life cycle.

    Conventions.
    - A Go [string] is a byte sequence: Rocq's [string] (a list of [ascii]).
    - Go's [int], [int64] and [time.Duration] are 64-bit two's complement
      integers: [Z] with the wrap-around written out ([wrap64]).
    - A [*Proposal] is a location in an explicit heap; the store maps
      identifiers to locations, as the Go map holds pointers.
    - [time.Now] and [uuid.New] read the environment: they are modelled as
      oracles carried by the state (a stream and a read counter each). *)

From Stdlib Require Import ZArith NArith Ascii String DecimalString DecimalN DecimalPos.
From stdpp Require Import gmap strings list fin_maps.

Local Open Scope string_scope.
Local Open Scope Z_scope.

(* ===================================================================== *)
(** * Go's [strings] package, as far as the repository uses it *)
(* ===================================================================== *)

Module GoStr.

Definition byte_of (c : ascii) : N := N_of_ascii c.

Definition bytes (s : string) : list N := byte_of <$> list_ascii_of_string s.

(** [strings.HasPrefix s p]. *)
Fixpoint HasPrefix (s p : string) : bool :=
  match p, s with
  | EmptyString, _ => true
  | String _ _, EmptyString => false
  | String a p', String b s' => if Ascii.eqb a b then HasPrefix s' p' else false
  end.

(** [s[n:]] for [n <= len(s)]. *)
Fixpoint drop_bytes (n : nat) (s : string) : string :=
  match n, s with
  | O, _ => s
  | S n', String _ s' => drop_bytes n' s'
  | S _, EmptyString => EmptyString
  end.

(** The replacement loop of [strings.Replace(s, old, new, -1)] for a
    non-empty [old]: the matches are found from left to right and do not
    overlap; [skip] counts the bytes of the current match that are still
    to be passed over. *)
Fixpoint replace_from (old new : string) (skip : nat) (s : string) : string :=
  match s with
  | EmptyString => EmptyString
  | String c s' =>
      match skip with
      | S k => replace_from old new k s'
      | O =>
          if HasPrefix s old
          then new ++ replace_from old new (String.length old - 1) s'
          else String c (replace_from old new O s')
      end
  end.

(** With an empty [old], Go inserts [new] before every rune and at the
    end. No caller in this repository passes an empty [old] (the three
    patterns of [replaceParams] all contain a literal byte); the branch is
    written for byte strings. *)
Fixpoint intersperse_new (new : string) (s : string) : string :=
  match s with
  | EmptyString => new
  | String c s' => new ++ String c (intersperse_new new s')
  end.

(** [strings.ReplaceAll(s, old, new)]. *)
Definition ReplaceAll (s old new : string) : string :=
  if String.eqb old new then s
  else match old with
       | EmptyString => intersperse_new new s
       | String _ _ => replace_from old new O s
       end.

(** [strings.Split(s, sep)] for the one-byte separators of the callers:
    every separator byte ends a field; the result is never empty. *)
Fixpoint split_byte (sep : ascii) (cur : string) (s : string) : list string :=
  match s with
  | EmptyString => [cur]
  | String c s' =>
      if Ascii.eqb c sep then cur :: split_byte sep EmptyString s'
      else split_byte sep (cur ++ String c EmptyString) s'
  end.

Definition Split (s : string) (sep : ascii) : list string :=
  split_byte sep EmptyString s.

(** [strings.SplitN(s, sep, 2)]: cut at the first separator only. *)
Fixpoint cut_first (sep : ascii) (cur : string) (s : string) : list string :=
  match s with
  | EmptyString => [cur]
  | String c s' =>
      if Ascii.eqb c sep then [cur; s']
      else cut_first sep (cur ++ String c EmptyString) s'
  end.

Definition SplitN2 (s : string) (sep : ascii) : list string :=
  cut_first sep EmptyString s.

(** The UTF-8 encodings of the runes for which [unicode.IsSpace] (and the
    [isSpace] of package fmt) holds: TAB, LF, VT, FF, CR, SPACE, U+0085,
    U+00A0, U+1680, U+2000..U+200A, U+2028, U+2029, U+202F, U+205F,
    U+3000. A valid encoding is unique, so a rune is recognised by its
    bytes. *)
Definition space_runes : list (list N) :=
  [ [9]; [10]; [11]; [12]; [13]; [32];
    [194; 133]; [194; 160];
    [225; 154; 128];
    [226; 128; 128]; [226; 128; 129]; [226; 128; 130]; [226; 128; 131];
    [226; 128; 132]; [226; 128; 133]; [226; 128; 134]; [226; 128; 135];
    [226; 128; 136]; [226; 128; 137]; [226; 128; 138];
    [226; 128; 168]; [226; 128; 169]; [226; 128; 175];
    [226; 129; 159];
    [227; 128; 128] ]%N.

Fixpoint is_prefix_bytes (p l : list N) : bool :=
  match p, l with
  | [], _ => true
  | _ :: _, [] => false
  | a :: p', b :: l' => if N.eqb a b then is_prefix_bytes p' l' else false
  end.

(** The number of bytes of the white-space rune at the front of [l], if
    there is one. *)
Definition leading_space (l : list N) : option nat :=
  List.length <$> List.find (fun p => is_prefix_bytes p l) space_runes.

Definition trailing_space (l : list N) : option nat :=
  List.length <$> List.find (fun p => is_prefix_bytes (rev p) (rev l)) space_runes.

Fixpoint trim_left (fuel : nat) (s : string) : string :=
  match fuel with
  | O => s
  | S f =>
      match leading_space (bytes s) with
      | Some n => trim_left f (drop_bytes n s)
      | None => s
      end
  end.

Fixpoint trim_right (fuel : nat) (s : string) : string :=
  match fuel with
  | O => s
  | S f =>
      match trailing_space (bytes s) with
      | Some n => trim_right f (String.substring 0 (String.length s - n) s)
      | None => s
      end
  end.

(** [strings.TrimSpace(s)]; every round removes at least one byte, so
    [len(s)] rounds are enough on either side. *)
Definition TrimSpace (s : string) : string :=
  let l := trim_left (String.length s) s in
  trim_right (String.length l) l.

End GoStr.

(* ===================================================================== *)
(** * 64-bit integers and durations *)
(* ===================================================================== *)

Module Int64.

Definition min_int : Z := - 2 ^ 63.
Definition max_int : Z := 2 ^ 63 - 1.

(** Two's complement wrap-around of a 64-bit signed result. *)
Definition wrap64 (z : Z) : Z := (z + 2 ^ 63) mod 2 ^ 64 - 2 ^ 63.

Definition mul (a b : Z) : Z := wrap64 (a * b).

Definition in_range (z : Z) : bool := (min_int <=? z) && (z <=? max_int).

End Int64.

(** [time.Duration]: nanoseconds in an [int64]. *)
Module Duration.
Definition Nanosecond : Z := 1.
Definition Second : Z := 1000000000.
Definition Minute : Z := 60 * Second.
Definition Hour : Z := 60 * Minute.
End Duration.

(* ===================================================================== *)
(** * service.go: the schedule parser *)
(* ===================================================================== *)

Module Sched.

Definition is_digit (c : ascii) : bool :=
  let n := N_of_ascii c in (48 <=? n)%N && (n <=? 57)%N.

Definition digit_val (c : ascii) : Z := Z.of_N (N_of_ascii c) - 48.

(** [ss.SkipSpace] of package fmt under [Sscanf] (a newline is not
    white space there: it is an error). [None] is the error. *)
Fixpoint SkipSpace (fuel : nat) (s : string) : option string :=
  match fuel with
  | O => Some s
  | S f =>
      match s with
      | EmptyString => Some s
      | String c _ =>
          if Ascii.eqb c "010" then None
          else match GoStr.leading_space (GoStr.bytes s) with
               | Some n => SkipSpace f (GoStr.drop_bytes n s)
               | None => Some s
               end
      end
  end.

(** [scanNumber]: the maximal run of decimal digits at the front, with
    its value; the run must not be empty. *)
Fixpoint scan_digits (acc : Z) (s : string) : Z :=
  match s with
  | String c s' => if is_digit c then scan_digits (acc * 10 + digit_val c) s' else acc
  | EmptyString => acc
  end.

Definition starts_with_digit (s : string) : bool :=
  match s with
  | String c _ => is_digit c
  | EmptyString => false
  end.

(** [fmt.Sscanf(s, "%d", &v)] on a variable [v] that holds 0: the value
    left in [v]. The verb skips leading space, takes an optional sign and
    a run of digits, and converts with [strconv.ParseInt(tok, 10, 64)];
    on any error ([expected integer], unexpected EOF or newline, value out
    of range) [v] is not assigned. Input after the digits is not looked
    at. *)
Definition Sscanf_d (s : string) : Z :=
  match SkipSpace (String.length s) s with
  | None => 0
  | Some s1 =>
      let '(neg, s2) :=
        match s1 with
        | String "-" r => (true, r)
        | String "+" r => (false, r)
        | _ => (false, s1)
        end in
      if starts_with_digit s2 then
        let v := scan_digits 0 s2 in
        let v := if neg then - v else v in
        if Int64.in_range v then v else 0
      else 0
  end.

(** The last byte of a non-empty string and the string before it. *)
Fixpoint unsnoc (s : string) : option (string * ascii) :=
  match s with
  | EmptyString => None
  | String c EmptyString => Some (EmptyString, c)
  | String c s' =>
      match unsnoc s' with
      | Some (p, l) => Some (String c p, l)
      | None => None
      end
  end.

(** [Service.parseSchedule]. *)
Definition parseSchedule (schedule : string) : Z :=
  if String.eqb schedule "" then 0
  else
    match unsnoc schedule with
    | Some (pre, last) =>
        if (2 <=? String.length schedule)%nat && Ascii.eqb last "m" then
          Int64.mul (Sscanf_d pre) Duration.Minute
        else if (2 <=? String.length schedule)%nat && Ascii.eqb last "h" then
          Int64.mul (Sscanf_d pre) Duration.Hour
        else if (2 <=? String.length schedule)%nat && Ascii.eqb last "s" then
          Int64.mul (Sscanf_d pre) Duration.Second
        else 30 * Duration.Minute
    | None => 30 * Duration.Minute
    end.

(** The interval that [Service.runActivity] hands to [time.NewTicker]. *)
Definition runActivity_interval (schedule : string) : Z :=
  let interval := parseSchedule schedule in
  if interval <=? 0 then 30 * Duration.Minute else interval.

End Sched.

(* ===================================================================== *)
(** * sheikah_api.go and the query tool: template substitution *)
(* ===================================================================== *)

Module Tmpl.

(** The body of the loop over [pairs]: [params[TrimSpace(kv[0])] =
    TrimSpace(kv[1])] when [SplitN(pair, "=", 2)] has two parts. *)
Definition add_pair (params : gmap string string) (pair : string)
  : gmap string string :=
  match GoStr.SplitN2 pair "=" with
  | [k; v] => <[GoStr.TrimSpace k := GoStr.TrimSpace v]> params
  | _ => params
  end.

(** The [params] map built from [paramsStr]. *)
Definition parseParams (paramsStr : string) : gmap string string :=
  foldl add_pair ∅ (GoStr.Split paramsStr ",").

(** One round of [for k, v := range params]: the three [ReplaceAll]
    calls, in the order of the source. *)
Definition subst_one (result : string) (kv : string * string) : string :=
  let result := GoStr.ReplaceAll result ("{{." ++ kv.1 ++ "}}") kv.2 in
  let result := GoStr.ReplaceAll result ("{{" ++ kv.1 ++ "}}") kv.2 in
  GoStr.ReplaceAll result ("$" ++ kv.1) kv.2.

(** The whole loop, for one order of iteration. *)
Definition subst_loop (order : list (string * string)) (template : string) : string :=
  foldl subst_one template order.

(** Go iterates over a map in an order it does not specify: any
    enumeration of the entries may be the one taken. *)
Definition range_order (params : gmap string string)
    (order : list (string * string)) : Prop :=
  order ≡ₚ map_to_list params.

(** [SecOpsSheikahAPITool.replaceParams], for the order [order] taken by
    the range loop. *)
Definition SheikahAPI_replaceParams (order : list (string * string))
    (template paramsStr : string) : string :=
  if String.eqb template "" || String.eqb paramsStr "" then template
  else subst_loop order template.

(** [SecOpsQueryDataTool.replaceParams], likewise. *)
Definition QueryData_replaceParams (order : list (string * string))
    (template paramsStr : string) : string :=
  if String.eqb paramsStr "" then template
  else subst_loop order template.

(** [out] is a value that the call may return. *)
Definition may_return
    (f : list (string * string) → string → string → string)
    (template paramsStr out : string) : Prop :=
  ∃ order, range_order (parseParams paramsStr) order ∧
           f order template paramsStr = out.

(** A JSON string literal: [s] between two double-quote bytes. *)
Definition quoted (s : string) : string :=
  String (ascii_of_nat 34) s ++ String (ascii_of_nat 34) EmptyString.

(** The body template of the [save_api_analysis] endpoint, as
    [Service.initTools] registers it. *)
Definition save_api_analysis_body : string :=
  "{" ++ quoted "host" ++ ": " ++ quoted "$host" ++ ", "
      ++ quoted "method" ++ ": " ++ quoted "$method" ++ ", "
      ++ quoted "path" ++ ": " ++ quoted "$path" ++ ", "
      ++ quoted "biz_analysis" ++ ": " ++ quoted "$biz_analysis" ++ ", "
      ++ quoted "importance_analysis" ++ ": " ++ quoted "$importance_analysis" ++ ", "
      ++ quoted "param_analysis" ++ ": " ++ quoted "$param_analysis" ++ ", "
      ++ quoted "importance" ++ ": " ++ quoted "$importance" ++ ", "
      ++ quoted "skip_if_exist" ++ ": true}".

(** The body with [$importance] replaced by "high" and the value
    [analysis] in the place of [$importance_analysis]. *)
Definition body_with (analysis : string) : string :=
  "{" ++ quoted "host" ++ ": " ++ quoted "$host" ++ ", "
      ++ quoted "method" ++ ": " ++ quoted "$method" ++ ", "
      ++ quoted "path" ++ ": " ++ quoted "$path" ++ ", "
      ++ quoted "biz_analysis" ++ ": " ++ quoted "$biz_analysis" ++ ", "
      ++ quoted "importance_analysis" ++ ": " ++ quoted analysis ++ ", "
      ++ quoted "param_analysis" ++ ": " ++ quoted "$param_analysis" ++ ", "
      ++ quoted "importance" ++ ": " ++ quoted "high" ++ ", "
      ++ quoted "skip_if_exist" ++ ": true}".

End Tmpl.

(* ===================================================================== *)
(** * types.go: proposals *)
(* ===================================================================== *)

(** A value of type [interface{}], as far as proposal details need one. *)
Inductive any : Type :=
| AnyNil
| AnyBool (b : bool)
| AnyInt (z : Z)
| AnyString (s : string).

(** [time.Time] as the count of nanoseconds since the zero instant
    (January 1, year 1, 00:00:00 UTC); the zero value is [0]. *)
Module Time.
Definition t : Type := Z.
Definition zero : t := 0.
Definition IsZero (x : t) : bool := Z.eqb x 0.
End Time.

Module ProposalAction.
Record t : Type := Build {
  Label : string;
  Type_ : string;
  Params : gmap string string }.
End ProposalAction.

Module Param.
Record t : Type := Build {
  Key : string;
  Label : string;
  Type_ : string;
  Value : string;
  Options : list string }.

Definition with_Value (v : string) (p : t) : t :=
  Build (Key p) (Label p) (Type_ p) v (Options p).
End Param.

(** [ProposalStatus] is a string type; the four constants. *)
Definition ProposalStatus : Type := string.
Definition ProposalStatusPending : ProposalStatus := "pending".
Definition ProposalStatusAccepted : ProposalStatus := "accepted".
Definition ProposalStatusIgnored : ProposalStatus := "ignored".
Definition ProposalStatusModified : ProposalStatus := "modified".

Module Proposal.
(** The [Parameters] and [Details] maps are held by value: no claim here
    depends on two proposals sharing one map object. *)
Record t : Type := Build {
  ID : string;
  Type_ : string;
  Title : string;
  Summary : string;
  Details : gmap string any;
  Actions : list ProposalAction.t;
  Parameters : gmap string Param.t;
  Status : ProposalStatus;
  CreatedAt : Time.t;
  UpdatedAt : Time.t }.

Definition with_ID (x : string) (p : t) : t :=
  Build x (Type_ p) (Title p) (Summary p) (Details p) (Actions p)
        (Parameters p) (Status p) (CreatedAt p) (UpdatedAt p).
Definition with_Parameters (x : gmap string Param.t) (p : t) : t :=
  Build (ID p) (Type_ p) (Title p) (Summary p) (Details p) (Actions p)
        x (Status p) (CreatedAt p) (UpdatedAt p).
Definition with_Status (x : ProposalStatus) (p : t) : t :=
  Build (ID p) (Type_ p) (Title p) (Summary p) (Details p) (Actions p)
        (Parameters p) x (CreatedAt p) (UpdatedAt p).
Definition with_CreatedAt (x : Time.t) (p : t) : t :=
  Build (ID p) (Type_ p) (Title p) (Summary p) (Details p) (Actions p)
        (Parameters p) (Status p) x (UpdatedAt p).
Definition with_UpdatedAt (x : Time.t) (p : t) : t :=
  Build (ID p) (Type_ p) (Title p) (Summary p) (Details p) (Actions p)
        (Parameters p) (Status p) (CreatedAt p) x.
End Proposal.

(* ===================================================================== *)
(** * github.com/google/uuid: version-4 identifiers and their text *)
(* ===================================================================== *)

Module UUID.

Definition hex_digit (n : N) : ascii :=
  match String.get (N.to_nat n) "0123456789abcdef" with
  | Some c => c
  | None => "0"%char
  end.

Definition hex_byte (b : N) : string :=
  String (hex_digit (b / 16)) (String (hex_digit (b mod 16)) EmptyString).

Fixpoint hex (bs : list N) : string :=
  match bs with
  | [] => EmptyString
  | b :: r => hex_byte b ++ hex r
  end.

(** The sixteen bytes (big endian) of 128 random bits, with the version
    and variant bits that [uuid.NewRandom] sets. *)
Definition NewRandom (r : N) : list N :=
  let byte i := (N.shiftr r (8 * (15 - i)) mod 256)%N in
  let raw := byte <$> [0;1;2;3;4;5;6;7;8;9;10;11;12;13;14;15]%N in
  let raw := alter (fun b => N.lor (N.land b 15) 64) 6%nat raw in
  alter (fun b => N.lor (N.land b 63) 128) 8%nat raw.

(** [UUID.String]: xxxxxxxx-xxxx-xxxx-xxxx-xxxxxxxxxxxx. *)
Definition String_ (u : list N) : string :=
  hex (take 4 u) ++ "-" ++ hex (take 2 (drop 4 u)) ++ "-"
    ++ hex (take 2 (drop 6 u)) ++ "-" ++ hex (take 2 (drop 8 u)) ++ "-"
    ++ hex (drop 10 u).

Global Arguments String_ : simpl never.
Global Arguments NewRandom : simpl never.

End UUID.

(* ===================================================================== *)
(** * service.go: the proposal service *)
(* ===================================================================== *)

Module Store.

(** A [*Proposal]. *)
Definition loc : Type := nat.

(** A buffered [chan *Proposal]: the queued values and the capacity. *)
Record chan : Type := Chan {
  buf : list loc;
  capacity : nat }.

(** The [ProposalService] struct (the mutex has no state of its own in a
    sequential run). *)
Record ProposalService : Type := Service {
  proposals : gmap string loc;
  channel : chan }.

(** The state a call runs in: the heap of proposals, the service, and
    the two oracles with the number of values already read. *)
Record World : Type := MkWorld {
  heap : gmap loc Proposal.t;
  svc : ProposalService;
  clock : nat → Time.t;
  clock_reads : nat;
  entropy : nat → N;
  entropy_reads : nat }.

Definition with_heap (h : gmap loc Proposal.t) (w : World) : World :=
  MkWorld h (svc w) (clock w) (clock_reads w) (entropy w) (entropy_reads w).
Definition with_svc (s : ProposalService) (w : World) : World :=
  MkWorld (heap w) s (clock w) (clock_reads w) (entropy w) (entropy_reads w).
Definition with_clock_reads (n : nat) (w : World) : World :=
  MkWorld (heap w) (svc w) (clock w) n (entropy w) (entropy_reads w).
Definition with_entropy_reads (n : nat) (w : World) : World :=
  MkWorld (heap w) (svc w) (clock w) (clock_reads w) (entropy w) n.

(** A call returns a value and a new state, or panics (a nil or invalid
    pointer is dereferenced). *)
Inductive outcome (A : Type) : Type :=
| Ret (a : A) (w : World)
| Panic.
Arguments Ret {A} a w.
Arguments Panic {A}.

Definition M (A : Type) : Type := World → outcome A.

Definition ret {A} (a : A) : M A := fun w => Ret a w.
Definition bind {A B} (m : M A) (k : A → M B) : M B :=
  fun w => match m w with
           | Ret a w' => k a w'
           | Panic => Panic
           end.

Notation "'do' x <- m ; k" := (bind m (fun x => k))
  (at level 10, x name, m at level 100, k at level 200).
Notation "'do_' m ; k" := (bind m (fun _ => k))
  (at level 10, m at level 100, k at level 200).

(** [time.Now()]. *)
Definition time_Now : M Time.t :=
  fun w => Ret (clock w (clock_reads w)) (with_clock_reads (S (clock_reads w)) w).

(** [uuid.New().String()]. *)
Definition uuid_New_String : M string :=
  fun w => Ret (UUID.String_ (UUID.NewRandom (entropy w (entropy_reads w))))
               (with_entropy_reads (S (entropy_reads w)) w).

(** [*p]. *)
Definition load (p : loc) : M Proposal.t :=
  fun w => match heap w !! p with
           | Some v => Ret v w
           | None => Panic
           end.

(** [p.f = x], as an update of the struct behind [p]. *)
Definition update (p : loc) (f : Proposal.t → Proposal.t) : M unit :=
  fun w => match heap w !! p with
           | Some v => Ret tt (with_heap (<[p := f v]> (heap w)) w)
           | None => Panic
           end.

Definition get_svc : M ProposalService := fun w => Ret (svc w) w.
Definition put_svc (s : ProposalService) : M unit := fun w => Ret tt (with_svc s w).

(** [&Proposal{...}]: a new struct at an unused address. *)
Definition alloc (v : Proposal.t) : M loc :=
  fun w => let l := fresh (dom (heap w)) in
           Ret l (with_heap (<[l := v]> (heap w)) w).

(** [select { case ch <- x: default: }]: a send that never blocks. The
    reported boolean is whether the value was queued. *)
Definition try_send (c : chan) (x : loc) : chan * bool :=
  if (List.length (buf c) <? capacity c)%nat
  then (Chan (buf c ++ [x]) (capacity c), true)
  else (c, false).

(** [<-ch] when a value is queued. *)
Definition try_recv (c : chan) : option (loc * chan) :=
  match buf c with
  | x :: r => Some (x, Chan r (capacity c))
  | [] => None
  end.

(** A consumer that receives until the channel is empty ([fuel] bounds
    the number of receives). *)
Fixpoint recv_all (fuel : nat) (c : chan) : list loc :=
  match fuel with
  | O => []
  | S f =>
      match try_recv c with
      | Some (x, c') => x :: recv_all f c'
      | None => []
      end
  end.

(** [NewProposalService]. *)
Definition NewProposalService : ProposalService :=
  Service ∅ (Chan [] 10).

(** [NewProposal]. *)
Definition NewProposal (proposalType title summary : string)
    (details : gmap string any) : M loc :=
  do created <- time_Now;
  do updated <- time_Now;
  alloc (Proposal.Build "" proposalType title summary details []
           ∅ ProposalStatusPending created updated).

(** [ProposalService.Create]. *)
Definition Create (proposal : loc) : M string :=
  do p <- load proposal;
  do_ (if String.eqb (Proposal.ID p) ""
       then do id <- uuid_New_String; update proposal (Proposal.with_ID id)
       else ret tt);
  do p <- load proposal;
  do_ (if Time.IsZero (Proposal.CreatedAt p)
       then do now <- time_Now; update proposal (Proposal.with_CreatedAt now)
       else ret tt);
  do now <- time_Now;
  do_ update proposal (Proposal.with_UpdatedAt now);
  do p <- load proposal;
  do s <- get_svc;
  do_ put_svc (Service (<[Proposal.ID p := proposal]> (proposals s)) (channel s));
  do s <- get_svc;
  do_ put_svc (Service (proposals s) (try_send (channel s) proposal).1);
  do p <- load proposal;
  ret (Proposal.ID p).

(** [ProposalService.Get]. *)
Definition Get (id : string) : M (option loc) :=
  do s <- get_svc; ret (proposals s !! id).

(** [ProposalService.GetAll]: the stored pointers, in the order of the
    map iteration (which Go leaves open). *)
Definition GetAll : M (list loc) :=
  do s <- get_svc; ret (map_to_list (proposals s)).*2.

(** [ProposalService.GetPending]. (A stored pointer always has its
    struct: Go's heap has no dangling pointers.) *)
Definition GetPending : M (list loc) :=
  fun w =>
    Ret (List.filter
           (fun l => match heap w !! l with
                     | Some p => String.eqb (Proposal.Status p) ProposalStatusPending
                     | None => false
                     end)
           (map_to_list (proposals (svc w))).*2) w.

(** A Go [error]: [None] is [nil], [Some msg] an error whose text is
    [msg]. *)
Definition error : Type := option string.

(** [ProposalService.Accept]. *)
Definition Accept (id : string) (params : gmap string string) : M error :=
  do s <- get_svc;
  match proposals s !! id with
  | None => ret (Some ("proposal not found: " ++ id))
  | Some p =>
      do v <- load p;
      if negb (String.eqb (Proposal.Status v) ProposalStatusPending)
      then ret (Some ("proposal already processed: " ++ Proposal.Status v))
      else
        do_ update p (Proposal.with_Status ProposalStatusAccepted);
        do now <- time_Now;
        do_ update p (Proposal.with_UpdatedAt now);
        ret None
  end.

(** [ProposalService.Ignore]. *)
Definition Ignore (id : string) (params : gmap string string) : M error :=
  do s <- get_svc;
  match proposals s !! id with
  | None => ret (Some ("proposal not found: " ++ id))
  | Some p =>
      do v <- load p;
      if negb (String.eqb (Proposal.Status v) ProposalStatusPending)
      then ret (Some ("proposal already processed: " ++ Proposal.Status v))
      else
        do_ update p (Proposal.with_Status ProposalStatusIgnored);
        do now <- time_Now;
        do_ update p (Proposal.with_UpdatedAt now);
        ret None
  end.

(** One round of the loop of [Resubmit] over [params]. *)
Definition merge_param (parameters : gmap string Param.t)
    (kv : string * string) : gmap string Param.t :=
  match parameters !! kv.1 with
  | Some param => <[kv.1 := Param.with_Value kv.2 param]> parameters
  | None => parameters
  end.

Definition merge_params (order : list (string * string))
    (parameters : gmap string Param.t) : gmap string Param.t :=
  foldl merge_param parameters order.

(** [ProposalService.Resubmit]; the loop ranges over [params] in the
    order [map_to_list] enumerates it (the result does not depend on the
    order, see [merge_params_order]). *)
Definition Resubmit (id : string) (params : gmap string string)
  : M (option loc * error) :=
  do s <- get_svc;
  match proposals s !! id with
  | None => ret (None, Some ("proposal not found: " ++ id))
  | Some p =>
      do v <- load p;
      do_ update p (Proposal.with_Parameters
                      (merge_params (map_to_list params) (Proposal.Parameters v)));
      do_ update p (Proposal.with_Status ProposalStatusModified);
      do now <- time_Now;
      do_ update p (Proposal.with_UpdatedAt now);
      ret (Some p, None)
  end.

(** [ProposalService.Delete]. *)
Definition Delete (id : string) : M bool :=
  do s <- get_svc;
  match proposals s !! id with
  | Some _ => do_ put_svc (Service (delete id (proposals s)) (channel s)); ret true
  | None => ret false
  end.

End Store.

(* ===================================================================== *)
(** * service.go: the life cycle of the service *)
(* ===================================================================== *)

Module Svc.

(** [config.ActivityConfig] and [config.SecOpsConfig], the fields that
    service.go reads. *)
Record ActivityConfig : Type := MkActivityConfig {
  Enabled : bool;
  Schedule : string;
  Mode : string }.

Record SecOpsConfig : Type := MkSecOpsConfig {
  cfg_Enabled : bool;
  cfg_Activities : gmap string ActivityConfig }.

(** A [chan struct{}] is a name in the table of channels. *)
Definition chan_id : Type := nat.

Record Activity : Type := MkActivity {
  Name : string;
  Config : ActivityConfig;
  stopCh : chan_id }.

(** The [Service] struct with the run-time state it refers to:
    - [ctx_done]: the context has been cancelled;
    - [wg]: the counter of the wait group;
    - [chans]: every channel made so far, with whether it is closed;
    - [running]: the goroutines that are inside [runActivity];
    - [queryTool_client], [apiTool_client]: whether the tool still has
      its HTTP client ([Close] drops it). *)
Record Service : Type := MkService {
  config : SecOpsConfig;
  activities : gmap string Activity;
  ctx_done : bool;
  wg : nat;
  chans : gmap chan_id bool;
  running : list Activity;
  queryTool_client : bool;
  apiTool_client : bool }.

(** What a call does: it returns, it panics, or it never returns. *)
Inductive result (A : Type) : Type :=
| Returns (a : A)
| Panics (msg : string)
| Blocks.
Arguments Returns {A} a.
Arguments Panics {A} msg.
Arguments Blocks {A}.

(** [NewService]: [nil] for a disabled configuration. *)
Definition NewService (cfg : SecOpsConfig) : option Service :=
  if negb (cfg_Enabled cfg) then None
  else Some (MkService cfg ∅ false 0 ∅ [] true true).

(** One round of the loop of [Start]. *)
Definition start_one (s : Service) (entry : string * ActivityConfig) : Service :=
  let '(name, actCfg) := entry in
  if negb (Enabled actCfg) then s
  else
    let ch := fresh (dom (chans s)) in
    let activity := MkActivity name actCfg ch in
    MkService (config s) (<[name := activity]> (activities s)) (ctx_done s)
      (S (wg s)) (<[ch := false]> (chans s)) (running s ++ [activity])
      (queryTool_client s) (apiTool_client s).

(** [Service.Start]. *)
Definition Start (s : option Service) : option Service :=
  match s with
  | None => None
  | Some s => Some (foldl start_one s (map_to_list (cfg_Activities (config s))))
  end.

(** [close(ch)]: closing a closed channel panics. *)
Definition close (ch : chan_id) (s : Service) : result Service :=
  match chans s !! ch with
  | Some false =>
      Returns (MkService (config s) (activities s) (ctx_done s) (wg s)
                 (<[ch := true]> (chans s)) (running s)
                 (queryTool_client s) (apiTool_client s))
  | Some true => Panics "close of closed channel"
  | None => Panics "close of nil channel"
  end.

(** The loop [for _, activity := range s.activities { close(...) }]. *)
Fixpoint close_all (acts : list Activity) (s : Service) : result Service :=
  match acts with
  | [] => Returns s
  | a :: r =>
      match close (stopCh a) s with
      | Returns s' => close_all r s'
      | Panics m => Panics m
      | Blocks => Blocks
      end
  end.

(** A goroutine in the [select] of [runActivity] leaves its loop when
    its stop channel is closed or the context is done. *)
Definition may_exit (s : Service) (a : Activity) : bool :=
  ctx_done s || bool_decide (chans s !! stopCh a = Some true).

(** [s.wg.Wait()]: every goroutine that may leave its loop does so and
    runs its deferred [wg.Done()]; the call returns when the counter is
    zero. (An execution in flight is taken to return: the reasoning
    engine owns its own time-out.) *)
Definition wg_Wait (s : Service) : result Service :=
  let exited := List.filter (may_exit s) (running s) in
  let left := List.filter (fun a => negb (may_exit s a)) (running s) in
  let n := (wg s - List.length exited)%nat in
  if (n =? 0)%nat
  then Returns (MkService (config s) (activities s) (ctx_done s) n (chans s)
                  left (queryTool_client s) (apiTool_client s))
  else Blocks.

(** [Service.Stop]. *)
Definition Stop (s : option Service) : result (option Service) :=
  match s with
  | None => Returns None
  | Some s =>
      let s := MkService (config s) (activities s) true (wg s) (chans s)
                 (running s) (queryTool_client s) (apiTool_client s) in
      match close_all (map_to_list (activities s)).*2 s with
      | Panics m => Panics m
      | Blocks => Blocks
      | Returns s =>
          match wg_Wait s with
          | Panics m => Panics m
          | Blocks => Blocks
          | Returns s =>
              Returns (Some (MkService (config s) (activities s) (ctx_done s)
                               (wg s) (chans s) (running s) false false))
          end
      end
  end.

(** A configuration with one enabled activity. *)
Definition one_activity : SecOpsConfig :=
  MkSecOpsConfig true
    (<["risk_analysis" := MkActivityConfig true "30m" "manual"]> ∅).

End Svc.

(* ===================================================================== *)
(** * Sequences of calls on the proposal service *)
(* ===================================================================== *)

Module Calls.

Import Store.

(** [Create] on every pointer of [ls] in turn, with the identifiers
    returned. *)
Fixpoint create_all (ls : list loc) : M (list string) :=
  match ls with
  | [] => ret []
  | l :: r =>
      do id <- Create l;
      do ids <- create_all r;
      ret (id :: ids)
  end.

(** What a client of the service may do: build a new proposal struct,
    or call one of the methods that write. *)
Inductive call : Type :=
| CallNew (v : Proposal.t)
| CallCreate (l : loc)
| CallAccept (id : string) (params : gmap string string)
| CallIgnore (id : string) (params : gmap string string)
| CallResubmit (id : string) (params : gmap string string)
| CallDelete (id : string).

Definition state_of {A} (o : outcome A) : option World :=
  match o with
  | Ret _ w => Some w
  | Panic => None
  end.

Definition run_call (c : call) (w : World) : option World :=
  match c with
  | CallNew v => state_of (alloc v w)
  | CallCreate l => state_of (Create l w)
  | CallAccept id params => state_of (Accept id params w)
  | CallIgnore id params => state_of (Ignore id params w)
  | CallResubmit id params => state_of (Resubmit id params w)
  | CallDelete id => state_of (Delete id w)
  end.

Fixpoint run_calls (cs : list call) (w : World) : option World :=
  match cs with
  | [] => Some w
  | c :: r =>
      match run_call c w with
      | Some w' => run_calls r w'
      | None => None
      end
  end.

(** The status of the proposal stored under [id]. *)
Definition status_at (w : World) (id : string) : option ProposalStatus :=
  match proposals (svc w) !! id with
  | Some l => Proposal.Status <$> heap w !! l
  | None => None
  end.

(** The identifiers carried by the stored proposals, in the order of
    [GetAll]. *)
Definition stored_ids (w : World) : list (option string) :=
  (fun l => Proposal.ID <$> heap w !! l) <$> (map_to_list (proposals (svc w))).*2.

(** Every entry of the map points to a struct that carries the key as
    its [ID], and no key is empty. *)
Definition keyed_by_id (w : World) : Prop :=
  ∀ k l, proposals (svc w) !! k = Some l →
         k ≠ "" ∧ ∃ p, heap w !! l = Some p ∧ Proposal.ID p = k.

(** A world in which nothing has been created yet. *)
Definition initial (clock : nat → Time.t) (entropy : nat → N) : World :=
  MkWorld ∅ NewProposalService clock 0 entropy 0.

(** The struct behind the pointer after a successful [Accept] or
    [Ignore] at clock value [now], and the state then. *)
Definition decided (status : ProposalStatus) (now : Time.t)
    (p : Proposal.t) : Proposal.t :=
  Proposal.with_UpdatedAt now (Proposal.with_Status status p).

Definition after_decision (status : ProposalStatus) (l : loc)
    (p : Proposal.t) (w : World) : World :=
  with_clock_reads (S (clock_reads w))
    (with_heap (<[l := decided status (clock w (clock_reads w)) p]> (heap w)) w).

(** The struct behind the pointer after [Create], and the state then:
    the closed form of the straight-line code of [Create] (see
    [Create_run]). *)
Definition with_fresh_id (w : World) (p : Proposal.t) : Proposal.t :=
  if String.eqb (Proposal.ID p) ""
  then Proposal.with_ID
         (UUID.String_ (UUID.NewRandom (entropy w (entropy_reads w)))) p
  else p.

Definition with_creation_time (w : World) (p : Proposal.t) : Proposal.t :=
  if Time.IsZero (Proposal.CreatedAt p)
  then Proposal.with_CreatedAt (clock w (clock_reads w)) p
  else p.

Definition clock_reads_of_create (p : Proposal.t) : nat :=
  if Time.IsZero (Proposal.CreatedAt p) then 2%nat else 1%nat.

Definition created (w : World) (p : Proposal.t) : Proposal.t :=
  Proposal.with_UpdatedAt
    (clock w (clock_reads w + clock_reads_of_create p - 1)%nat)
    (with_creation_time w (with_fresh_id w p)).

Definition after_create (l : loc) (p : Proposal.t) (w : World) : World :=
  MkWorld (<[l := created w p]> (heap w))
    (Service (<[Proposal.ID (created w p) := l]> (proposals (svc w)))
       (try_send (channel (svc w)) l).1)
    (clock w) (clock_reads w + clock_reads_of_create p)%nat
    (entropy w)
    (if String.eqb (Proposal.ID p) "" then S (entropy_reads w) else entropy_reads w).

(** The struct behind the pointer after [Resubmit], and the state
    then. *)
Definition resubmitted (params : gmap string string) (now : Time.t)
    (p : Proposal.t) : Proposal.t :=
  Proposal.with_UpdatedAt now
    (Proposal.with_Status ProposalStatusModified
       (Proposal.with_Parameters
          (merge_params (map_to_list params) (Proposal.Parameters p)) p)).

Definition after_resubmit (params : gmap string string) (l : loc)
    (p : Proposal.t) (w : World) : World :=
  with_clock_reads (S (clock_reads w))
    (with_heap (<[l := resubmitted params (clock w (clock_reads w)) p]> (heap w)) w).

(** A parameter after the merge of [params]: its value is replaced when
    [params] names it. *)
Definition merged (params : gmap string string) (k : string)
    (param : Param.t) : Param.t :=
  match params !! k with
  | Some v => Param.with_Value v param
  | None => param
  end.

(** The channel after one non-blocking send per pointer of [ls], with
    no receive in between. *)
Definition send_all (c : chan) (ls : list loc) : chan :=
  foldl (fun c l => (try_send c l).1) c ls.

(** The identifiers that the structs behind [ls] carry in [w]. *)
Definition incoming_ids (w : World) (ls : list loc) : list string :=
  (fun l => default "" (Proposal.ID <$> heap w !! l)) <$> ls.

(** The struct behind [l] exists and carries an identifier. *)
Definition has_id (w : World) (l : loc) : Prop :=
  ∃ p, heap w !! l = Some p ∧ Proposal.ID p ≠ "".

(** The map after the assignments [proposals[id] = l], in order. *)
Definition store_all (m : gmap string loc) (entries : list (string * loc))
  : gmap string loc :=
  foldl (fun m e => <[e.1 := e.2]> m) m entries.

(** What one call does to the heap and to the map. *)
Inductive effect (w w' : World) : Prop :=
| eff_new (l : loc) (v : Proposal.t) :
    heap w !! l = None → heap w' = <[l := v]> (heap w) → svc w' = svc w →
    effect w w'
| eff_create (l : loc) (p : Proposal.t) :
    heap w !! l = Some p → w' = after_create l p w → effect w w'
| eff_write (id : string) (l : loc) (p p' : Proposal.t) :
    proposals (svc w) !! id = Some l → heap w !! l = Some p →
    heap w' = <[l := p']> (heap w) → Proposal.ID p' = Proposal.ID p →
    svc w' = svc w → effect w w'
| eff_forget :
    heap w' = heap w →
    (∀ k l, proposals (svc w') !! k = Some l → proposals (svc w) !! k = Some l) →
    effect w w'.

(** The zero value of the struct, at address 0 of an otherwise empty
    heap. *)
Definition zero_proposal : Proposal.t :=
  Proposal.Build "" "" "" "" ∅ [] ∅ "" Time.zero Time.zero.

(** A small run used to exercise the statements: a clock that starts at
    1000 ns, a counter as the source of random bits, one pending proposal
    with the identifier "p1" and one built by [NewProposal], both
    created. *)
Definition demo_proposal : Proposal.t :=
  Proposal.Build "p1" "risk" "SQL injection" "suspicious request" ∅ []
    (<["note" := Param.Build "note" "Note" "string" "" []]> ∅)
    ProposalStatusPending 0 0.

Definition demo_run : M (string * string) :=
  do l1 <- alloc demo_proposal;
  do id1 <- Create l1;
  do l2 <- NewProposal "weak" "Weak password" "login endpoint" ∅;
  do id2 <- Create l2;
  ret (id1, id2).

Definition demo_start : World :=
  initial (fun n => 1000 + Z.of_nat n) (fun n => N.of_nat n).

Definition zero_world : World :=
  with_heap (<[0%nat := zero_proposal]> ∅) demo_start.

(** Eleven zero-valued structs at the addresses 0..10. *)
Definition eleven : list loc := seq 0 11.

Definition eleven_world : World :=
  with_heap (list_to_map ((fun l => (l, zero_proposal)) <$> eleven)) demo_start.

(** Two structs that carry the same identifier are created one after
    the other, then the identifier is accepted. *)
Definition duplicate_calls : list call :=
  [ CallNew demo_proposal; CallCreate 0%nat;
    CallNew demo_proposal; CallCreate 1%nat;
    CallAccept "p1" ∅ ].

Definition demo_world : World :=
  match demo_run demo_start with
  | Ret _ w => w
  | Panic => demo_start
  end.

End Calls.

(* ===================================================================== *)
(** * The life of a proposal struct, and the consumer of notifications *)
(* ===================================================================== *)

Module Lifetime.

Import Store Calls.

(** A parameter after a merge: everything but the value is kept. *)
Definition same_param (a b : Param.t) : Prop :=
  Param.Key b = Param.Key a ∧ Param.Label b = Param.Label a
  ∧ Param.Type_ b = Param.Type_ a ∧ Param.Options b = Param.Options a.

(** What the calls of the service may do to a struct, from [p] to [q]:
    the descriptive fields stay; an identifier and a creation time that are
    set stay; the parameters keep their names and all but their values; a
    status that has left pending does not come back to it. *)
Record evolves (p q : Proposal.t) : Prop := Evolves {
  ev_type : Proposal.Type_ q = Proposal.Type_ p;
  ev_title : Proposal.Title q = Proposal.Title p;
  ev_summary : Proposal.Summary q = Proposal.Summary p;
  ev_details : Proposal.Details q = Proposal.Details p;
  ev_actions : Proposal.Actions q = Proposal.Actions p;
  ev_id : Proposal.ID p ≠ "" → Proposal.ID q = Proposal.ID p;
  ev_created : Time.IsZero (Proposal.CreatedAt p) = false →
               Proposal.CreatedAt q = Proposal.CreatedAt p;
  ev_names : dom (Proposal.Parameters q) = dom (Proposal.Parameters p);
  ev_params : ∀ k a, Proposal.Parameters p !! k = Some a →
                     ∃ b, Proposal.Parameters q !! k = Some b ∧ same_param a b;
  ev_status : Proposal.Status p ≠ ProposalStatusPending →
              Proposal.Status q ≠ ProposalStatusPending }.

(** [<-s.Channel()] by the consumer: the oldest queued notification is
    taken; [None] when the buffer is empty (the receive would block). *)
Definition receive (w : World) : option (loc * World) :=
  match try_recv (channel (svc w)) with
  | Some (x, c) => Some (x, with_svc (Service (proposals (svc w)) c) w)
  | None => None
  end.

(** The clients of the service and the consumer of its channel, taking
    turns in any order. *)
Inductive step : Type :=
| Client (c : call)
| Consumer.

Definition run_step (s : step) (w : World) : option World :=
  match s with
  | Client c => run_call c w
  | Consumer => snd <$> receive w
  end.

Fixpoint run_steps (ss : list step) (w : World) : option World :=
  match ss with
  | [] => Some w
  | s :: r =>
      match run_step s w with
      | Some w' => run_steps r w'
      | None => None
      end
  end.

(** Every queued notification points to a struct that carries an
    identifier, and the buffer is within the capacity of ten. *)
Definition channel_ok (w : World) : Prop :=
  capacity (channel (svc w)) = 10%nat
  ∧ (List.length (buf (channel (svc w))) ≤ 10)%nat
  ∧ ∀ l, l ∈ buf (channel (svc w)) →
         ∃ p, heap w !! l = Some p ∧ Proposal.ID p ≠ "".

(** Twelve creations of two structs, with one receive after the first. *)
Definition busy_steps : list step :=
  [Client (CallCreate 0%nat); Consumer]
    ++ repeat (Client (CallCreate 1%nat)) 11.

End Lifetime.

(* ===================================================================== *)
(** * Shapes of templates and parameter strings *)
(* ===================================================================== *)

Module Shape.

(** The byte [c] occurs in [s]. *)
Fixpoint has_byte (c : ascii) (s : string) : bool :=
  match s with
  | EmptyString => false
  | String a r => Ascii.eqb a c || has_byte c r
  end.

(** A template without a dollar sign and without an opening brace: it
    holds no placeholder in any of the three spellings. *)
Definition no_placeholder_mark (template : string) : bool :=
  negb (has_byte "$" template) && negb (has_byte "{" template).

(** A string that [strings.TrimSpace] leaves as it is. *)
Definition trimmed (s : string) : Prop := GoStr.TrimSpace s = s.

End Shape.

(** Templates seen as a sequence of literal text and placeholders for one
    key, to state what [replaceParams] does with them. *)
Module Placeholder.

(** The three spellings that [replaceParams] replaces, in the order of its
    three [ReplaceAll] calls. *)
Inductive spelling : Type := Dotted | Braced | Dollar.

(** The text of a placeholder for the key [k]: the [old] argument of the
    corresponding [ReplaceAll] call. *)
Definition pattern (sp : spelling) (k : string) : string :=
  match sp with
  | Dotted => "{{." ++ k ++ "}}"
  | Braced => "{{" ++ k ++ "}}"
  | Dollar => "$" ++ k
  end.

Inductive piece : Type :=
  | Text (s : string)
  | Hole (sp : spelling).

(** The template that the pieces spell for the key [k]. *)
Fixpoint render (k : string) (ps : list piece) : string :=
  match ps with
  | [] => ""
  | Text s :: r => s ++ render k r
  | Hole sp :: r => pattern sp k ++ render k r
  end.

(** The same text with [v] in the place of every placeholder. *)
Fixpoint filled (v : string) (ps : list piece) : string :=
  match ps with
  | [] => ""
  | Text s :: r => s ++ filled v r
  | Hole _ :: r => v ++ filled v r
  end.

(** Every literal piece is free of dollar signs and opening braces. *)
Definition plain_text (ps : list piece) : bool :=
  forallb (λ p, match p with
                | Text s => Shape.no_placeholder_mark s
                | Hole _ => true
                end) ps.

(** A key without dollar sign and opening brace that does not start with
    a dot. *)
Definition plain_key (k : string) : bool :=
  Shape.no_placeholder_mark k && negb (GoStr.HasPrefix k ".").

Definition rank (sp : spelling) : nat :=
  match sp with Dotted => 0 | Braced => 1 | Dollar => 2 end.

(** The pieces after the [ReplaceAll] call for the spelling [sp]. *)
Definition fill_piece (sp : spelling) (v : string) (p : piece) : piece :=
  match p with
  | Hole sp' => if Nat.eqb (rank sp) (rank sp') then Text v else p
  | Text _ => p
  end.

(** The literal pieces are plain and no placeholder of a spelling before
    rank [n] is left. *)
Definition pieces_from (n : nat) (ps : list piece) : Prop :=
  Forall (λ p, match p with
               | Text s => Shape.no_placeholder_mark s = true
               | Hole sp => (n <= rank sp)%nat
               end) ps.

End Placeholder.

(* ===================================================================== *)
(** * States of a started service *)
(* ===================================================================== *)

Module Lifecycle.

Import Svc.

(** The state that [Start] leaves behind on a new service: the wait
    group counts the goroutines that run, every activity has an open stop
    channel, and no two activities share a channel. *)
Definition well_started (s : Service) : Prop :=
  wg s = List.length (running s)
  ∧ (∀ name a, activities s !! name = Some a → chans s !! stopCh a = Some false)
  ∧ (∀ n1 n2 a1 a2, activities s !! n1 = Some a1 → activities s !! n2 = Some a2 →
                    stopCh a1 = stopCh a2 → n1 = n2).

(** The entries of the configuration that are enabled. *)
Definition enabled_entries (cfg : SecOpsConfig) : list (string * ActivityConfig) :=
  List.filter (fun e => Enabled e.2) (map_to_list (cfg_Activities cfg)).

(** A configuration with two enabled activities and a disabled one. *)
Definition three_activities : SecOpsConfig :=
  MkSecOpsConfig true
    (<["risk_analysis" := MkActivityConfig true "30m" "manual"]>
       (<["weak_analysis" := MkActivityConfig true "1h" "auto"]>
          (<["app_explain" := MkActivityConfig false "60m" "auto"]> ∅))).

(** The service after [NewService] and [Start] on that configuration. *)
Definition started_three : Service :=
  match Start (NewService three_activities) with
  | Some s => s
  | None => MkService three_activities ∅ false 0 ∅ [] true true
  end.

End Lifecycle.

(* ===================================================================== *)
(** * The debug UI: the HTTP handlers over the proposal service *)
(* ===================================================================== *)

Module DebugUI.

Import Store.

(** What a handler writes as the body: plain text, or the value it hands
    to the JSON encoder (the encoder itself is not modelled). *)
Inductive body : Type :=
| Plain (text : string)
| JsonMap (m : gmap string string)
| JsonProposal (p : Proposal.t)
| JsonResubmitted (id : string) (p : option Proposal.t).

Record response : Type := Response {
  code : nat;
  contentType : string;
  sent : body }.

Definition StatusOK : nat := 200.
Definition StatusBadRequest : nat := 400.
Definition StatusNotFound : nat := 404.
Definition StatusServiceUnavailable : nat := 503.

(** [http.Error(w, msg, code)]: the content type becomes plain text, the
    status is [code], the body is the message and a newline. *)
Definition http_Error (msg : string) (c : nat) : response :=
  Response c "text/plain; charset=utf-8" (Plain (msg ++ String "010" EmptyString)).

(** [json.NewEncoder(w).Encode(v)] after the handler has set the content
    type to JSON and no status: the status is 200. *)
Definition encode (v : body) : response :=
  Response StatusOK "application/json" v.

(** [s[n:]]; [None] is the panic of a slice out of range. *)
Definition slice_from (n : nat) (s : string) : option string :=
  if (String.length s <? n)%nat then None else Some (GoStr.drop_bytes n s).

(** [s[:len(s)-k]]; [None] is the panic of a negative bound. *)
Definition slice_drop_last (k : nat) (s : string) : option string :=
  if (String.length s <? k)%nat then None
  else Some (String.substring 0 (String.length s - k) s).

(** [id := r.URL.Path[len("/api/proposal/"):]] and then
    [id = id[:len(id)-len(suffix)]]. *)
Definition path_id (path suffix : string) : option string :=
  match slice_from (String.length "/api/proposal/") path with
  | Some id => slice_drop_last (String.length suffix) id
  | None => None
  end.

Definition panic {A} : M A := fun _ => Panic.

(** [Server.handleProposal]. [available] is [s.proposalService != nil]. *)
Definition handleProposal (available : bool) (path : string) : M response :=
  match slice_from (String.length "/api/proposal/") path with
  | None => panic
  | Some id =>
      if String.eqb id "" then ret (http_Error "proposal id required" StatusBadRequest)
      else if negb available
      then ret (http_Error "proposal service not available" StatusServiceUnavailable)
      else
        do found <- Get id;
        match found with
        | None => ret (http_Error "proposal not found" StatusNotFound)
        | Some proposal => do p <- load proposal; ret (encode (JsonProposal p))
        end
  end.

(** [Server.handleAccept]. [params] is the map that decoding the body
    leaves behind (the decoder's error is not looked at). *)
Definition handleAccept (available : bool) (path : string)
    (params : gmap string string) : M response :=
  match path_id path "/accept" with
  | None => panic
  | Some id =>
      if String.eqb id "" then ret (http_Error "proposal id required" StatusBadRequest)
      else if negb available
      then ret (http_Error "proposal service not available" StatusServiceUnavailable)
      else
        do err <- Accept id params;
        match err with
        | Some msg => ret (http_Error msg StatusBadRequest)
        | None => ret (encode (JsonMap (<["status" := "accepted"]> (<["id" := id]> ∅))))
        end
  end.

(** [Server.handleIgnore]. *)
Definition handleIgnore (available : bool) (path : string)
    (params : gmap string string) : M response :=
  match path_id path "/ignore" with
  | None => panic
  | Some id =>
      if String.eqb id "" then ret (http_Error "proposal id required" StatusBadRequest)
      else if negb available
      then ret (http_Error "proposal service not available" StatusServiceUnavailable)
      else
        do err <- Ignore id params;
        match err with
        | Some msg => ret (http_Error msg StatusBadRequest)
        | None => ret (encode (JsonMap (<["status" := "ignored"]> (<["id" := id]> ∅))))
        end
  end.

(** [Server.handleResubmit]. *)
Definition handleResubmit (available : bool) (path : string)
    (params : gmap string string) : M response :=
  match path_id path "/resubmit" with
  | None => panic
  | Some id =>
      if String.eqb id "" then ret (http_Error "proposal id required" StatusBadRequest)
      else if negb available
      then ret (http_Error "proposal service not available" StatusServiceUnavailable)
      else
        do r <- Resubmit id params;
        match r with
        | (_, Some msg) => ret (http_Error msg StatusBadRequest)
        | (Some proposal, None) =>
            do p <- load proposal; ret (encode (JsonResubmitted id (Some p)))
        | (None, None) => ret (encode (JsonResubmitted id None))
        end
  end.

End DebugUI.

(* ===================================================================== *)
(** * The schedule grammar, as the specification words it *)
(* ===================================================================== *)

Module SchedSpec.

(** The duration of a unit suffix. *)
Definition unit_of (u : ascii) : option Z :=
  if Ascii.eqb u "s" then Some Duration.Second
  else if Ascii.eqb u "m" then Some Duration.Minute
  else if Ascii.eqb u "h" then Some Duration.Hour
  else None.

Definition default_interval : Z := 30 * Duration.Minute.

(** A decimal numeral (leading zeros allowed) and the number it denotes. *)
Definition numeral (d : Decimal.uint) : string := NilEmpty.string_of_uint d.
Definition value (d : Decimal.uint) : Z := Z.of_N (N.of_uint d).

(** [<integer><unit>]: a non-empty run of decimal digits denoting a
    positive number, then one of the bytes s, m, h. *)
Definition is_interval_expr (s : string) : bool :=
  match Sched.unsnoc s with
  | Some (pre, u) =>
      match unit_of u, NilEmpty.uint_of_string pre with
      | Some _, Some d => negb (String.eqb pre "") && (0 <? value d)
      | _, _ => false
      end
  | None => false
  end.

(** The interval the specification gives: [n] units for an expression
    of the grammar, the default for every other string. *)
Definition spec_interval (s : string) : Z :=
  match Sched.unsnoc s with
  | Some (pre, u) =>
      match unit_of u, NilEmpty.uint_of_string pre with
      | Some unit, Some d =>
          if negb (String.eqb pre "") && (0 <? value d)
          then value d * unit else default_interval
      | _, _ => default_interval
      end
  | None => default_interval
  end.

(** The first byte of a white-space rune, or a byte that is not ASCII. *)
Definition space_or_high (c : ascii) : bool :=
  let n := N_of_ascii c in
  ((9 <=? n)%N && (n <=? 13)%N) || (n =? 32)%N || (128 <=? n)%N.

(** A prefix with no integer at its front: it is empty, or a sign that no
    digit follows, or it starts with an ASCII byte that is neither a
    digit, a sign nor white space. *)
Definition no_leading_integer (pre : string) : bool :=
  match pre with
  | EmptyString => true
  | String c r =>
      if Ascii.eqb c "-" || Ascii.eqb c "+" then negb (Sched.starts_with_digit r)
      else negb (Sched.is_digit c) && negb (space_or_high c)
  end.

(** The interval of a schedule expression, class by class. *)
Inductive interval_of : string → Z → Prop :=
| iv_units (d : Decimal.uint) (u : ascii) (unit : Z) :
    unit_of u = Some unit →
    0 < value d →
    value d * unit ≤ Int64.max_int →
    interval_of (numeral d ++ String u EmptyString) (value d * unit)
| iv_empty :
    interval_of EmptyString default_interval
| iv_no_suffix (s pre : string) (c : ascii) :
    Sched.unsnoc s = Some (pre, c) →
    unit_of c = None →
    interval_of s default_interval
| iv_one_byte (c : ascii) :
    interval_of (String c EmptyString) default_interval
| iv_no_integer (pre : string) (u : ascii) (unit : Z) :
    unit_of u = Some unit →
    no_leading_integer pre = true →
    interval_of (pre ++ String u EmptyString) default_interval
| iv_zero (d : Decimal.uint) (u : ascii) (unit : Z) :
    unit_of u = Some unit →
    value d = 0 →
    interval_of (numeral d ++ String u EmptyString) default_interval
| iv_negative (d : Decimal.uint) (u : ascii) (unit : Z) :
    unit_of u = Some unit →
    value d * unit ≤ - Int64.min_int →
    interval_of (String "-" (numeral d) ++ String u EmptyString) default_interval.

End SchedSpec.

(* ===================================================================== *)
(** * Properties of the schedule parser *)
(* ===================================================================== *)

Section schedule_facts.

Import Sched SchedSpec.

Lemma unsnoc_snoc (s : string) (c : ascii) :
  unsnoc (s ++ String c EmptyString) = Some (s, c).
Proof.
  induction s as [|a s IH]; [reflexivity|].
  change (String a s ++ String c EmptyString)
    with (String a (s ++ String c EmptyString)).
  destruct (s ++ String c EmptyString) as [|b t] eqn:E.
  - destruct s; discriminate.
  - change (unsnoc (String a (String b t)))
      with (match unsnoc (String b t) with
            | Some (p, l) => Some (String a p, l)
            | None => None
            end).
    now rewrite IH.
Qed.

Lemma length_snoc (s : string) (c : ascii) :
  String.length (s ++ String c EmptyString) = S (String.length s).
Proof.
  induction s as [|a s IH]; [reflexivity|].
  change (String a s ++ String c EmptyString)
    with (String a (s ++ String c EmptyString)).
  cbn [String.length]. now rewrite IH.
Qed.

Lemma snoc_not_empty (s : string) (c : ascii) :
  String.eqb (s ++ String c EmptyString) "" = false.
Proof. destruct s; reflexivity. Qed.

(** A digit is not the first byte of a white-space rune, and it is not a
    newline or a sign. *)
Lemma digit_not_space (c : ascii) (s : string) :
  is_digit c = true →
  GoStr.leading_space (GoStr.bytes (String c s)) = None
  ∧ Ascii.eqb c "010" = false
  ∧ c ≠ "-"%char ∧ c ≠ "+"%char.
Proof.
  destruct c as [[|] [|] [|] [|] [|] [|] [|] [|]]; cbv [is_digit];
    cbn; try discriminate; intros _; repeat split; discriminate.
Qed.

Lemma plain_not_space (c : ascii) (s : string) :
  space_or_high c = false →
  GoStr.leading_space (GoStr.bytes (String c s)) = None
  ∧ Ascii.eqb c "010" = false.
Proof.
  destruct c as [[|] [|] [|] [|] [|] [|] [|] [|]]; cbv [space_or_high];
    cbn; try discriminate; intros _; split; reflexivity.
Qed.

Lemma SkipSpace_digit (fuel : nat) (c : ascii) (s : string) :
  is_digit c = true → SkipSpace fuel (String c s) = Some (String c s).
Proof.
  intros H. destruct (digit_not_space c s H) as (Hs & Hn & _).
  destruct fuel; [reflexivity|]. cbn [SkipSpace]. now rewrite Hn, Hs.
Qed.

Lemma SkipSpace_plain (fuel : nat) (c : ascii) (s : string) :
  space_or_high c = false → SkipSpace fuel (String c s) = Some (String c s).
Proof.
  intros H. destruct (plain_not_space c s H) as (Hs & Hn).
  destruct fuel; [reflexivity|]. cbn [SkipSpace]. now rewrite Hn, Hs.
Qed.

(** The scanner reads a numeral as the number it denotes. *)
Lemma scan_digits_numeral (d d' : Decimal.uint) :
  scan_digits (Z.of_N (Unsigned.of_lu d')) (numeral d)
  = Z.of_N (Unsigned.of_lu (Decimal.revapp d d')).
Proof.
  revert d'. unfold numeral.
  induction d as [|d IH|d IH|d IH|d IH|d IH|d IH|d IH|d IH|d IH|d IH];
    intros d'; [reflexivity|..];
    cbn [NilEmpty.string_of_uint scan_digits Decimal.revapp];
    (replace (is_digit _) with true by reflexivity); cbv iota;
    rewrite <- IH; f_equal; cbn [Unsigned.of_lu]; unfold digit_val; cbn; lia.
Qed.

Lemma scan_digits_value (d : Decimal.uint) :
  scan_digits 0 (numeral d) = value d.
Proof.
  change 0 with (Z.of_N (Unsigned.of_lu Decimal.Nil)).
  rewrite scan_digits_numeral. unfold value, N.of_uint.
  now rewrite Unsigned.of_uint_alt.
Qed.

Lemma value_nonneg (d : Decimal.uint) : 0 ≤ value d.
Proof. unfold value. lia. Qed.

Lemma numeral_head (d : Decimal.uint) :
  d ≠ Decimal.Nil →
  ∃ c s, numeral d = String c s ∧ is_digit c = true.
Proof.
  destruct d; [congruence|..]; intros _; eexists _, _; split; reflexivity.
Qed.

Lemma value_pos_not_nil (d : Decimal.uint) : value d ≠ 0 → d ≠ Decimal.Nil.
Proof. intros H ->. now apply H. Qed.

(** [Sscanf] on a non-empty numeral within [int64]. *)
Lemma Sscanf_d_numeral (d : Decimal.uint) :
  d ≠ Decimal.Nil → value d ≤ Int64.max_int →
  Sscanf_d (numeral d) = value d.
Proof.
  intros Hd Hmax. destruct (numeral_head d Hd) as (c & s & E & Hc).
  unfold Sscanf_d. rewrite E, SkipSpace_digit by done.
  destruct (digit_not_space c s Hc) as (_ & _ & Hm & Hp).
  assert (Hsign : (match String c s with
                   | String "-" r => (true, r)
                   | String "+" r => (false, r)
                   | _ => (false, String c s)
                   end) = (false, String c s)).
  { destruct c as [[|] [|] [|] [|] [|] [|] [|] [|]]; try reflexivity; congruence. }
  rewrite Hsign. cbn [starts_with_digit]. rewrite Hc, <- E, scan_digits_value.
  pose proof (value_nonneg d).
  unfold Int64.in_range, Int64.min_int.
  destruct (Z.leb_spec (- 2 ^ 63) (value d)), (Z.leb_spec (value d) Int64.max_int);
    cbn; lia.
Qed.

Lemma Sscanf_d_negative (d : Decimal.uint) :
  value d ≤ - Int64.min_int →
  Sscanf_d (String "-" (numeral d)) = - value d.
Proof.
  intros Hmin. unfold Sscanf_d.
  rewrite SkipSpace_plain by reflexivity.
  destruct d as [|d|d|d|d|d|d|d|d|d|d].
  1: reflexivity.
  all: cbn [numeral NilEmpty.string_of_uint starts_with_digit];
    (replace (is_digit _) with true by reflexivity); cbv iota.
  all: match goal with |- context [scan_digits 0 ?s] =>
         match goal with |- context [value ?d] =>
           change s with (numeral d) end end.
  all: rewrite scan_digits_value.
  all: match goal with |- context [value ?d] => pose proof (value_nonneg d) end.
  all: unfold Int64.in_range, Int64.max_int, Int64.min_int in *.
  all: match goal with |- context [value ?d] =>
         destruct (Z.leb_spec (- 2 ^ 63) (- value d)),
                  (Z.leb_spec (- value d) (2 ^ 63 - 1)); cbn; lia end.
Qed.

Lemma Sscanf_d_no_integer (pre : string) :
  no_leading_integer pre = true → Sscanf_d pre = 0.
Proof.
  destruct pre as [|c r]; [reflexivity|]. cbn [no_leading_integer].
  destruct (Ascii.eqb_spec c "-") as [->|Hm].
  - cbn [orb]. intros H. unfold Sscanf_d.
    rewrite SkipSpace_plain by reflexivity.
    now destruct (starts_with_digit r).
  - destruct (Ascii.eqb_spec c "+") as [->|Hp].
    + cbn [orb]. intros H. unfold Sscanf_d.
      rewrite SkipSpace_plain by reflexivity.
      now destruct (starts_with_digit r).
    + cbn [orb]. intros [Hd Hs]%andb_prop.
      apply negb_true_iff in Hd, Hs.
      unfold Sscanf_d. rewrite SkipSpace_plain by done.
      assert (Hsign : (match String c r with
                       | String "-" r' => (true, r')
                       | String "+" r' => (false, r')
                       | _ => (false, String c r)
                       end) = (false, String c r)).
      { destruct c as [[|] [|] [|] [|] [|] [|] [|] [|]]; try reflexivity; congruence. }
      rewrite Hsign. cbn [starts_with_digit]. now rewrite Hd.
Qed.

Lemma wrap64_id (z : Z) :
  Int64.min_int ≤ z ≤ Int64.max_int → Int64.wrap64 z = z.
Proof.
  unfold Int64.wrap64, Int64.min_int, Int64.max_int. intros H.
  rewrite Z.mod_small; lia.
Qed.

Lemma unit_of_cases (u : ascii) (unit : Z) :
  unit_of u = Some unit →
  (u = "s"%char ∧ unit = Duration.Second)
  ∨ (u = "m"%char ∧ unit = Duration.Minute)
  ∨ (u = "h"%char ∧ unit = Duration.Hour).
Proof.
  unfold unit_of.
  destruct (Ascii.eqb_spec u "s"); [intros [= <-]; auto|].
  destruct (Ascii.eqb_spec u "m"); [intros [= <-]; auto|].
  destruct (Ascii.eqb_spec u "h"); [intros [= <-]; auto 6|].
  discriminate.
Qed.

(** [parseSchedule] on a prefix of one byte or more and a unit suffix. *)
Lemma parseSchedule_unit (pre : string) (u : ascii) (unit : Z) :
  unit_of u = Some unit → pre ≠ EmptyString →
  parseSchedule (pre ++ String u EmptyString) = Int64.mul (Sscanf_d pre) unit.
Proof.
  intros Hu Hpre. unfold parseSchedule.
  rewrite snoc_not_empty, unsnoc_snoc, length_snoc.
  assert (Hlen : (2 <=? S (String.length pre))%nat = true).
  { destruct pre; [congruence|reflexivity]. }
  rewrite Hlen. cbn [andb].
  destruct (unit_of_cases u unit Hu) as [[-> ->]|[[-> ->]|[-> ->]]]; reflexivity.
Qed.

Lemma parseSchedule_one_byte (c : ascii) :
  parseSchedule (String c EmptyString) = default_interval.
Proof.
  unfold parseSchedule. cbn [String.eqb unsnoc String.length Nat.leb andb].
  reflexivity.
Qed.

Lemma parseSchedule_no_suffix (s pre : string) (c : ascii) :
  unsnoc s = Some (pre, c) → unit_of c = None →
  parseSchedule s = default_interval.
Proof.
  intros Hs Hc. unfold parseSchedule. rewrite Hs.
  destruct (String.eqb_spec s "") as [->|_].
  - discriminate Hs.
  - unfold unit_of in Hc.
    destruct (Ascii.eqb c "s"); [discriminate|].
    destruct (Ascii.eqb c "m"); [discriminate|].
    destruct (Ascii.eqb c "h"); [discriminate|].
    now rewrite !andb_false_r.
Qed.

End schedule_facts.

Section schedule_theorems.

Import Sched SchedSpec.

Lemma unit_bounds (u : ascii) (unit : Z) :
  unit_of u = Some unit → 1 ≤ unit.
Proof.
  intros H. destruct (unit_of_cases u unit H) as [[_ ->]|[[_ ->]|[_ ->]]];
    unfold Duration.Hour, Duration.Minute, Duration.Second; lia.
Qed.

Lemma default_interval_pos : 0 < default_interval.
Proof. reflexivity. Qed.

Lemma interval_nonpositive (s : string) :
  parseSchedule s ≤ 0 → runActivity_interval s = default_interval.
Proof.
  intros H. unfold runActivity_interval.
  destruct (Z.leb_spec (parseSchedule s) 0); [reflexivity|lia].
Qed.

Lemma interval_positive (s : string) :
  0 < parseSchedule s → runActivity_interval s = parseSchedule s.
Proof.
  intros H. unfold runActivity_interval.
  destruct (Z.leb_spec (parseSchedule s) 0); [lia|reflexivity].
Qed.

(** A numeral denoting a positive number in range, then a unit: the
    parser returns exactly that many units. *)
Lemma parseSchedule_units (d : Decimal.uint) (u : ascii) (unit : Z) :
  unit_of u = Some unit → 0 < value d → value d * unit ≤ Int64.max_int →
  parseSchedule (numeral d ++ String u EmptyString) = value d * unit.
Proof.
  intros Hu Hpos Hmax. pose proof (unit_bounds u unit Hu) as Hunit.
  assert (Hd : d ≠ Decimal.Nil) by (apply value_pos_not_nil; lia).
  assert (Hne : numeral d ≠ EmptyString).
  { destruct (numeral_head d Hd) as (c & t & -> & _). discriminate. }
  rewrite (parseSchedule_unit _ u unit Hu Hne).
  rewrite Sscanf_d_numeral by (done || nia).
  unfold Int64.mul. apply wrap64_id. unfold Int64.min_int. nia.
Qed.

(** C4 (as amended). The interval of the activity loop, class by class:
    a decimal numeral denoting [n > 0] followed by s, m or h gives exactly
    [n] seconds, minutes or hours as long as the product fits a 64-bit
    duration; the empty string, a one-byte string, a string without a
    recognised suffix, a prefix with no integer at its front, and a zero or
    negative value (in range) give the default of 30 minutes. In every
    class [parseSchedule] returns the interval itself or a value that is
    zero or negative. *)
Theorem runActivity_interval_classes (s : string) (i : Z) :
  interval_of s i →
  runActivity_interval s = i ∧ (parseSchedule s = i ∨ parseSchedule s ≤ 0).
Proof.
  intros H. destruct H as
    [d u unit Hu Hpos Hmax| |s pre c Hs Hc|c|pre u unit Hu Hno
     |d u unit Hu Hz|d u unit Hu Hmin].
  - pose proof (parseSchedule_units d u unit Hu Hpos Hmax) as E.
    pose proof (unit_bounds u unit Hu).
    split; [|now left]. rewrite interval_positive; [done|]. rewrite E. nia.
  - split; [reflexivity|right; reflexivity].
  - pose proof (parseSchedule_no_suffix s pre c Hs Hc) as E.
    split; [|now left]. rewrite interval_positive; [done|]. now rewrite E.
  - pose proof (parseSchedule_one_byte c) as E.
    split; [|now left]. rewrite interval_positive; [done|]. now rewrite E.
  - destruct pre as [|a r].
    + change (EmptyString ++ String u EmptyString) with (String u EmptyString).
      pose proof (parseSchedule_one_byte u) as E.
      split; [|now left]. rewrite interval_positive; [done|]. now rewrite E.
    + assert (E : parseSchedule (String a r ++ String u EmptyString) = 0).
      { rewrite (parseSchedule_unit _ u unit Hu) by discriminate.
        now rewrite Sscanf_d_no_integer. }
      split; [apply interval_nonpositive|right]; rewrite E; lia.
  - assert (Hnil : d = Decimal.Nil ∨ d ≠ Decimal.Nil)
      by (destruct d; (now left) || (now right)).
    destruct Hnil as [->|Hd].
    + change (numeral Decimal.Nil ++ String u EmptyString)
        with (String u EmptyString).
      pose proof (parseSchedule_one_byte u) as E.
      split; [|now left]. rewrite interval_positive; [done|]. now rewrite E.
    + assert (E : parseSchedule (numeral d ++ String u EmptyString) = 0).
      { destruct (numeral_head d Hd) as (c & t & Hn & _).
        rewrite (parseSchedule_unit _ u unit Hu) by (rewrite Hn; discriminate).
        rewrite Sscanf_d_numeral by (done || rewrite Hz; done).
        now rewrite Hz. }
      split; [apply interval_nonpositive|right]; rewrite E; lia.
  - pose proof (unit_bounds u unit Hu) as Hunit.
    pose proof (value_nonneg d) as Hv.
    assert (E : parseSchedule (String "-" (numeral d) ++ String u EmptyString)
                = - (value d * unit)).
    { rewrite (parseSchedule_unit _ u unit Hu) by discriminate.
      rewrite Sscanf_d_negative by (unfold Int64.min_int in *; nia).
      unfold Int64.mul. rewrite wrap64_id;
        unfold Int64.min_int, Int64.max_int in *; nia. }
    split; [apply interval_nonpositive|right]; rewrite E; nia.
Qed.

Lemma runActivity_interval_classes_witness :
  runActivity_interval "45m" = 45 * Duration.Minute
  ∧ (parseSchedule "45m" = 45 * Duration.Minute ∨ parseSchedule "45m" ≤ 0).
Proof.
  apply (runActivity_interval_classes "45m" (45 * Duration.Minute)
           (iv_units (Decimal.D4 (Decimal.D5 Decimal.Nil)) "m" Duration.Minute
              eq_refl eq_refl
              ltac:(vm_compute; discriminate))).
Defined.

(** C4 (as stated) fails on both sides. "5xm" is not an expression of
    the grammar, and the loop runs every 5 minutes, not every 30.
    "200000000m" is an expression of the grammar, but 200000000 minutes do
    not fit a 64-bit duration: the product wraps to a negative number and the
    loop falls back to the default. *)
Lemma schedule_as_stated_counterexample :
  (is_interval_expr "5xm" = false
   ∧ spec_interval "5xm" = default_interval
   ∧ runActivity_interval "5xm" = 5 * Duration.Minute
   ∧ runActivity_interval "5xm" ≠ spec_interval "5xm")
  ∧ (is_interval_expr "200000000m" = true
     ∧ spec_interval "200000000m" = 200000000 * Duration.Minute
     ∧ parseSchedule "200000000m" < 0
     ∧ runActivity_interval "200000000m" = default_interval
     ∧ runActivity_interval "200000000m" ≠ spec_interval "200000000m").
Proof.
  split.
  - split; [reflexivity|]. split; [reflexivity|]. split; [reflexivity|].
    vm_compute. discriminate.
  - split; [reflexivity|]. split; [reflexivity|]. split; [reflexivity|].
    split; [reflexivity|]. vm_compute. discriminate.
Qed.

(** The concrete scenarios of the specification. *)
Example schedule_scenarios :
  runActivity_interval "45m" = 45 * Duration.Minute
  ∧ runActivity_interval "" = 30 * Duration.Minute
  ∧ runActivity_interval "2h" = 2 * Duration.Hour
  ∧ runActivity_interval "abc" = 30 * Duration.Minute.
Proof. repeat split; reflexivity. Qed.

End schedule_theorems.

(* ===================================================================== *)
(** * Properties of the proposal service *)
(* ===================================================================== *)

Section store_facts.

Import Store Calls.

Implicit Types (w : World) (l : loc) (p : Proposal.t) (id : string).

(** ** Running the primitives *)

Lemma run_load {A} l p (k : Proposal.t → M A) w :
  heap w !! l = Some p → bind (load l) k w = k p w.
Proof. intros H. unfold bind, load. now rewrite H. Qed.

Lemma run_update {A} l p f (k : unit → M A) w :
  heap w !! l = Some p →
  bind (update l f) k w = k tt (with_heap (<[l := f p]> (heap w)) w).
Proof. intros H. unfold bind, update. now rewrite H. Qed.

Lemma run_time_Now {A} (k : Time.t → M A) w :
  bind time_Now k w
  = k (clock w (clock_reads w)) (with_clock_reads (S (clock_reads w)) w).
Proof. reflexivity. Qed.

Lemma run_uuid {A} (k : string → M A) w :
  bind uuid_New_String k w
  = k (UUID.String_ (UUID.NewRandom (entropy w (entropy_reads w))))
      (with_entropy_reads (S (entropy_reads w)) w).
Proof. reflexivity. Qed.

Lemma run_get_svc {A} (k : ProposalService → M A) w :
  bind get_svc k w = k (svc w) w.
Proof. reflexivity. Qed.

Lemma run_put_svc {A} s (k : unit → M A) w :
  bind (put_svc s) k w = k tt (with_svc s w).
Proof. reflexivity. Qed.

Lemma run_ret {A B} (a : A) (k : A → M B) w : bind (ret a) k w = k a w.
Proof. reflexivity. Qed.

Lemma run_assoc {A B C} (m : M A) (f : A → M B) (g : B → M C) w :
  bind (bind m f) g w = bind m (fun a => bind (f a) g) w.
Proof. unfold bind. now destruct (m w). Qed.

(** ** Identifiers *)

Lemma append_nonempty (a b : string) : b ≠ EmptyString → (a ++ b)%string ≠ EmptyString.
Proof. destruct a; [done|discriminate]. Qed.

(** The text of a UUID is never empty: it holds four hyphens. *)
Lemma uuid_String_nonempty (u : list N) : UUID.String_ u ≠ EmptyString.
Proof. unfold UUID.String_. apply append_nonempty. discriminate. Qed.

(** ** Accept and Ignore *)

Lemma Accept_not_found w id params :
  proposals (svc w) !! id = None →
  Accept id params w = Ret (Some ("proposal not found: " ++ id)%string) w.
Proof. intros H. unfold Accept. now rewrite run_get_svc, H. Qed.

Lemma Ignore_not_found w id params :
  proposals (svc w) !! id = None →
  Ignore id params w = Ret (Some ("proposal not found: " ++ id)%string) w.
Proof. intros H. unfold Ignore. now rewrite run_get_svc, H. Qed.

Lemma Accept_processed w id params l p :
  proposals (svc w) !! id = Some l → heap w !! l = Some p →
  Proposal.Status p ≠ ProposalStatusPending →
  Accept id params w
  = Ret (Some ("proposal already processed: " ++ Proposal.Status p)%string) w.
Proof.
  intros Hs Hh Hp. unfold Accept. rewrite run_get_svc, Hs.
  rewrite (run_load l p) by done.
  apply String.eqb_neq in Hp. now rewrite Hp.
Qed.

Lemma Ignore_processed w id params l p :
  proposals (svc w) !! id = Some l → heap w !! l = Some p →
  Proposal.Status p ≠ ProposalStatusPending →
  Ignore id params w
  = Ret (Some ("proposal already processed: " ++ Proposal.Status p)%string) w.
Proof.
  intros Hs Hh Hp. unfold Ignore. rewrite run_get_svc, Hs.
  rewrite (run_load l p) by done.
  apply String.eqb_neq in Hp. now rewrite Hp.
Qed.

Lemma Accept_pending w id params l p :
  proposals (svc w) !! id = Some l → heap w !! l = Some p →
  Proposal.Status p = ProposalStatusPending →
  Accept id params w = Ret None (after_decision ProposalStatusAccepted l p w).
Proof.
  intros Hs Hh Hp. unfold Accept. rewrite run_get_svc, Hs.
  rewrite (run_load l p) by done. rewrite Hp.
  change (negb (ProposalStatusPending =? ProposalStatusPending)%string) with false.
  cbv iota. rewrite (run_update l p) by done. rewrite run_time_Now.
  erewrite run_update by (cbn; apply lookup_insert_eq).
  unfold ret, after_decision, with_clock_reads, with_heap; cbn. do 2 f_equal.
  apply insert_insert_eq.
Qed.

Lemma Ignore_pending w id params l p :
  proposals (svc w) !! id = Some l → heap w !! l = Some p →
  Proposal.Status p = ProposalStatusPending →
  Ignore id params w = Ret None (after_decision ProposalStatusIgnored l p w).
Proof.
  intros Hs Hh Hp. unfold Ignore. rewrite run_get_svc, Hs.
  rewrite (run_load l p) by done. rewrite Hp.
  change (negb (ProposalStatusPending =? ProposalStatusPending)%string) with false.
  cbv iota. rewrite (run_update l p) by done. rewrite run_time_Now.
  erewrite run_update by (cbn; apply lookup_insert_eq).
  unfold ret, after_decision, with_clock_reads, with_heap; cbn. do 2 f_equal.
  apply insert_insert_eq.
Qed.

Lemma after_decision_store status l p w :
  svc (after_decision status l p w) = svc w.
Proof. reflexivity. Qed.

Lemma after_decision_heap status l p w :
  heap (after_decision status l p w) !! l
  = Some (decided status (clock w (clock_reads w)) p).
Proof. cbn. apply lookup_insert_eq. Qed.

Lemma after_decision_status status l p w id :
  proposals (svc w) !! id = Some l →
  status_at (after_decision status l p w) id = Some status.
Proof.
  intros Hs. unfold status_at. rewrite after_decision_store, Hs.
  now rewrite after_decision_heap.
Qed.

(** Once decided, a proposal takes no further decision. *)
Lemma decided_is_final status l p w id (params : gmap string string) :
  proposals (svc w) !! id = Some l →
  status ≠ ProposalStatusPending →
  Accept id params (after_decision status l p w)
  = Ret (Some ("proposal already processed: " ++ status)%string)
        (after_decision status l p w)
  ∧ Ignore id params (after_decision status l p w)
    = Ret (Some ("proposal already processed: " ++ status)%string)
          (after_decision status l p w).
Proof.
  intros Hs Hne.
  pose proof (after_decision_heap status l p w) as Hh.
  split.
  - now rewrite (Accept_processed (after_decision status l p w) id params l _ Hs Hh).
  - now rewrite (Ignore_processed (after_decision status l p w) id params l _ Hs Hh).
Qed.

End store_facts.

Section decision_theorems.

Import Store Calls.

Implicit Types (w : World) (l : loc) (p : Proposal.t) (id : string).

(** C1. [Accept] takes a stored pending proposal to accepted and
    [Ignore] takes it to ignored; on an identifier that is not in the
    store both return the error "proposal not found" and leave the state
    as it was; on a proposal that is not pending both return "proposal
    already processed" and change nothing; so after [Accept] a later
    [Ignore] on the same identifier fails and the status stays accepted,
    and the other way round. *)
Theorem accept_ignore_transitions w id (params : gmap string string) :
  (proposals (svc w) !! id = None →
     Accept id params w = Ret (Some ("proposal not found: " ++ id)%string) w
     ∧ Ignore id params w = Ret (Some ("proposal not found: " ++ id)%string) w
     ∧ ∀ w', state_of (Accept id params w) = Some w' → GetAll w' = GetAll w)
  ∧ (∀ l p, proposals (svc w) !! id = Some l → heap w !! l = Some p →
       (Proposal.Status p ≠ ProposalStatusPending →
          Accept id params w
          = Ret (Some ("proposal already processed: " ++ Proposal.Status p)%string) w
          ∧ Ignore id params w
            = Ret (Some ("proposal already processed: " ++ Proposal.Status p)%string) w)
       ∧ (Proposal.Status p = ProposalStatusPending →
          ∃ wa wi,
            Accept id params w = Ret None wa
            ∧ status_at wa id = Some ProposalStatusAccepted
            ∧ Ignore id params w = Ret None wi
            ∧ status_at wi id = Some ProposalStatusIgnored
            ∧ (∀ params' : gmap string string,
                 Ignore id params' wa
                 = Ret (Some "proposal already processed: accepted") wa
                 ∧ Accept id params' wa
                   = Ret (Some "proposal already processed: accepted") wa)
            ∧ (∀ params' : gmap string string,
                 Accept id params' wi
                 = Ret (Some "proposal already processed: ignored") wi
                 ∧ Ignore id params' wi
                   = Ret (Some "proposal already processed: ignored") wi))).
Proof.
  split.
  - intros Hnone. rewrite Accept_not_found, Ignore_not_found by done.
    repeat split. now intros w' [= <-].
  - intros l p Hs Hh. split.
    + intros Hp. now rewrite (Accept_processed w id params l p),
        (Ignore_processed w id params l p).
    + intros Hp.
      exists (after_decision ProposalStatusAccepted l p w),
             (after_decision ProposalStatusIgnored l p w).
      split; [now apply Accept_pending|].
      split; [now apply after_decision_status|].
      split; [now apply Ignore_pending|].
      split; [now apply after_decision_status|].
      split; intros params'.
      * destruct (decided_is_final ProposalStatusAccepted l p w id params' Hs)
          as [Ha Hi]; [discriminate|]. now split.
      * destruct (decided_is_final ProposalStatusIgnored l p w id params' Hs)
          as [Ha Hi]; [discriminate|]. now split.
Qed.

Lemma accept_ignore_transitions_witness :
  ∃ wa,
    Accept "p1" ∅ demo_world = Ret None wa
    ∧ status_at wa "p1" = Some ProposalStatusAccepted
    ∧ Ignore "p1" ∅ wa = Ret (Some "proposal already processed: accepted") wa
    ∧ Accept "nope" ∅ demo_world = Ret (Some "proposal not found: nope") demo_world.
Proof.
  destruct (accept_ignore_transitions demo_world "p1" ∅) as [_ H].
  edestruct (H 0%nat) as [_ Hpending];
    [vm_compute; reflexivity|vm_compute; reflexivity|].
  destruct (Hpending eq_refl) as (wa & wi & Ha & Hsa & _ & _ & Hai & _).
  exists wa. split; [exact Ha|]. split; [exact Hsa|].
  split; [exact (proj1 (Hai ∅))|].
  destruct (accept_ignore_transitions demo_world "nope" ∅) as [Hnf _].
  exact (proj1 (Hnf ltac:(vm_compute; reflexivity))).
Defined.

(** C9. A successful [Accept] or [Ignore] writes the [Status] and the
    [UpdatedAt] field of the stored proposal and nothing else: every other
    field, every other struct and the service are as before, and the
    [params] argument has no influence on the call. *)
Theorem accept_ignore_frame w id (params : gmap string string) l p w' :
  proposals (svc w) !! id = Some l → heap w !! l = Some p →
  Accept id params w = Ret None w' ∨ Ignore id params w = Ret None w' →
  (∃ p', heap w' = <[l := p']> (heap w)
         ∧ p' = Proposal.with_UpdatedAt (Proposal.UpdatedAt p')
                  (Proposal.with_Status (Proposal.Status p') p)
         ∧ Proposal.ID p' = Proposal.ID p
         ∧ Proposal.Type_ p' = Proposal.Type_ p
         ∧ Proposal.Title p' = Proposal.Title p
         ∧ Proposal.Summary p' = Proposal.Summary p
         ∧ Proposal.Details p' = Proposal.Details p
         ∧ Proposal.Actions p' = Proposal.Actions p
         ∧ Proposal.Parameters p' = Proposal.Parameters p
         ∧ Proposal.CreatedAt p' = Proposal.CreatedAt p)
  ∧ svc w' = svc w
  ∧ (∀ params' : gmap string string,
       Accept id params' w = Accept id params w
       ∧ Ignore id params' w = Ignore id params w).
Proof.
  intros Hs Hh Hok.
  assert (Hp : Proposal.Status p = ProposalStatusPending).
  { destruct (String.eqb_spec (Proposal.Status p) ProposalStatusPending) as [|Hne];
      [done|].
    destruct Hok as [Hok|Hok];
      [rewrite (Accept_processed w id params l p) in Hok by done
      |rewrite (Ignore_processed w id params l p) in Hok by done];
      discriminate. }
  split; [|split].
  - destruct Hok as [Hok|Hok];
      [rewrite (Accept_pending w id params l p) in Hok by done
      |rewrite (Ignore_pending w id params l p) in Hok by done];
      injection Hok as <-;
      eexists; (split; [reflexivity|]); repeat split.
  - destruct Hok as [Hok|Hok];
      [rewrite (Accept_pending w id params l p) in Hok by done
      |rewrite (Ignore_pending w id params l p) in Hok by done];
      now injection Hok as <-.
  - intros params'.
    now rewrite !(Accept_pending w id _ l p), !(Ignore_pending w id _ l p).
Qed.

Lemma accept_ignore_frame_witness :
  ∃ w', Accept "p1" (<["note" := "changed"]> ∅) demo_world = Ret None w'
        ∧ svc w' = svc demo_world
        ∧ ∃ p', heap w' !! 0%nat = Some p'
                ∧ Proposal.Parameters p' = Proposal.Parameters demo_proposal
                ∧ Proposal.ID p' = "p1".
Proof.
  eexists. split; [vm_compute; reflexivity|].
  edestruct (accept_ignore_frame demo_world "p1" (<["note" := "changed"]> ∅) 0%nat)
    as [(p' & Hheap & _ & Hid & _ & _ & _ & _ & _ & Hparams & _) [Hsvc _]];
    [vm_compute; reflexivity|vm_compute; reflexivity
    |left; vm_compute; reflexivity|].
  split; [exact Hsvc|].
  exists p'. split; [rewrite Hheap; apply lookup_insert_eq|].
  split; [exact Hparams|exact Hid].
Defined.

End decision_theorems.

Section create_facts.

Import Store Calls.

Implicit Types (w : World) (l : loc) (p : Proposal.t) (id : string).

Ltac world_fields :=
  unfold ret, with_svc, with_heap, with_clock_reads, with_entropy_reads;
  cbn [heap svc clock clock_reads entropy entropy_reads proposals channel];
  rewrite ?insert_insert_eq.

Ltac unfold_created Eid Ez :=
  unfold after_create; unfold created, with_creation_time, with_fresh_id,
    clock_reads_of_create;
  rewrite ?Eid; cbn [Proposal.with_ID Proposal.CreatedAt Proposal.ID
                     Proposal.with_CreatedAt Proposal.with_UpdatedAt];
  rewrite ?Ez; cbn [Proposal.with_ID Proposal.CreatedAt Proposal.ID
                     Proposal.with_CreatedAt Proposal.with_UpdatedAt].

(** [Create] on a valid pointer, in closed form. *)
Lemma Create_run w l p :
  heap w !! l = Some p →
  Create l w = Ret (Proposal.ID (created w p)) (after_create l p w).
Proof.
  intros Hh. unfold Create. rewrite (run_load l p) by done.
  destruct (String.eqb (Proposal.ID p) "") eqn:Eid;
    destruct (Time.IsZero (Proposal.CreatedAt p)) eqn:Ez.
  - rewrite run_assoc, run_uuid. erewrite run_update by exact Hh.
    erewrite run_load by (cbn; apply lookup_insert_eq).
    cbn [Proposal.with_ID Proposal.CreatedAt]. rewrite Ez.
    rewrite run_assoc, run_time_Now.
    erewrite run_update by (cbn; apply lookup_insert_eq).
    rewrite run_time_Now.
    erewrite run_update by (cbn; apply lookup_insert_eq).
    erewrite run_load by (cbn; apply lookup_insert_eq).
    rewrite run_get_svc, run_put_svc, run_get_svc, run_put_svc.
    erewrite run_load by (cbn; apply lookup_insert_eq).
    world_fields. unfold_created Eid Ez.
    replace (clock_reads w + 2 - 1)%nat with (S (clock_reads w)) by lia.
    replace (clock_reads w + 2)%nat with (S (S (clock_reads w))) by lia.
    reflexivity.
  - rewrite run_assoc, run_uuid. erewrite run_update by exact Hh.
    erewrite run_load by (cbn; apply lookup_insert_eq).
    cbn [Proposal.with_ID Proposal.CreatedAt]. rewrite Ez.
    rewrite run_ret, run_time_Now.
    erewrite run_update by (cbn; apply lookup_insert_eq).
    erewrite run_load by (cbn; apply lookup_insert_eq).
    rewrite run_get_svc, run_put_svc, run_get_svc, run_put_svc.
    erewrite run_load by (cbn; apply lookup_insert_eq).
    world_fields. unfold_created Eid Ez.
    replace (clock_reads w + 1 - 1)%nat with (clock_reads w) by lia.
    replace (clock_reads w + 1)%nat with (S (clock_reads w)) by lia.
    reflexivity.
  - rewrite run_ret. rewrite (run_load l p) by done. rewrite Ez.
    rewrite run_assoc, run_time_Now.
    erewrite run_update by exact Hh.
    rewrite run_time_Now.
    erewrite run_update by (cbn; apply lookup_insert_eq).
    erewrite run_load by (cbn; apply lookup_insert_eq).
    rewrite run_get_svc, run_put_svc, run_get_svc, run_put_svc.
    erewrite run_load by (cbn; apply lookup_insert_eq).
    world_fields. unfold_created Eid Ez.
    replace (clock_reads w + 2 - 1)%nat with (S (clock_reads w)) by lia.
    replace (clock_reads w + 2)%nat with (S (S (clock_reads w))) by lia.
    reflexivity.
  - rewrite run_ret. rewrite (run_load l p) by done. rewrite Ez.
    rewrite run_ret, run_time_Now.
    erewrite run_update by exact Hh.
    erewrite run_load by (cbn; apply lookup_insert_eq).
    rewrite run_get_svc, run_put_svc, run_get_svc, run_put_svc.
    erewrite run_load by (cbn; apply lookup_insert_eq).
    world_fields. unfold_created Eid Ez.
    replace (clock_reads w + 1 - 1)%nat with (clock_reads w) by lia.
    replace (clock_reads w + 1)%nat with (S (clock_reads w)) by lia.
    reflexivity.
Qed.

Lemma Create_panics w l : heap w !! l = None → Create l w = Panic.
Proof. intros H. unfold Create, bind, load. now rewrite H. Qed.

(** The fields of the struct after [Create]. *)
Lemma created_ID w p :
  Proposal.ID (created w p)
  = if String.eqb (Proposal.ID p) ""
    then UUID.String_ (UUID.NewRandom (entropy w (entropy_reads w)))
    else Proposal.ID p.
Proof.
  unfold created, with_creation_time, with_fresh_id.
  destruct (String.eqb (Proposal.ID p) "");
    destruct (Time.IsZero _); reflexivity.
Qed.

Lemma created_ID_nonempty w p : Proposal.ID (created w p) ≠ EmptyString.
Proof.
  rewrite created_ID. destruct (String.eqb_spec (Proposal.ID p) "");
    [apply uuid_String_nonempty|done].
Qed.

Lemma created_ID_kept w p :
  Proposal.ID p ≠ EmptyString → Proposal.ID (created w p) = Proposal.ID p.
Proof.
  intros H. rewrite created_ID.
  now destruct (String.eqb_spec (Proposal.ID p) "").
Qed.

Lemma created_CreatedAt w p :
  Proposal.CreatedAt (created w p)
  = if Time.IsZero (Proposal.CreatedAt p) then clock w (clock_reads w)
    else Proposal.CreatedAt p.
Proof.
  unfold created, with_creation_time, with_fresh_id.
  destruct (String.eqb (Proposal.ID p) ""); cbn [Proposal.with_ID Proposal.CreatedAt];
    destruct (Time.IsZero _); reflexivity.
Qed.

Lemma created_rest w p :
  Proposal.Type_ (created w p) = Proposal.Type_ p
  ∧ Proposal.Title (created w p) = Proposal.Title p
  ∧ Proposal.Summary (created w p) = Proposal.Summary p
  ∧ Proposal.Details (created w p) = Proposal.Details p
  ∧ Proposal.Actions (created w p) = Proposal.Actions p
  ∧ Proposal.Parameters (created w p) = Proposal.Parameters p
  ∧ Proposal.Status (created w p) = Proposal.Status p.
Proof.
  unfold created, with_creation_time, with_fresh_id.
  destruct (String.eqb (Proposal.ID p) ""); cbn [Proposal.with_ID Proposal.CreatedAt];
    destruct (Time.IsZero _); repeat split.
Qed.

(** The struct after [Create] is the old one with at most the three
    fields [ID], [CreatedAt] and [UpdatedAt] written. *)
Lemma created_shape w p :
  created w p
  = Proposal.with_UpdatedAt (Proposal.UpdatedAt (created w p))
      (Proposal.with_CreatedAt (Proposal.CreatedAt (created w p))
         (Proposal.with_ID (Proposal.ID (created w p)) p)).
Proof.
  unfold created, with_creation_time, with_fresh_id.
  destruct (String.eqb (Proposal.ID p) ""); cbn [Proposal.with_ID Proposal.CreatedAt];
    destruct (Time.IsZero _); destruct p; reflexivity.
Qed.

End create_facts.

Section create_theorems.

Import Store Calls.

Implicit Types (w : World) (l : loc) (p : Proposal.t) (id : string).

Lemma after_create_heap l p w :
  heap (after_create l p w) !! l = Some (created w p).
Proof. cbn. apply lookup_insert_eq. Qed.

Lemma after_create_stored l p w :
  proposals (svc (after_create l p w)) !! Proposal.ID (created w p) = Some l.
Proof. cbn. apply lookup_insert_eq. Qed.

(** C10. [Create] writes the [ID] field (only when the incoming
    identifier is empty), the [CreatedAt] field (only when the incoming
    time is zero) and the [UpdatedAt] field of the struct it stores, and
    no other field; the [Status] is the one the caller passed, so an
    empty status is stored as it is and is not pending. *)
Theorem Create_writes_three_fields w l p :
  heap w !! l = Some p →
  ∃ id w' p',
    Create l w = Ret id w'
    ∧ proposals (svc w') !! id = Some l
    ∧ heap w' = <[l := p']> (heap w)
    ∧ p' = Proposal.with_UpdatedAt (Proposal.UpdatedAt p')
             (Proposal.with_CreatedAt (Proposal.CreatedAt p')
                (Proposal.with_ID (Proposal.ID p') p))
    ∧ (Proposal.ID p ≠ EmptyString → Proposal.ID p' = Proposal.ID p)
    ∧ (Time.IsZero (Proposal.CreatedAt p) = false →
       Proposal.CreatedAt p' = Proposal.CreatedAt p)
    ∧ Proposal.Status p' = Proposal.Status p
    ∧ (Proposal.Status p = EmptyString →
       Proposal.Status p' = EmptyString
       ∧ Proposal.Status p' ≠ ProposalStatusPending).
Proof.
  intros Hh. exists (Proposal.ID (created w p)), (after_create l p w), (created w p).
  split; [now apply Create_run|].
  split; [apply after_create_stored|].
  split; [reflexivity|].
  split; [apply created_shape|].
  split; [apply created_ID_kept|].
  split; [intros Hz; now rewrite created_CreatedAt, Hz|].
  destruct (created_rest w p) as (_ & _ & _ & _ & _ & _ & Hst).
  split; [exact Hst|].
  intros He. rewrite Hst, He. split; [reflexivity|discriminate].
Qed.

Lemma Create_writes_three_fields_witness :
  ∃ id w' p',
    Create 0%nat zero_world = Ret id w'
    ∧ heap w' !! 0%nat = Some p'
    ∧ Proposal.Status p' = EmptyString
    ∧ Proposal.Status p' ≠ ProposalStatusPending.
Proof.
  destruct (Create_writes_three_fields zero_world 0%nat zero_proposal
              ltac:(vm_compute; reflexivity))
    as (id & w' & p' & Hrun & _ & Hheap & _ & _ & _ & _ & Hst).
  exists id, w', p'. split; [exact Hrun|].
  split; [rewrite Hheap; apply lookup_insert_eq|].
  exact (Hst eq_refl).
Defined.

(** [NewProposal], in closed form. *)
Lemma NewProposal_run w (proposalType title summary : string)
    (details : gmap string any) :
  let l := fresh (dom (heap w)) in
  let v := Proposal.Build "" proposalType title summary details [] ∅
             ProposalStatusPending (clock w (clock_reads w))
             (clock w (S (clock_reads w))) in
  NewProposal proposalType title summary details w
  = Ret l (with_heap (<[l := v]> (heap w))
             (with_clock_reads (S (S (clock_reads w))) w)).
Proof. reflexivity. Qed.

(** C6. A proposal built by [NewProposal] and handed to [Create] is
    stored under the identifier that [Create] returns; the stored struct
    carries that identifier, which is a fresh UUID (the incoming one is
    empty) and is not empty, and its status is pending. For any struct
    handed to [Create] the stored identifier is the returned one and is not
    empty, and a pending status stays pending. *)
Theorem new_proposal_created w (proposalType title summary : string)
    (details : gmap string any) :
  (∃ l w1 id w2 p,
     NewProposal proposalType title summary details w = Ret l w1
     ∧ Create l w1 = Ret id w2
     ∧ proposals (svc w2) !! id = Some l
     ∧ heap w2 !! l = Some p
     ∧ Proposal.ID p = id
     ∧ id ≠ EmptyString
     ∧ id = UUID.String_ (UUID.NewRandom (entropy w (entropy_reads w)))
     ∧ Proposal.Status p = ProposalStatusPending)
  ∧ (∀ l p, heap w !! l = Some p →
       ∃ id w' p',
         Create l w = Ret id w'
         ∧ proposals (svc w') !! id = Some l
         ∧ heap w' !! l = Some p'
         ∧ Proposal.ID p' = id
         ∧ id ≠ EmptyString
         ∧ (Proposal.ID p = EmptyString →
            id = UUID.String_ (UUID.NewRandom (entropy w (entropy_reads w))))
         ∧ (Proposal.Status p = ProposalStatusPending →
            Proposal.Status p' = ProposalStatusPending)).
Proof.
  split.
  - pose proof (NewProposal_run w proposalType title summary details) as Hnew.
    cbv zeta in Hnew.
    set (l := fresh (dom (heap w))) in *.
    set (v := Proposal.Build "" proposalType title summary details [] ∅
                ProposalStatusPending (clock w (clock_reads w))
                (clock w (S (clock_reads w)))) in *.
    set (w1 := with_heap (<[l := v]> (heap w))
                 (with_clock_reads (S (S (clock_reads w))) w)) in *.
    assert (Hl : heap w1 !! l = Some v) by (cbn; apply lookup_insert_eq).
    exists l, w1, (Proposal.ID (created w1 v)), (after_create l v w1), (created w1 v).
    split; [exact Hnew|].
    split; [now apply Create_run|].
    split; [apply after_create_stored|].
    split; [apply after_create_heap|].
    split; [reflexivity|].
    split; [apply created_ID_nonempty|].
    split; [now rewrite created_ID|].
    now destruct (created_rest w1 v) as (_ & _ & _ & _ & _ & _ & ->).
  - intros l p Hh.
    exists (Proposal.ID (created w p)), (after_create l p w), (created w p).
    split; [now apply Create_run|].
    split; [apply after_create_stored|].
    split; [apply after_create_heap|].
    split; [reflexivity|].
    split; [apply created_ID_nonempty|].
    split; [intros He; now rewrite created_ID, He|].
    now destruct (created_rest w p) as (_ & _ & _ & _ & _ & _ & ->).
Qed.

Lemma new_proposal_created_witness :
  ∃ id w' p',
    Create 0%nat zero_world = Ret id w'
    ∧ heap w' !! 0%nat = Some p'
    ∧ Proposal.ID p' = id
    ∧ id = "00000000-0000-4000-8000-000000000000".
Proof.
  destruct (new_proposal_created zero_world "" "" "" ∅) as [_ H].
  destruct (H 0%nat zero_proposal ltac:(vm_compute; reflexivity))
    as (id & w' & p' & Hrun & _ & Hheap & Hid & _ & Hfresh & _).
  exists id, w', p'. split; [exact Hrun|]. split; [exact Hheap|].
  split; [exact Hid|].
  rewrite (Hfresh eq_refl). vm_compute. reflexivity.
Defined.

End create_theorems.

Section resubmit_theorems.

Import Store Calls.

Implicit Types (w : World) (l : loc) (p : Proposal.t) (id : string).

(** The loop of [Resubmit] over a list of pairs with distinct keys. *)
Lemma merge_params_lookup (kvs : list (string * string))
    (parameters : gmap string Param.t) (k : string) :
  NoDup kvs.*1 →
  merge_params kvs parameters !! k
  = merged (list_to_map kvs) k <$> parameters !! k.
Proof.
  revert parameters. induction kvs as [|[k0 v0] r IH]; intros parameters Hnd.
  - cbn. unfold merged. rewrite lookup_empty. now destruct (parameters !! k).
  - cbn [fmap list_fmap fst] in Hnd. apply NoDup_cons in Hnd as [Hk0 Hnd].
    change (merge_params ((k0, v0) :: r) parameters)
      with (merge_params r (merge_param parameters (k0, v0))).
    rewrite IH by done. unfold merged, merge_param. cbn [fst snd list_to_map foldr].
    change (foldr (λ '(k, v), <[k:=v]>) ∅ r) with (list_to_map r : gmap string string).
    assert (Hr : (list_to_map r : gmap string string) !! k0 = None)
      by now apply not_elem_of_list_to_map_1.
    destruct (decide (k = k0)) as [->|Hne].
    + rewrite Hr, lookup_insert_eq.
      destruct (parameters !! k0) as [par0|] eqn:E.
      * now rewrite lookup_insert_eq.
      * now rewrite E.
    + rewrite (lookup_insert_ne _ k0 k) by done.
      destruct (parameters !! k0) as [par0|] eqn:E; [|reflexivity].
      now rewrite lookup_insert_ne by done.
Qed.

(** The loop over the map itself. *)
Lemma merge_params_map (params : gmap string string)
    (parameters : gmap string Param.t) (k : string) :
  merge_params (map_to_list params) parameters !! k
  = merged params k <$> parameters !! k.
Proof.
  rewrite merge_params_lookup by apply NoDup_fst_map_to_list.
  now rewrite list_to_map_to_list.
Qed.

(** The order in which Go ranges over [params] does not matter. *)
Lemma merge_params_order (params : gmap string string)
    (order : list (string * string)) (parameters : gmap string Param.t) :
  order ≡ₚ map_to_list params →
  merge_params order parameters = merge_params (map_to_list params) parameters.
Proof.
  intros Hperm. apply map_eq. intros k.
  assert (Hnd : NoDup order.*1).
  { rewrite Hperm. apply NoDup_fst_map_to_list. }
  rewrite merge_params_lookup, merge_params_map by done.
  rewrite (list_to_map_proper order (map_to_list params)) by done.
  now rewrite list_to_map_to_list.
Qed.

Lemma merge_params_dom (params : gmap string string)
    (parameters : gmap string Param.t) :
  dom (merge_params (map_to_list params) parameters) = dom parameters.
Proof.
  apply set_eq. intros k. rewrite !elem_of_dom, merge_params_map.
  now rewrite fmap_is_Some.
Qed.

Lemma Resubmit_not_found w id (params : gmap string string) :
  proposals (svc w) !! id = None →
  Resubmit id params w
  = Ret (None, Some ("proposal not found: " ++ id)%string) w.
Proof. intros H. unfold Resubmit. now rewrite run_get_svc, H. Qed.

Lemma Resubmit_run w id (params : gmap string string) l p :
  proposals (svc w) !! id = Some l → heap w !! l = Some p →
  Resubmit id params w = Ret (Some l, None) (after_resubmit params l p w).
Proof.
  intros Hs Hh. unfold Resubmit. rewrite run_get_svc, Hs.
  rewrite (run_load l p) by done.
  rewrite (run_update l p) by done.
  erewrite run_update by (cbn; apply lookup_insert_eq).
  rewrite run_time_Now.
  erewrite run_update by (cbn; apply lookup_insert_eq).
  unfold ret, after_resubmit, resubmitted, with_clock_reads, with_heap; cbn.
  do 2 f_equal. now rewrite !insert_insert_eq.
Qed.

(** C2. On a stored proposal [Resubmit] succeeds whatever the status
    is (accepted and ignored included), sets the status to modified and
    merges the values of [params] into the parameters that exist: a
    parameter named by [params] takes the new value, every other one is
    kept, and the set of parameter names does not change. [Resubmit] fails
    only for an identifier that is not in the store, with "proposal not
    found", and then changes nothing. *)
Theorem Resubmit_merges w id (params : gmap string string) :
  (∀ l p, proposals (svc w) !! id = Some l → heap w !! l = Some p →
     ∃ w' p',
       Resubmit id params w = Ret (Some l, None) w'
       ∧ heap w' !! l = Some p'
       ∧ status_at w' id = Some ProposalStatusModified
       ∧ Proposal.Status p' = ProposalStatusModified
       ∧ dom (Proposal.Parameters p') = dom (Proposal.Parameters p)
       ∧ (∀ k, Proposal.Parameters p' !! k
               = merged params k <$> Proposal.Parameters p !! k)
       ∧ Proposal.ID p' = Proposal.ID p)
  ∧ (proposals (svc w) !! id = None →
     Resubmit id params w
     = Ret (None, Some ("proposal not found: " ++ id)%string) w)
  ∧ (∀ r w', Resubmit id params w = Ret r w' →
       r.2 = None ∨ (r.2 = Some ("proposal not found: " ++ id)%string
                     ∧ proposals (svc w) !! id = None)).
Proof.
  split; [|split].
  - intros l p Hs Hh.
    exists (after_resubmit params l p w),
           (resubmitted params (clock w (clock_reads w)) p).
    split; [now apply Resubmit_run|].
    assert (Hl : heap (after_resubmit params l p w) !! l
                 = Some (resubmitted params (clock w (clock_reads w)) p))
      by (cbn; apply lookup_insert_eq).
    split; [exact Hl|].
    split.
    { unfold status_at. change (svc (after_resubmit params l p w)) with (svc w).
      now rewrite Hs, Hl. }
    split; [reflexivity|].
    split; [apply merge_params_dom|].
    split; [intros k; apply merge_params_map|reflexivity].
  - apply Resubmit_not_found.
  - intros r w' Hrun.
    destruct (proposals (svc w) !! id) as [l|] eqn:Hs.
    + destruct (heap w !! l) as [p|] eqn:Hh.
      * rewrite (Resubmit_run w id params l p Hs Hh) in Hrun.
        injection Hrun as <- _. now left.
      * unfold Resubmit in Hrun. rewrite run_get_svc, Hs in Hrun.
        unfold bind, load in Hrun. rewrite Hh in Hrun. discriminate.
    + rewrite Resubmit_not_found in Hrun by done.
      injection Hrun as <- _. now right.
Qed.

Lemma Resubmit_merges_witness :
  ∃ wa w' p',
    Accept "p1" ∅ demo_world = Ret None wa
    ∧ Resubmit "p1" (<["note" := "checked"]> (<["other" := "x"]> ∅)) wa
      = Ret (Some 0%nat, None) w'
    ∧ heap w' !! 0%nat = Some p'
    ∧ Proposal.Status p' = ProposalStatusModified
    ∧ dom (Proposal.Parameters p') = {["note"]}
    ∧ Param.Value <$> Proposal.Parameters p' !! "note" = Some "checked".
Proof.
  eexists. 
  destruct (Resubmit_merges
              (after_decision ProposalStatusAccepted 0%nat
                 (Proposal.with_UpdatedAt 1001
                    (Proposal.with_CreatedAt 1000 demo_proposal)) demo_world)
              "p1" (<["note" := "checked"]> (<["other" := "x"]> ∅))) as [H _].
  edestruct (H 0%nat) as (w' & p' & Hrun & Hheap & _ & Hst & Hdom & Hmerge & _);
    [vm_compute; reflexivity|vm_compute; reflexivity|].
  exists w', p'.
  split; [vm_compute; reflexivity|].
  split; [exact Hrun|]. split; [exact Hheap|]. split; [exact Hst|].
  split; [rewrite Hdom; vm_compute; reflexivity|].
  rewrite Hmerge. vm_compute. reflexivity.
Defined.

End resubmit_theorems.

Section channel_theorems.

Import Store Calls.
Local Open Scope list_scope.

Implicit Types (w : World) (l : loc) (p : Proposal.t) (id : string).

(** Sends without a receiver fill the buffer up to the capacity and
    drop the rest. *)
Lemma send_all_buf (c : chan) (ls : list loc) :
  buf (send_all c ls) = buf c ++ take (capacity c - List.length (buf c)) ls
  ∧ capacity (send_all c ls) = capacity c.
Proof.
  revert c. induction ls as [|l r IH]; intros c.
  - cbn. rewrite take_nil. now rewrite app_nil_r.
  - change (send_all c (l :: r)) with (send_all (try_send c l).1 r).
    destruct (IH (try_send c l).1) as [Hb Hc]. rewrite Hb, Hc.
    unfold try_send.
    destruct (Nat.ltb_spec (List.length (buf c)) (capacity c)) as [Hlt|Hge]; cbn [fst buf capacity].
    + rewrite length_app. cbn [List.length].
      replace (capacity c - List.length (buf c))%nat
        with (S (capacity c - (List.length (buf c) + 1)))%nat by lia.
      cbn [take]. now rewrite <- app_assoc.
    + replace (capacity c - List.length (buf c))%nat with 0%nat by lia.
      now rewrite !take_0.
Qed.

(** A consumer gets the queued notifications, in order, and no more. *)
Lemma recv_all_buf (fuel : nat) (c : chan) :
  (List.length (buf c) ≤ fuel)%nat → recv_all fuel c = buf c.
Proof.
  revert c. induction fuel as [|f IH]; intros [b cap] Hlen; cbn in *.
  - destruct b; [done|cbn in Hlen; lia].
  - destruct b as [|x r]; [done|]. cbn in *. rewrite IH; [done|cbn; lia].
Qed.

Lemma store_all_snoc (m : gmap string loc) (es : list (string * loc))
    (e : string * loc) :
  store_all m (es ++ [e]) = <[e.1 := e.2]> (store_all m es).
Proof. unfold store_all. now rewrite foldl_app. Qed.

Lemma store_all_dom (es : list (string * loc)) (k : string) :
  k ∉ es.*1 → store_all ∅ es !! k = None.
Proof.
  induction es as [|e es IH] using rev_ind; intros Hk; [apply lookup_empty|].
  rewrite store_all_snoc. rewrite fmap_app in Hk.
  apply not_elem_of_app in Hk as [Hk1 Hk2].
  rewrite lookup_insert_ne; [now apply IH|].
  intros Heq. apply Hk2. subst k. cbn. left.
Qed.

(** With distinct keys every assignment adds an entry. *)
Lemma store_all_to_list (es : list (string * loc)) :
  NoDup es.*1 → map_to_list (store_all ∅ es) ≡ₚ es.
Proof.
  induction es as [|e es IH] using rev_ind; intros Hnd.
  - cbn. now rewrite map_to_list_empty.
  - rewrite store_all_snoc. rewrite fmap_app in Hnd.
    apply NoDup_app in Hnd as (Hnd & Hdisj & _).
    rewrite map_to_list_insert.
    + rewrite IH by done. destruct e as [k v]. cbn [fst snd].
      apply Permutation_cons_append.
    + apply store_all_dom. intros Hin. apply (Hdisj _ Hin). cbn. left.
Qed.

(** [Create] on each valid pointer in turn: every call returns, the
    channel takes one non-blocking send per call and the map one
    assignment per call. *)
Lemma create_all_run (ls : list loc) w :
  Forall (fun l => is_Some (heap w !! l)) ls →
  ∃ ids w',
    create_all ls w = Ret ids w'
    ∧ List.length ids = List.length ls
    ∧ dom (heap w') = dom (heap w)
    ∧ channel (svc w') = send_all (channel (svc w)) ls
    ∧ proposals (svc w') = store_all (proposals (svc w)) (zip ids ls).
Proof.
  revert w. induction ls as [|l r IH]; intros w Hvalid.
  - exists [], w. repeat split.
  - apply Forall_cons in Hvalid as [[p Hp] Hr].
    assert (Hdom : dom (heap (after_create l p w)) = dom (heap w)).
    { cbn. apply dom_insert_lookup_L. eauto. }
    destruct (IH (after_create l p w)) as (ids & w' & Hrun & Hlen & Hd & Hc & Hs).
    { eapply Forall_impl; [exact Hr|]. intros l' Hl'. cbn beta in *.
      apply elem_of_dom. rewrite Hdom. now apply elem_of_dom. }
    exists (Proposal.ID (created w p) :: ids), w'.
    split.
    { cbn [create_all]. unfold bind at 1. rewrite (Create_run w l p Hp).
      unfold bind at 1. now rewrite Hrun. }
    split; [cbn; now rewrite Hlen|].
    split; [now rewrite Hd|].
    split; [now rewrite Hc|].
    now rewrite Hs.
Qed.

(** [Create] on a struct that carries an identifier leaves every
    identifier in the heap as it is. *)
Lemma after_create_ids l p w l' :
  heap w !! l = Some p → Proposal.ID p ≠ EmptyString →
  Proposal.ID <$> heap (after_create l p w) !! l' = Proposal.ID <$> heap w !! l'.
Proof.
  intros Hp Hne. cbn. destruct (decide (l = l')) as [<-|Hll].
  - rewrite lookup_insert_eq, Hp.
    change (Some (Proposal.ID (created w p)) = Some (Proposal.ID p)).
    now rewrite created_ID_kept.
  - now rewrite lookup_insert_ne.
Qed.

(** With identifiers given by the caller, [Create] returns them. *)
Lemma create_all_given_ids (ls : list loc) w ids w' :
  Forall (has_id w) ls → create_all ls w = Ret ids w' →
  ids = incoming_ids w ls.
Proof.
  revert w ids w'. induction ls as [|l r IH]; intros w ids w' Hids Hrun.
  - cbn in Hrun. now injection Hrun as <- _.
  - apply Forall_cons in Hids as [(p & Hp & Hne) Hr].
    cbn [create_all] in Hrun. unfold bind at 1 in Hrun.
    rewrite (Create_run w l p Hp) in Hrun. unfold bind at 1 in Hrun.
    destruct (create_all r (after_create l p w)) as [ids' w1|] eqn:Hrest;
      [|discriminate].
    injection Hrun as <- _.
    assert (Hsame : ∀ l', Proposal.ID <$> heap (after_create l p w) !! l'
                          = Proposal.ID <$> heap w !! l')
      by (intros l'; now apply after_create_ids).
    rewrite (IH (after_create l p w) ids' w1).
    + change (Proposal.ID (with_creation_time w (with_fresh_id w p)))
        with (Proposal.ID (created w p)).
      rewrite created_ID_kept by done.
      change (incoming_ids w (l :: r))
        with (default "" (Proposal.ID <$> heap w !! l) :: incoming_ids w r).
      rewrite Hp. change (default "" (Proposal.ID <$> Some p)) with (Proposal.ID p).
      f_equal. unfold incoming_ids.
      apply list_fmap_ext. intros _ l' _. now rewrite Hsame.
    + eapply Forall_impl; [exact Hr|]. intros l' (p' & Hp' & Hne').
      specialize (Hsame l'). rewrite Hp' in Hsame.
      destruct (heap (after_create l p w) !! l') as [q|] eqn:Hq; [|discriminate].
      exists q. split; [done|]. cbn in Hsame. congruence.
    + exact Hrest.
Qed.

(** C3. [Create] stores the proposal under the identifier it returns
    whether or not the notification is queued: the send is queued when the
    buffer has room and dropped when it is full. The channel of a new
    service has capacity 10, so eleven calls with no receive in between
    leave exactly the first ten notifications in the channel (a consumer
    that comes later receives those ten and no more), while [GetAll]
    returns all eleven proposals (the eleven identifiers being distinct;
    they are the incoming ones when every struct carries one). *)
Theorem Create_stores_despite_full_channel w :
  (∀ l p, heap w !! l = Some p →
     ∃ id w',
       Create l w = Ret id w'
       ∧ proposals (svc w') !! id = Some l
       ∧ channel (svc w')
         = if (List.length (buf (channel (svc w))) <? capacity (channel (svc w)))%nat
           then Chan (buf (channel (svc w)) ++ [l]) (capacity (channel (svc w)))
           else channel (svc w))
  ∧ capacity (channel NewProposalService) = 10%nat
  ∧ (∀ ls : list loc,
       svc w = NewProposalService →
       List.length ls = 11%nat →
       Forall (fun l => is_Some (heap w !! l)) ls →
       ∃ ids w',
         create_all ls w = Ret ids w'
         ∧ List.length ids = 11%nat
         ∧ buf (channel (svc w')) = take 10 ls
         ∧ List.length (buf (channel (svc w'))) = 10%nat
         ∧ (∀ fuel, (10 ≤ fuel)%nat →
              recv_all fuel (channel (svc w')) = take 10 ls)
         ∧ (Forall (has_id w) ls → ids = incoming_ids w ls)
         ∧ (NoDup ids →
            ∃ all, GetAll w' = Ret all w'
                   ∧ all ≡ₚ ls ∧ List.length all = 11%nat)).
Proof.
  split; [|split].
  - intros l p Hh. exists (Proposal.ID (created w p)), (after_create l p w).
    split; [now apply Create_run|]. split; [apply after_create_stored|].
    change (channel (svc (after_create l p w)))
      with (try_send (channel (svc w)) l).1.
    unfold try_send.
    now destruct (List.length (buf (channel (svc w))) <? capacity (channel (svc w)))%nat.
  - reflexivity.
  - intros ls Hsvc Hlen Hvalid.
    destruct (create_all_run ls w Hvalid) as (ids & w' & Hrun & Hl & _ & Hc & Hs).
    exists ids, w'. split; [exact Hrun|]. split; [congruence|].
    assert (Hb : buf (channel (svc w')) = take 10 ls).
    { rewrite Hc. destruct (send_all_buf (channel (svc w)) ls) as [-> _].
      now rewrite Hsvc. }
    split; [exact Hb|].
    assert (Hten : List.length (buf (channel (svc w'))) = 10%nat)
      by (rewrite Hb, length_take; lia).
    split; [exact Hten|].
    split.
    { intros fuel Hfuel. rewrite <- Hb. apply recv_all_buf. lia. }
    split; [intros Hids; now apply (create_all_given_ids ls w ids w')|].
    intros Hnd. exists (map_to_list (proposals (svc w'))).*2.
    split; [reflexivity|].
    assert (Hall : (map_to_list (proposals (svc w'))).*2 ≡ₚ ls).
    { rewrite Hs, Hsvc. cbn [proposals NewProposalService].
      rewrite store_all_to_list by (rewrite fst_zip by lia; done).
      rewrite snd_zip by lia. reflexivity. }
    split; [exact Hall|]. now rewrite Hall.
Qed.

Lemma Create_stores_despite_full_channel_witness :
  ∃ ids w',
    create_all eleven eleven_world = Ret ids w'
    ∧ buf (channel (svc w')) = [0; 1; 2; 3; 4; 5; 6; 7; 8; 9]%nat
    ∧ ∃ all, GetAll w' = Ret all w' ∧ List.length all = 11%nat.
Proof.
  destruct (Create_stores_despite_full_channel eleven_world) as (_ & _ & H).
  destruct (H eleven eq_refl eq_refl) as (ids & w' & Hrun & _ & Hbuf & _ & _ & _ & Hall).
  { apply Forall_forall. intros l Hl. apply elem_of_seq in Hl.
    do 11 (destruct l as [|l]; [vm_compute; eauto|]). lia. }
  exists ids, w'. split; [exact Hrun|]. split; [exact Hbuf|].
  destruct Hall as (all & Hget & _ & Hn).
  { assert (E : create_all eleven eleven_world = create_all eleven eleven_world)
      by reflexivity.
    rewrite Hrun in E at 1.
    vm_compute in E. injection E as -> _.
    apply (bool_decide_unpack (NoDup _)). vm_compute. exact I. }
  exists all. now split.
Defined.

End channel_theorems.

Section identity_theorems.

Import Store Calls.

Implicit Types (w : World) (l : loc) (p : Proposal.t) (id : string).

Lemma Accept_dangling w id (params : gmap string string) l :
  proposals (svc w) !! id = Some l → heap w !! l = None →
  Accept id params w = Panic.
Proof.
  intros Hs Hh. unfold Accept. rewrite run_get_svc, Hs.
  unfold bind, load. now rewrite Hh.
Qed.

Lemma Ignore_dangling w id (params : gmap string string) l :
  proposals (svc w) !! id = Some l → heap w !! l = None →
  Ignore id params w = Panic.
Proof.
  intros Hs Hh. unfold Ignore. rewrite run_get_svc, Hs.
  unfold bind, load. now rewrite Hh.
Qed.

Lemma Resubmit_dangling w id (params : gmap string string) l :
  proposals (svc w) !! id = Some l → heap w !! l = None →
  Resubmit id params w = Panic.
Proof.
  intros Hs Hh. unfold Resubmit. rewrite run_get_svc, Hs.
  unfold bind, load. now rewrite Hh.
Qed.

Lemma decision_effect w id (params : gmap string string) w'
    (f : string → gmap string string → M error) status :
  (∀ w, proposals (svc w) !! id = None →
        f id params w = Ret (Some ("proposal not found: " ++ id)%string) w) →
  (∀ w l, proposals (svc w) !! id = Some l → heap w !! l = None →
          f id params w = Panic) →
  (∀ w l p, proposals (svc w) !! id = Some l → heap w !! l = Some p →
            Proposal.Status p ≠ ProposalStatusPending →
            f id params w
            = Ret (Some ("proposal already processed: " ++ Proposal.Status p)%string) w) →
  (∀ w l p, proposals (svc w) !! id = Some l → heap w !! l = Some p →
            Proposal.Status p = ProposalStatusPending →
            f id params w = Ret None (after_decision status l p w)) →
  state_of (f id params w) = Some w' → effect w w'.
Proof.
  intros Hnf Hdang Hproc Hpend Hrun.
  destruct (proposals (svc w) !! id) as [l|] eqn:Hs.
  - destruct (heap w !! l) as [p|] eqn:Hh.
    + destruct (String.eqb_spec (Proposal.Status p) ProposalStatusPending) as [Hp|Hp].
      * rewrite (Hpend w l p Hs Hh Hp) in Hrun. injection Hrun as <-.
        now apply (eff_write w _ id l p (decided status (clock w (clock_reads w)) p)).
      * rewrite (Hproc w l p Hs Hh Hp) in Hrun. injection Hrun as <-.
        now apply eff_forget.
    + rewrite (Hdang w l Hs Hh) in Hrun. discriminate.
  - rewrite (Hnf w Hs) in Hrun. injection Hrun as <-. now apply eff_forget.
Qed.

Lemma run_call_effect (c : call) w w' : run_call c w = Some w' → effect w w'.
Proof.
  destruct c as [v|l|id params|id params|id params|id]; cbn [run_call]; intros Hrun.
  - cbn in Hrun. injection Hrun as <-.
    apply (eff_new w _ (fresh (dom (heap w))) v); [|reflexivity|reflexivity].
    apply not_elem_of_dom, is_fresh.
  - destruct (heap w !! l) as [p|] eqn:Hh.
    + rewrite (Create_run w l p Hh) in Hrun. injection Hrun as <-.
      now apply (eff_create w _ l p).
    + rewrite (Create_panics w l Hh) in Hrun. discriminate.
  - apply (decision_effect w id params w' Accept ProposalStatusAccepted);
      [intros; now apply Accept_not_found
      |intros; eapply Accept_dangling; eauto
      |intros; eapply Accept_processed; eauto
      |intros; now apply Accept_pending
      |exact Hrun].
  - apply (decision_effect w id params w' Ignore ProposalStatusIgnored);
      [intros; now apply Ignore_not_found
      |intros; eapply Ignore_dangling; eauto
      |intros; eapply Ignore_processed; eauto
      |intros; now apply Ignore_pending
      |exact Hrun].
  - destruct (proposals (svc w) !! id) as [l|] eqn:Hs.
    + destruct (heap w !! l) as [p|] eqn:Hh.
      * rewrite (Resubmit_run w id params l p Hs Hh) in Hrun. injection Hrun as <-.
        now apply (eff_write w _ id l p
                     (resubmitted params (clock w (clock_reads w)) p)).
      * rewrite (Resubmit_dangling w id params l Hs Hh) in Hrun. discriminate.
    + rewrite (Resubmit_not_found w id params Hs) in Hrun. injection Hrun as <-.
      now apply eff_forget.
  - unfold Delete in Hrun. rewrite run_get_svc in Hrun.
    destruct (proposals (svc w) !! id) as [l|] eqn:Hs.
    + cbn in Hrun. injection Hrun as <-. apply eff_forget; [reflexivity|].
      cbn. intros k l0 Hk. now apply lookup_delete_Some in Hk as [_ Hk].
    + cbn in Hrun. injection Hrun as <-. now apply eff_forget.
Qed.

(** Every call keeps the map keyed by the identifiers of the structs. *)
Lemma keyed_by_id_step (c : call) w w' :
  keyed_by_id w → run_call c w = Some w' → keyed_by_id w'.
Proof.
  intros Hinv Hrun. apply run_call_effect in Hrun.
  destruct Hrun as [l v Hl Hheap Hsvc|l p Hl ->|id l p p' Hs Hl Hheap Hid Hsvc
                   |Hheap Hsub]; intros k l0 Hk.
  - rewrite Hsvc in Hk. destruct (Hinv k l0 Hk) as (Hne & p0 & Hp0 & Hid0).
    split; [done|]. exists p0. split; [|done].
    rewrite Hheap, lookup_insert_ne; [done|]. congruence.
  - cbn in Hk. destruct (decide (Proposal.ID (created w p) = k)) as [<-|Hne].
    + rewrite lookup_insert_eq in Hk. injection Hk as <-.
      split; [apply created_ID_nonempty|].
      exists (created w p). split; [apply after_create_heap|reflexivity].
    + rewrite lookup_insert_ne in Hk by done.
      destruct (Hinv k l0 Hk) as (Hk0 & p0 & Hp0 & Hid0).
      split; [done|]. exists p0. split; [|done].
      cbn. rewrite lookup_insert_ne; [done|].
      intros <-. rewrite Hl in Hp0. injection Hp0 as <-.
      apply Hne. rewrite created_ID_kept; congruence.
  - rewrite Hsvc in Hk. destruct (Hinv k l0 Hk) as (Hne & p0 & Hp0 & Hid0).
    split; [done|]. rewrite Hheap.
    destruct (decide (l = l0)) as [<-|Hll].
    + exists p'. rewrite lookup_insert_eq. split; [done|]. congruence.
    + exists p0. now rewrite lookup_insert_ne.
  - destruct (Hinv k l0 (Hsub k l0 Hk)) as (Hne & p0 & Hp0 & Hid0).
    split; [done|]. exists p0. now rewrite Hheap.
Qed.

Lemma keyed_by_id_run (cs : list call) w w' :
  keyed_by_id w → run_calls cs w = Some w' → keyed_by_id w'.
Proof.
  revert w. induction cs as [|c r IH]; intros w Hinv Hrun.
  - cbn in Hrun. now injection Hrun as <-.
  - cbn [run_calls] in Hrun. destruct (run_call c w) as [w1|] eqn:Hc; [|discriminate].
    eapply IH; [|exact Hrun]. eapply keyed_by_id_step; eauto.
Qed.

Lemma keyed_by_id_empty w : proposals (svc w) = ∅ → keyed_by_id w.
Proof. intros He k l Hk. rewrite He, lookup_empty in Hk. discriminate. Qed.

(** No call changes the identifier of a stored proposal. *)
Lemma id_kept_step (c : call) w w' k l p :
  keyed_by_id w → run_call c w = Some w' →
  proposals (svc w) !! k = Some l → heap w !! l = Some p →
  ∃ p', heap w' !! l = Some p' ∧ Proposal.ID p' = Proposal.ID p.
Proof.
  intros Hinv Hrun Hk Hp. apply run_call_effect in Hrun.
  destruct Hrun as [l1 v Hl Hheap Hsvc|l1 p1 Hl ->|id l1 p1 p' Hs Hl Hheap Hid Hsvc
                   |Hheap Hsub].
  - exists p. split; [|done]. rewrite Hheap, lookup_insert_ne; [done|]. congruence.
  - destruct (decide (l1 = l)) as [->|Hll].
    + exists (created w p1). split; [apply after_create_heap|].
      rewrite Hl in Hp. injection Hp as ->.
      apply created_ID_kept.
      destruct (Hinv k l Hk) as (Hne & p0 & Hp0 & Hid0). congruence.
    + exists p. split; [|done]. cbn. now rewrite lookup_insert_ne.
  - rewrite Hheap. destruct (decide (l1 = l)) as [->|Hll].
    + exists p'. rewrite lookup_insert_eq. split; [done|]. congruence.
    + exists p. now rewrite lookup_insert_ne.
  - exists p. now rewrite Hheap.
Qed.

Lemma stored_ids_keys w :
  keyed_by_id w → stored_ids w = Some <$> (map_to_list (proposals (svc w))).*1.
Proof.
  intros Hinv. unfold stored_ids. rewrite <- !list_fmap_compose.
  apply Forall_fmap_ext, Forall_forall. intros [k l] Hin.
  apply elem_of_map_to_list in Hin.
  destruct (Hinv k l Hin) as (_ & p & Hp & Hid). cbn. rewrite Hp. cbn.
  now rewrite Hid.
Qed.

(** C8. In every state that a sequence of calls reaches from an empty
    store, two stored proposals with the same identifier are one and the
    same entry (so the identifiers that [GetAll] lists have no duplicate);
    [Create] on a struct whose identifier is already a key returns that
    identifier and replaces the entry, the set of keys staying as it was;
    and no call changes the identifier of a proposal that is stored. *)
Theorem proposal_id_unique_and_immutable w0 (cs : list call) w :
  proposals (svc w0) = ∅ → run_calls cs w0 = Some w →
  (∀ k1 k2 l1 l2 p1 p2,
     proposals (svc w) !! k1 = Some l1 → proposals (svc w) !! k2 = Some l2 →
     heap w !! l1 = Some p1 → heap w !! l2 = Some p2 →
     Proposal.ID p1 = Proposal.ID p2 → k1 = k2 ∧ l1 = l2)
  ∧ NoDup (stored_ids w)
  ∧ (∀ l p, heap w !! l = Some p →
       is_Some (proposals (svc w) !! Proposal.ID p) →
       ∃ w', Create l w = Ret (Proposal.ID p) w'
             ∧ proposals (svc w') = <[Proposal.ID p := l]> (proposals (svc w))
             ∧ dom (proposals (svc w')) = dom (proposals (svc w))
             ∧ keyed_by_id w')
  ∧ (∀ (c : call) w', run_call c w = Some w' →
       ∀ k l p, proposals (svc w) !! k = Some l → heap w !! l = Some p →
                ∃ p', heap w' !! l = Some p' ∧ Proposal.ID p' = Proposal.ID p).
Proof.
  intros Hempty Hrun.
  assert (Hinv : keyed_by_id w)
    by (eapply keyed_by_id_run; [apply keyed_by_id_empty|]; eauto).
  split; [|split; [|split]].
  - intros k1 k2 l1 l2 p1 p2 H1 H2 Hp1 Hp2 Hid.
    destruct (Hinv k1 l1 H1) as (_ & q1 & Hq1 & E1).
    destruct (Hinv k2 l2 H2) as (_ & q2 & Hq2 & E2).
    assert (k1 = k2) as -> by congruence. split; [done|congruence].
  - rewrite stored_ids_keys by done.
    apply (NoDup_fmap_2 Some), NoDup_fst_map_to_list.
  - intros l p Hp [l0 Hk].
    destruct (Hinv _ _ Hk) as (Hne & _).
    pose proof (created_ID_kept w p Hne) as Hid.
    exists (after_create l p w).
    assert (Hmap : proposals (svc (after_create l p w))
                   = <[Proposal.ID p := l]> (proposals (svc w))).
    { change (proposals (svc (after_create l p w)))
        with (<[Proposal.ID (created w p) := l]> (proposals (svc w))).
      now rewrite Hid. }
    split; [rewrite (Create_run w l p Hp); now rewrite Hid|].
    split; [exact Hmap|].
    split; [rewrite Hmap; apply dom_insert_lookup_L; eauto|].
    apply (keyed_by_id_step (CallCreate l) w); [done|].
    cbn. now rewrite (Create_run w l p Hp).
  - intros c w' Hc k l p Hk Hp. now apply (id_kept_step c w w' k l p).
Qed.

Lemma proposal_id_unique_and_immutable_witness :
  ∃ w, run_calls duplicate_calls demo_start = Some w
       ∧ NoDup (stored_ids w)
       ∧ stored_ids w = [Some "p1"]
       ∧ proposals (svc w) !! "p1" = Some 1%nat.
Proof.
  eexists. split; [vm_compute; reflexivity|].
  split.
  - refine (proj1 (proj2 (proposal_id_unique_and_immutable demo_start
                            duplicate_calls _ eq_refl _))).
    vm_compute. reflexivity.
  - split; vm_compute; reflexivity.
Defined.

End identity_theorems.

(* ===================================================================== *)
(** * Properties of the template substitution *)
(* ===================================================================== *)

Section template_theorems.

Import Tmpl.

(** The parameter string of the specification's scenario. *)
Example parseParams_scenario :
  parseParams "host=example.com, risk=high"
  = <["host" := "example.com"]> (<["risk" := "high"]> ∅).
Proof. vm_compute. reflexivity. Qed.

(** A single parameter: every occurrence of the three spellings is
    replaced, in one pass from left to right. *)
Example subst_three_spellings :
  subst_loop [("ip", "10.0.0.1")] "a={{.ip}} b={{ip}} c=$ip d=$ip"
  = "a=10.0.0.1 b=10.0.0.1 c=10.0.0.1 d=10.0.0.1".
Proof. vm_compute. reflexivity. Qed.

(** The dollar spelling has no end mark: [$importance] is found inside
    [$importance_analysis], a placeholder whose name is not in the
    mapping. *)
Example subst_inside_longer_name :
  ∀ out, may_return SheikahAPI_replaceParams
           "$importance_analysis" "importance=high" out →
         out = "high_analysis".
Proof.
  intros out (order & Hperm & <-). unfold range_order in Hperm.
  assert (E : map_to_list (parseParams "importance=high") = [("importance", "high")])
    by (vm_compute; reflexivity).
  rewrite E in Hperm. apply Permutation_singleton_r in Hperm. subst order.
  vm_compute. reflexivity.
Qed.

(** C5 (the code departs from it). On the body template of the
    [save_api_analysis] endpoint and the parameters
    [importance=high,importance_analysis=deep], whose values hold no
    placeholder text, both tools may return two different strings: with
    [importance] taken first by the range loop, [$importance_analysis]
    becomes [high_analysis]; with [importance_analysis] taken first it
    becomes [deep]. *)
Theorem replaceParams_depends_on_range_order :
  let paramsStr := "importance=high,importance_analysis=deep" in
  may_return SheikahAPI_replaceParams save_api_analysis_body paramsStr
    (body_with "deep")
  ∧ may_return SheikahAPI_replaceParams save_api_analysis_body paramsStr
      (body_with "high_analysis")
  ∧ may_return QueryData_replaceParams save_api_analysis_body paramsStr
      (body_with "deep")
  ∧ may_return QueryData_replaceParams save_api_analysis_body paramsStr
      (body_with "high_analysis")
  ∧ body_with "deep" ≠ body_with "high_analysis".
Proof.
  cbv zeta.
  assert (E : map_to_list (parseParams "importance=high,importance_analysis=deep")
              = [("importance_analysis", "deep"); ("importance", "high")])
    by (vm_compute; reflexivity).
  assert (H1 : range_order (parseParams "importance=high,importance_analysis=deep")
                 [("importance_analysis", "deep"); ("importance", "high")])
    by (unfold range_order; now rewrite E).
  assert (H2 : range_order (parseParams "importance=high,importance_analysis=deep")
                 [("importance", "high"); ("importance_analysis", "deep")])
    by (unfold range_order; rewrite E; apply perm_swap).
  split; [eexists; split; [exact H1|vm_compute; reflexivity]|].
  split; [eexists; split; [exact H2|vm_compute; reflexivity]|].
  split; [eexists; split; [exact H1|vm_compute; reflexivity]|].
  split; [eexists; split; [exact H2|vm_compute; reflexivity]|].
  vm_compute. discriminate.
Qed.

End template_theorems.

(* ===================================================================== *)
(** * Properties of the service life cycle *)
(* ===================================================================== *)

Section lifecycle_theorems.

Import Svc.

Implicit Types (s : Service) (a : Activity).

Lemma close_keeps_closed (ch ch' : chan_id) s s' :
  close ch s = Returns s' → chans s !! ch' = Some true →
  chans s' !! ch' = Some true.
Proof.
  unfold close. destruct (chans s !! ch) as [[|]|] eqn:E; try discriminate.
  intros [= <-] H. cbn. destruct (decide (ch = ch')) as [->|Hne].
  - apply lookup_insert_eq.
  - now rewrite lookup_insert_ne.
Qed.

Lemma close_fields (ch : chan_id) s s' :
  close ch s = Returns s' →
  chans s' !! ch = Some true ∧ activities s' = activities s
  ∧ ctx_done s' = ctx_done s ∧ wg s' = wg s ∧ running s' = running s.
Proof.
  unfold close. destruct (chans s !! ch) as [[|]|] eqn:E; try discriminate.
  intros [= <-]. cbn. split; [apply lookup_insert_eq|done].
Qed.

(** A channel that is already closed makes the loop of [Stop] panic. *)
Lemma close_all_panics (acts : list Activity) s a :
  a ∈ acts → chans s !! stopCh a = Some true →
  ∃ m, close_all acts s = Panics m.
Proof.
  revert s. induction acts as [|b r IH]; intros s Hin Hc.
  - now apply not_elem_of_nil in Hin.
  - cbn [close_all]. destruct (close (stopCh b) s) as [s'|m|] eqn:E.
    + apply elem_of_cons in Hin as [->|Hin].
      * unfold close in E. rewrite Hc in E. discriminate.
      * apply IH; [done|]. eapply close_keeps_closed; eauto.
    + eauto.
    + unfold close in E. destruct (chans s !! stopCh b) as [[|]|]; discriminate.
Qed.

(** When the loop returns, every channel it went over is closed. *)
Lemma close_all_returns (acts : list Activity) s s' :
  close_all acts s = Returns s' →
  (∀ a, a ∈ acts → chans s' !! stopCh a = Some true)
  ∧ activities s' = activities s ∧ ctx_done s' = ctx_done s
  ∧ (∀ ch, chans s !! ch = Some true → chans s' !! ch = Some true).
Proof.
  revert s. induction acts as [|b r IH]; intros s Hrun.
  - cbn in Hrun. injection Hrun as <-. repeat split; [|done].
    intros a Hin. now apply not_elem_of_nil in Hin.
  - cbn [close_all] in Hrun.
    destruct (close (stopCh b) s) as [s1|m|] eqn:E; try discriminate.
    destruct (IH s1 Hrun) as (Hall & Hact & Hctx & Hkeep).
    destruct (close_fields _ _ _ E) as (Hb & Hact1 & Hctx1 & _).
    split; [|split; [congruence|split; [congruence|]]].
    + intros a [->|Hin]%elem_of_cons; [now apply Hkeep|now apply Hall].
    + intros ch Hch. apply Hkeep. eapply close_keeps_closed; eauto.
Qed.

(** After the context is cancelled the wait group reaches zero when its
    counter is the number of goroutines in [runActivity]. *)
Lemma wg_Wait_cancelled s :
  ctx_done s = true → wg s = List.length (running s) →
  ∃ s', wg_Wait s = Returns s' ∧ running s' = [] ∧ wg s' = 0%nat
        ∧ activities s' = activities s ∧ chans s' = chans s.
Proof.
  intros Hctx Hwg. unfold wg_Wait.
  assert (Hnone : ∀ l : list Activity,
             List.filter (fun a => negb (may_exit s a)) l = []).
  { induction l as [|a r IH]; [done|]. cbn.
    unfold may_exit at 1. rewrite Hctx. cbn. exact IH. }
  assert (Hall : List.filter (may_exit s) (running s) = running s).
  { apply forallb_filter_id, forallb_forall. intros a _.
    unfold may_exit. now rewrite Hctx. }
  rewrite Hall, Hnone, Hwg, Nat.sub_diag. cbn.
  eexists. split; [reflexivity|]. cbn. done.
Qed.

(** [Stop] panics on a service one of whose stop channels is closed. *)
Lemma Stop_panics_if_closed s (name : string) a :
  activities s !! name = Some a → chans s !! stopCh a = Some true →
  ∃ m, Stop (Some s) = Panics m.
Proof.
  intros Ha Hc. unfold Stop.
  set (s0 := MkService (config s) (activities s) true (wg s) (chans s)
               (running s) (queryTool_client s) (apiTool_client s)).
  destruct (close_all_panics (map_to_list (activities s0)).*2 s0 a) as [m Hm].
  - apply list_elem_of_fmap. exists (name, a). split; [done|].
    now apply elem_of_map_to_list.
  - exact Hc.
  - exists m. now rewrite Hm.
Qed.

(** [Stop] is not idempotent: when a first call has returned and the
    service has an activity, a second call panics. *)
Lemma Stop_again_panics s (r : option Service) :
  activities s ≠ ∅ → Stop (Some s) = Returns r →
  ∃ m, Stop r = Panics m.
Proof.
  intros Hne Hstop. unfold Stop in Hstop.
  set (s0 := MkService (config s) (activities s) true (wg s) (chans s)
               (running s) (queryTool_client s) (apiTool_client s)) in *.
  destruct (close_all (map_to_list (activities s0)).*2 s0) as [s1|m|] eqn:Hclose;
    try discriminate.
  destruct (wg_Wait s1) as [s2|m|] eqn:Hwait; try discriminate.
  injection Hstop as <-.
  destruct (close_all_returns _ _ _ Hclose) as (Hall & Hact & _ & _).
  assert (Hs2 : activities s2 = activities s1 ∧ chans s2 = chans s1).
  { unfold wg_Wait in Hwait. destruct (_ =? 0)%nat; [|discriminate].
    now injection Hwait as <-. }
  destruct Hs2 as [Hact2 Hch2].
  apply map_choose in Hne as (name & a & Ha).
  apply (Stop_panics_if_closed _ name a); cbn [activities chans].
  - now rewrite Hact2, Hact.
  - rewrite Hch2. apply Hall. apply list_elem_of_fmap. exists (name, a).
    split; [done|]. now apply elem_of_map_to_list.
Qed.

(** C7 (the code departs from it). With one enabled activity, [Start]
    launches one loop; the first [Stop] cancels the context, closes the
    stop channel, waits until the loop has left and returns with no loop
    running; a second [Stop] on that service panics, because it closes the
    same stop channel again. On a service that was never started, and on
    the nil service of a disabled configuration, [Stop] returns. *)
Theorem Stop_twice_panics :
  (∃ s0 s1,
     Start (NewService one_activity) = Some s0
     ∧ List.length (running s0) = 1%nat ∧ wg s0 = 1%nat
     ∧ Stop (Some s0) = Returns (Some s1)
     ∧ running s1 = [] ∧ wg s1 = 0%nat ∧ ctx_done s1 = true
     ∧ Stop (Some s1) = Panics "close of closed channel")
  ∧ (∃ s, Stop (NewService one_activity) = Returns (Some s) ∧ running s = []
          ∧ Stop (Some s) = Returns (Some s))
  ∧ Stop None = Returns None.
Proof.
  split; [|split].
  - eexists _, _. split; [vm_compute; reflexivity|].
    repeat (split; [vm_compute; reflexivity|]). vm_compute. reflexivity.
  - eexists. split; [vm_compute; reflexivity|].
    split; vm_compute; reflexivity.
  - reflexivity.
Qed.

End lifecycle_theorems.

(* ===================================================================== *)
(** * Further properties of the proposal service *)
(* ===================================================================== *)

Section store_more.

Import Store Calls.
Local Open Scope list_scope.

Implicit Types (w : World) (l : loc) (p : Proposal.t) (id : string).

Lemma Delete_present w id l :
  proposals (svc w) !! id = Some l →
  Delete id w
  = Ret true (with_svc (Service (delete id (proposals (svc w))) (channel (svc w))) w).
Proof. intros H. unfold Delete. now rewrite run_get_svc, H. Qed.

Lemma Delete_absent w id :
  proposals (svc w) !! id = None → Delete id w = Ret false w.
Proof. intros H. unfold Delete. now rewrite run_get_svc, H. Qed.

(** [Delete] removes the entry of a stored identifier and reports
    [true]: afterwards [Get] does not find it, every other identifier is
    found as before, the structs and the notification channel are untouched
    (a notification already queued for the proposal stays queued), and a
    second [Delete] reports [false] and changes nothing. On an identifier
    that is not stored [Delete] reports [false] and changes nothing. *)
Theorem Delete_removes_entry w id :
  (∀ l, proposals (svc w) !! id = Some l →
     ∃ w', Delete id w = Ret true w'
           ∧ heap w' = heap w
           ∧ channel (svc w') = channel (svc w)
           ∧ Get id w' = Ret None w'
           ∧ (∀ id', id' ≠ id → Get id' w' = Ret (proposals (svc w) !! id') w')
           ∧ Delete id w' = Ret false w')
  ∧ (proposals (svc w) !! id = None → Delete id w = Ret false w).
Proof.
  split; [|apply Delete_absent].
  intros l Hs.
  exists (with_svc (Service (delete id (proposals (svc w))) (channel (svc w))) w).
  split; [now apply (Delete_present w id l)|].
  split; [reflexivity|]. split; [reflexivity|].
  split; [unfold Get; rewrite run_get_svc; cbn; now rewrite lookup_delete_eq|].
  split.
  - intros id' Hne. unfold Get. rewrite run_get_svc. cbn.
    now rewrite lookup_delete_ne.
  - apply Delete_absent. cbn. apply lookup_delete_eq.
Qed.

Lemma Delete_removes_entry_witness :
  ∃ w', Delete "p1" demo_world = Ret true w'
        ∧ Get "p1" w' = Ret None w'
        ∧ buf (channel (svc w')) = [0; 1]%nat
        ∧ Delete "p1" w' = Ret false w'.
Proof.
  destruct (Delete_removes_entry demo_world "p1") as [H _].
  destruct (H 0%nat ltac:(vm_compute; reflexivity))
    as (w' & Hdel & _ & Hch & Hget & _ & Hagain).
  exists w'. split; [exact Hdel|]. split; [exact Hget|].
  split; [rewrite Hch; vm_compute; reflexivity|exact Hagain].
Defined.

(** [Create] and [Get] round trip: the identifier that [Create] returns
    is found by [Get], with the pointer that was created; [Get] changes
    nothing; every other identifier is found as before; and when the
    identifier was not stored before, [Delete] takes the map back to what it
    was. *)
Theorem Create_then_Get w l p :
  heap w !! l = Some p →
  ∃ id w',
    Create l w = Ret id w'
    ∧ Get id w' = Ret (Some l) w'
    ∧ (∀ id', id' ≠ id → Get id' w' = Ret (proposals (svc w) !! id') w')
    ∧ (proposals (svc w) !! id = None →
       ∃ w'', Delete id w' = Ret true w''
              ∧ proposals (svc w'') = proposals (svc w)).
Proof.
  intros Hp. exists (Proposal.ID (created w p)), (after_create l p w).
  split; [now apply Create_run|].
  split; [unfold Get; rewrite run_get_svc; now rewrite after_create_stored|].
  split.
  - intros id' Hne. unfold Get. rewrite run_get_svc. cbn.
    now rewrite lookup_insert_ne.
  - intros Hnew. eexists. split.
    + apply (Delete_present _ _ l). apply after_create_stored.
    + cbn. rewrite delete_insert_eq. now apply delete_id.
Qed.

Lemma Create_then_Get_witness :
  ∃ id w', Create 0%nat zero_world = Ret id w' ∧ Get id w' = Ret (Some 0%nat) w'.
Proof.
  destruct (Create_then_Get zero_world 0%nat zero_proposal
              ltac:(vm_compute; reflexivity)) as (id & w' & Hc & Hg & _).
  exists id, w'. now split.
Defined.

(** Membership in the list that the loop of [GetPending] builds. *)
Lemma GetPending_members w l :
  l ∈ List.filter
        (λ l, match heap w !! l with
              | Some p => String.eqb (Proposal.Status p) ProposalStatusPending
              | None => false
              end) (map_to_list (proposals (svc w))).*2
  ↔ ∃ id p, proposals (svc w) !! id = Some l
            ∧ heap w !! l = Some p
            ∧ Proposal.Status p = ProposalStatusPending.
Proof.
  rewrite list_elem_of_In, filter_In, <- list_elem_of_In.
  rewrite list_elem_of_fmap. split.
  - intros [([id l'] & -> & Hin) Hst]. cbn in *.
    apply elem_of_map_to_list in Hin.
    destruct (heap w !! l') as [p|] eqn:Hp; [|discriminate].
    exists id, p. split; [done|]. split; [done|]. now apply String.eqb_eq.
  - intros (id & p & Hs & Hp & Hst). split.
    + exists (id, l). split; [done|]. now apply elem_of_map_to_list.
    + rewrite Hp. now apply String.eqb_eq.
Qed.

(** [GetPending] changes nothing and returns exactly the stored pointers
    whose struct has the status pending; they are among the pointers that
    [GetAll] returns. *)
Theorem GetPending_exactly_pending w :
  ∃ pending all,
    GetPending w = Ret pending w
    ∧ GetAll w = Ret all w
    ∧ (∀ l, l ∈ pending ↔
            ∃ id p, proposals (svc w) !! id = Some l
                    ∧ heap w !! l = Some p
                    ∧ Proposal.Status p = ProposalStatusPending)
    ∧ pending ⊆ all.
Proof.
  eexists _, _. split; [reflexivity|]. split; [reflexivity|].
  split.
  - intros l. apply GetPending_members.
  - intros l. rewrite !list_elem_of_In, filter_In. tauto.
Qed.

(** A decision takes the proposal out of the pending list. *)
Lemma decided_not_pending status l p w :
  status ≠ ProposalStatusPending →
  ∀ pending w', GetPending (after_decision status l p w) = Ret pending w' →
                l ∉ pending.
Proof.
  intros Hne pending w' Hrun Hin. injection Hrun as <- _.
  apply list_elem_of_In, filter_In in Hin as [_ Hst]. cbv beta in Hst.
  rewrite lookup_insert_eq in Hst. cbn in Hst.
  apply String.eqb_eq in Hst. congruence.
Qed.

(** After a successful [Accept] or [Ignore] the proposal is no longer in
    the list that [GetPending] returns, while [GetAll] returns the same
    pointers as before. *)
Theorem decision_leaves_pending_list w id (params : gmap string string) l p w' :
  proposals (svc w) !! id = Some l → heap w !! l = Some p →
  Accept id params w = Ret None w' ∨ Ignore id params w = Ret None w' →
  (∃ before, GetPending w = Ret before w ∧ l ∈ before)
  ∧ (∃ after, GetPending w' = Ret after w' ∧ l ∉ after)
  ∧ (∀ all, GetAll w = Ret all w → GetAll w' = Ret all w').
Proof.
  intros Hs Hh Hok.
  assert (Hp : Proposal.Status p = ProposalStatusPending).
  { destruct (String.eqb_spec (Proposal.Status p) ProposalStatusPending) as [|Hne];
      [done|].
    destruct Hok as [Hok|Hok];
      [rewrite (Accept_processed w id params l p) in Hok by done
      |rewrite (Ignore_processed w id params l p) in Hok by done];
      discriminate. }
  split; [|split].
  - eexists. split; [reflexivity|]. apply GetPending_members. eauto.
  - destruct Hok as [Hok|Hok];
      [rewrite (Accept_pending w id params l p) in Hok by done
      |rewrite (Ignore_pending w id params l p) in Hok by done];
      injection Hok as <-; eexists; (split; [reflexivity|]);
      eapply decided_not_pending; try reflexivity; discriminate.
  - intros all Hall.
    destruct Hok as [Hok|Hok];
      [rewrite (Accept_pending w id params l p) in Hok by done
      |rewrite (Ignore_pending w id params l p) in Hok by done];
      injection Hok as <-; injection Hall as <-; reflexivity.
Qed.

Lemma decision_leaves_pending_list_witness :
  ∃ w' after,
    Ignore "p1" ∅ demo_world = Ret None w'
    ∧ GetPending w' = Ret after w' ∧ 0%nat ∉ after.
Proof.
  eexists. 
  edestruct (decision_leaves_pending_list demo_world "p1" ∅ 0%nat)
    as (_ & (after & Hafter & Hnot) & _);
    [vm_compute; reflexivity|vm_compute; reflexivity
    |right; vm_compute; reflexivity|].
  exists after. split; [vm_compute; reflexivity|]. now split.
Defined.

End store_more.

(* ===================================================================== *)
(** * What the calls do to a struct over time *)
(* ===================================================================== *)

Section lifetime_theorems.

Import Store Calls Lifetime.
Local Open Scope list_scope.

Implicit Types (w : World) (l : loc) (p q : Proposal.t) (id : string).

Lemma same_param_refl (a : Param.t) : same_param a a.
Proof. repeat split. Qed.

Lemma evolves_refl p : evolves p p.
Proof.
  split; try done. intros k a Ha. exists a. split; [done|apply same_param_refl].
Qed.

Lemma evolves_trans p q r : evolves p q → evolves q r → evolves p r.
Proof.
  intros [] []. split; try congruence.
  - intros Hne. rewrite ev_id1; [now apply ev_id0|]. rewrite ev_id0; done.
  - intros Hz. rewrite ev_created1; [now apply ev_created0|].
    rewrite ev_created0; done.
  - intros k a Ha. destruct (ev_params0 k a Ha) as (b & Hb & Hab).
    destruct (ev_params1 k b Hb) as (c & Hc & Hbc). exists c. split; [done|].
    destruct Hab as (? & ? & ? & ?), Hbc as (? & ? & ? & ?).
    repeat split; congruence.
  - auto.
Qed.

Lemma evolves_created w p : evolves p (created w p).
Proof.
  destruct (created_rest w p) as (Ht & Hti & Hs & Hd & Ha & Hp & Hst).
  split; try done.
  - apply created_ID_kept.
  - intros Hz. now rewrite created_CreatedAt, Hz.
  - now rewrite Hp.
  - intros k a Hk. exists a. rewrite Hp. split; [done|apply same_param_refl].
  - now rewrite Hst.
Qed.

Lemma evolves_decided status now p :
  Proposal.Status p = ProposalStatusPending → evolves p (decided status now p).
Proof.
  intros Hp. split; try done.
  intros k a Hk. exists a. split; [done|apply same_param_refl].
Qed.

Lemma evolves_resubmitted (params : gmap string string) now p :
  evolves p (resubmitted params now p).
Proof.
  split; try done.
  - apply merge_params_dom.
  - intros k a Hk. cbn. rewrite merge_params_map, Hk. cbn.
    eexists. split; [reflexivity|]. unfold merged.
    destruct (params !! k); repeat split.
Qed.

(** What one call does to the struct behind a pointer. *)
Lemma run_call_struct (c : call) w w' l p :
  run_call c w = Some w' → heap w !! l = Some p →
  ∃ q, heap w' !! l = Some q ∧ evolves p q.
Proof.
  intros Hrun Hp.
  assert (Hsame : heap w' = heap w → ∃ q, heap w' !! l = Some q ∧ evolves p q).
  { intros ->. exists p. split; [done|apply evolves_refl]. }
  assert (Hupd : ∀ l1 p1 q1, heap w !! l1 = Some p1 → evolves p1 q1 →
                   heap w' = <[l1 := q1]> (heap w) →
                   ∃ q, heap w' !! l = Some q ∧ evolves p q).
  { intros l1 p1 q1 H1 Hev ->. destruct (decide (l1 = l)) as [->|Hne].
    - exists q1. rewrite lookup_insert_eq. split; [done|]. congruence.
    - exists p. rewrite lookup_insert_ne by done. split; [done|apply evolves_refl]. }
  destruct c as [v|l1|id params|id params|id params|id]; cbn [run_call] in Hrun.
  - cbn in Hrun. injection Hrun as <-. exists p. cbn.
    rewrite lookup_insert_ne; [split; [done|apply evolves_refl]|].
    intros Heq. pose proof (is_fresh (dom (heap w))) as Hf.
    rewrite Heq in Hf. apply Hf, elem_of_dom. eauto.
  - destruct (heap w !! l1) as [p1|] eqn:H1.
    + rewrite (Create_run w l1 p1 H1) in Hrun. injection Hrun as <-.
      apply (Hupd l1 p1 (created w p1) H1); [apply evolves_created|reflexivity].
    + rewrite (Create_panics w l1 H1) in Hrun. discriminate.
  - destruct (proposals (svc w) !! id) as [l1|] eqn:Hs.
    + destruct (heap w !! l1) as [p1|] eqn:H1.
      * destruct (String.eqb_spec (Proposal.Status p1) ProposalStatusPending) as [Hst|Hst].
        -- rewrite (Accept_pending w id params l1 p1 Hs H1 Hst) in Hrun.
           injection Hrun as <-.
           eapply (Hupd l1 p1); [exact H1| |reflexivity].
           now apply evolves_decided.
        -- rewrite (Accept_processed w id params l1 p1 Hs H1 Hst) in Hrun.
           injection Hrun as <-. now apply Hsame.
      * rewrite (Accept_dangling w id params l1 Hs H1) in Hrun. discriminate.
    + rewrite (Accept_not_found w id params Hs) in Hrun. injection Hrun as <-.
      now apply Hsame.
  - destruct (proposals (svc w) !! id) as [l1|] eqn:Hs.
    + destruct (heap w !! l1) as [p1|] eqn:H1.
      * destruct (String.eqb_spec (Proposal.Status p1) ProposalStatusPending) as [Hst|Hst].
        -- rewrite (Ignore_pending w id params l1 p1 Hs H1 Hst) in Hrun.
           injection Hrun as <-.
           eapply (Hupd l1 p1); [exact H1| |reflexivity].
           now apply evolves_decided.
        -- rewrite (Ignore_processed w id params l1 p1 Hs H1 Hst) in Hrun.
           injection Hrun as <-. now apply Hsame.
      * rewrite (Ignore_dangling w id params l1 Hs H1) in Hrun. discriminate.
    + rewrite (Ignore_not_found w id params Hs) in Hrun. injection Hrun as <-.
      now apply Hsame.
  - destruct (proposals (svc w) !! id) as [l1|] eqn:Hs.
    + destruct (heap w !! l1) as [p1|] eqn:H1.
      * rewrite (Resubmit_run w id params l1 p1 Hs H1) in Hrun. injection Hrun as <-.
        eapply (Hupd l1 p1); [exact H1| |reflexivity].
        apply evolves_resubmitted.
      * rewrite (Resubmit_dangling w id params l1 Hs H1) in Hrun. discriminate.
    + rewrite (Resubmit_not_found w id params Hs) in Hrun. injection Hrun as <-.
      now apply Hsame.
  - destruct (proposals (svc w) !! id) as [l1|] eqn:Hs.
    + rewrite (Delete_present w id l1 Hs) in Hrun. injection Hrun as <-.
      now apply Hsame.
    + rewrite (Delete_absent w id Hs) in Hrun. injection Hrun as <-.
      now apply Hsame.
Qed.

(** Over any sequence of calls a struct that exists keeps existing, and
    from the struct at the start to the one at the end: type, title,
    summary, details and actions are the same; an identifier and a creation
    time that were set are the same; the parameters have the same names and
    differ at most in their values; and a status that was not pending is
    not pending (a decided or resubmitted proposal is never reopened). *)
Theorem struct_evolves_over_calls (cs : list call) w w' l p :
  run_calls cs w = Some w' → heap w !! l = Some p →
  ∃ q, heap w' !! l = Some q ∧ evolves p q.
Proof.
  revert w p. induction cs as [|c r IH]; intros w p Hrun Hp.
  - cbn in Hrun. injection Hrun as <-. exists p. split; [done|apply evolves_refl].
  - cbn [run_calls] in Hrun.
    destruct (run_call c w) as [w1|] eqn:Hc; [|discriminate].
    destruct (run_call_struct c w w1 l p Hc Hp) as (q1 & Hq1 & Hev1).
    destruct (IH w1 q1 Hrun Hq1) as (q & Hq & Hev).
    exists q. split; [done|]. eapply evolves_trans; eauto.
Qed.

Lemma struct_evolves_over_calls_witness :
  ∃ w' q,
    run_calls [CallAccept "p1" ∅; CallResubmit "p1" (<["note" := "x"]> ∅);
               CallCreate 0%nat; CallDelete "p1"; CallNew zero_proposal]
      demo_world = Some w'
    ∧ heap w' !! 0%nat = Some q
    ∧ Proposal.Title q = "SQL injection"
    ∧ Proposal.ID q = "p1"
    ∧ Proposal.Status q ≠ ProposalStatusPending.
Proof.
  pose (wa := match Accept "p1" ∅ demo_world with
              | Ret _ w => w
              | Panic => demo_world
              end).
  edestruct (fun w' => struct_evolves_over_calls
               [CallResubmit "p1" (<["note" := "x"]> ∅);
                CallCreate 0%nat; CallDelete "p1"; CallNew zero_proposal] wa
               w' 0%nat)
    as (q & Hq & Hev);
    [vm_compute; reflexivity|vm_compute; reflexivity|].
  eexists. exists q. split; [vm_compute; reflexivity|]. split; [exact Hq|].
  destruct Hev as [_ Hti _ _ _ Hid _ _ _ Hst].
  split; [exact Hti|]. split; [apply Hid; discriminate|].
  apply Hst. discriminate.
Defined.

End lifetime_theorems.

Section notification_theorems.

Import Store Calls Lifetime.
Local Open Scope list_scope.

Implicit Types (w : World) (l : loc) (p q : Proposal.t) (id : string).

(** Only [Create] writes to the channel. *)
Lemma run_call_channel (c : call) w w' :
  run_call c w = Some w' →
  channel (svc w') = channel (svc w)
  ∨ ∃ l p, heap w !! l = Some p ∧ w' = after_create l p w.
Proof.
  destruct c as [v|l1|id params|id params|id params|id]; cbn [run_call]; intros Hrun.
  - cbn in Hrun. injection Hrun as <-. now left.
  - destruct (heap w !! l1) as [p1|] eqn:H1.
    + rewrite (Create_run w l1 p1 H1) in Hrun. injection Hrun as <-. right. eauto.
    + rewrite (Create_panics w l1 H1) in Hrun. discriminate.
  - destruct (proposals (svc w) !! id) as [l1|] eqn:Hs.
    + destruct (heap w !! l1) as [p1|] eqn:H1.
      * destruct (String.eqb_spec (Proposal.Status p1) ProposalStatusPending) as [Hst|Hst].
        -- rewrite (Accept_pending w id params l1 p1 Hs H1 Hst) in Hrun.
           injection Hrun as <-. now left.
        -- rewrite (Accept_processed w id params l1 p1 Hs H1 Hst) in Hrun.
           injection Hrun as <-. now left.
      * rewrite (Accept_dangling w id params l1 Hs H1) in Hrun. discriminate.
    + rewrite (Accept_not_found w id params Hs) in Hrun. injection Hrun as <-.
      now left.
  - destruct (proposals (svc w) !! id) as [l1|] eqn:Hs.
    + destruct (heap w !! l1) as [p1|] eqn:H1.
      * destruct (String.eqb_spec (Proposal.Status p1) ProposalStatusPending) as [Hst|Hst].
        -- rewrite (Ignore_pending w id params l1 p1 Hs H1 Hst) in Hrun.
           injection Hrun as <-. now left.
        -- rewrite (Ignore_processed w id params l1 p1 Hs H1 Hst) in Hrun.
           injection Hrun as <-. now left.
      * rewrite (Ignore_dangling w id params l1 Hs H1) in Hrun. discriminate.
    + rewrite (Ignore_not_found w id params Hs) in Hrun. injection Hrun as <-.
      now left.
  - destruct (proposals (svc w) !! id) as [l1|] eqn:Hs.
    + destruct (heap w !! l1) as [p1|] eqn:H1.
      * rewrite (Resubmit_run w id params l1 p1 Hs H1) in Hrun. injection Hrun as <-.
        now left.
      * rewrite (Resubmit_dangling w id params l1 Hs H1) in Hrun. discriminate.
    + rewrite (Resubmit_not_found w id params Hs) in Hrun. injection Hrun as <-.
      now left.
  - destruct (proposals (svc w) !! id) as [l1|] eqn:Hs.
    + rewrite (Delete_present w id l1 Hs) in Hrun. injection Hrun as <-. now left.
    + rewrite (Delete_absent w id Hs) in Hrun. injection Hrun as <-. now left.
Qed.

Lemma channel_ok_call (c : call) w w' :
  run_call c w = Some w' → channel_ok w → channel_ok w'.
Proof.
  intros Hrun (Hcap & Hlen & Hids).
  assert (Hkeep : ∀ l, (∃ p, heap w !! l = Some p ∧ Proposal.ID p ≠ "") →
                       ∃ q, heap w' !! l = Some q ∧ Proposal.ID q ≠ "").
  { intros l (p & Hp & Hne).
    destruct (run_call_struct c w w' l p Hrun Hp) as (q & Hq & Hev).
    exists q. split; [done|]. rewrite (ev_id _ _ Hev); done. }
  destruct (run_call_channel c w w' Hrun) as [Hch|(l & p & Hp & ->)].
  - unfold channel_ok. rewrite Hch. repeat split; [done|done|].
    intros l Hl. apply Hkeep, Hids, Hl.
  - unfold channel_ok.
    change (channel (svc (after_create l p w))) with (try_send (channel (svc w)) l).1.
    unfold try_send.
    destruct (Nat.ltb_spec (List.length (buf (channel (svc w))))
                (capacity (channel (svc w)))) as [Hlt|Hge]; cbn [fst buf capacity].
    + split; [done|]. split; [rewrite length_app; cbn; lia|].
      intros l' [Hin|Hin]%elem_of_app.
      * apply Hkeep, Hids, Hin.
      * apply list_elem_of_singleton in Hin as ->.
        exists (created w p). split; [apply after_create_heap|apply created_ID_nonempty].
    + repeat split; [done|done|]. intros l' Hin. apply Hkeep, Hids, Hin.
Qed.

Lemma channel_ok_step (s : step) w w' :
  run_step s w = Some w' → channel_ok w → channel_ok w'.
Proof.
  destruct s as [c|]; cbn [run_step].
  - apply channel_ok_call.
  - unfold receive, try_recv. intros Hrun (Hcap & Hlen & Hids).
    destruct (buf (channel (svc w))) as [|x r] eqn:Hbuf; [discriminate|].
    cbn in Hrun. injection Hrun as <-. unfold channel_ok. cbn.
    split; [done|]. split; [cbn in Hlen; lia|].
    intros l Hl. apply Hids. now right.
Qed.

(** Whatever the clients and the consumer do, in whatever order, after
    [NewProposalService]: the channel keeps its capacity of ten, never
    holds more than ten notifications, and every notification it holds
    points to a struct that carries a non-empty identifier (also when the
    proposal has been deleted from the store in the meantime). *)
Theorem channel_stays_bounded (ss : list step) w w' :
  svc w = NewProposalService → run_steps ss w = Some w' →
  capacity (channel (svc w')) = 10%nat
  ∧ (List.length (buf (channel (svc w'))) ≤ 10)%nat
  ∧ ∀ l, l ∈ buf (channel (svc w')) →
         ∃ p, heap w' !! l = Some p ∧ Proposal.ID p ≠ EmptyString.
Proof.
  intros Hnew Hrun.
  assert (Hok : channel_ok w).
  { unfold channel_ok. rewrite Hnew. cbn. split; [done|]. split; [lia|].
    intros l Hl. now apply not_elem_of_nil in Hl. }
  clear Hnew. revert w Hrun Hok. induction ss as [|s r IH]; intros w Hrun Hok.
  - cbn in Hrun. now injection Hrun as <-.
  - cbn [run_steps] in Hrun. destruct (run_step s w) as [w1|] eqn:Hs; [|discriminate].
    apply (IH w1 Hrun). eapply channel_ok_step; eauto.
Qed.

Lemma channel_stays_bounded_witness :
  ∃ w', run_steps busy_steps eleven_world = Some w'
        ∧ List.length (buf (channel (svc w'))) = 10%nat
        ∧ (List.length (buf (channel (svc w'))) ≤ 10)%nat.
Proof.
  eexists. split; [vm_compute; reflexivity|]. split; [vm_compute; reflexivity|].
  refine (proj1 (proj2 (channel_stays_bounded busy_steps eleven_world _ eq_refl _))).
  vm_compute. reflexivity.
Defined.

End notification_theorems.

Section resubmit_more.

Import Store Calls Lifetime.

Implicit Types (w : World) (l : loc) (p q : Proposal.t) (id : string).

Lemma merged_twice (params : gmap string string) (k : string) (a : Param.t) :
  merged params k (merged params k a) = merged params k a.
Proof. unfold merged. now destruct (params !! k). Qed.

(** A successful [Resubmit] returns the stored pointer itself and writes
    the values of the named parameters, the status and [UpdatedAt] of that
    one struct, nothing else. Names that the proposal does not have change
    nothing in its parameters. Afterwards the status is modified for good as
    far as decisions go: [Accept] and [Ignore] fail with "proposal already
    processed: modified"; a second [Resubmit] with the same values succeeds
    and leaves the parameters as the first one made them. *)
Theorem Resubmit_frame w id (params : gmap string string) l p r w' :
  proposals (svc w) !! id = Some l → heap w !! l = Some p →
  Resubmit id params w = Ret r w' →
  ∃ q,
    r = (Some l, None)
    ∧ heap w' = <[l := q]> (heap w)
    ∧ svc w' = svc w
    ∧ q = Proposal.with_UpdatedAt (clock w (clock_reads w))
            (Proposal.with_Status ProposalStatusModified
               (Proposal.with_Parameters (Proposal.Parameters q) p))
    ∧ ((∀ k, is_Some (params !! k) → Proposal.Parameters p !! k = None) →
       Proposal.Parameters q = Proposal.Parameters p)
    ∧ (∀ params' : gmap string string,
         Accept id params' w'
         = Ret (Some "proposal already processed: modified") w'
         ∧ Ignore id params' w'
           = Ret (Some "proposal already processed: modified") w')
    ∧ ∃ w'' q',
        Resubmit id params w' = Ret (Some l, None) w''
        ∧ heap w'' !! l = Some q'
        ∧ Proposal.Parameters q' = Proposal.Parameters q
        ∧ Proposal.Status q' = ProposalStatusModified.
Proof.
  intros Hs Hp Hrun. rewrite (Resubmit_run w id params l p Hs Hp) in Hrun.
  injection Hrun as <- <-.
  set (q := resubmitted params (clock w (clock_reads w)) p).
  assert (Hq : heap (after_resubmit params l p w) !! l = Some q)
    by (cbn; apply lookup_insert_eq).
  exists q. split; [reflexivity|]. split; [reflexivity|]. split; [reflexivity|].
  split; [reflexivity|]. split; [|split].
  - intros Hnone. apply map_eq. intros k. subst q. cbn.
    rewrite merge_params_map. unfold merged.
    destruct (params !! k) as [v|] eqn:Hk.
    + rewrite (Hnone k) by eauto. reflexivity.
    + now destruct (Proposal.Parameters p !! k).
  - intros params'. split.
    + now rewrite (Accept_processed (after_resubmit params l p w) id params' l q Hs Hq).
    + now rewrite (Ignore_processed (after_resubmit params l p w) id params' l q Hs Hq).
  - exists (after_resubmit params l q (after_resubmit params l p w)),
           (resubmitted params
              (clock (after_resubmit params l p w)
                 (clock_reads (after_resubmit params l p w))) q).
    split; [now apply Resubmit_run|].
    split; [cbn; apply lookup_insert_eq|]. split; [|reflexivity].
    apply map_eq. intros k. subst q. cbn.
    rewrite !merge_params_map. destruct (Proposal.Parameters p !! k); cbn;
      [now rewrite merged_twice|reflexivity].
Qed.

Lemma Resubmit_frame_witness :
  ∃ r w',
    Resubmit "p1" (<["note" := "checked"]> ∅) demo_world = Ret r w'
    ∧ r = (Some 0%nat, None)
    ∧ Accept "p1" ∅ w' = Ret (Some "proposal already processed: modified") w'.
Proof.
  eexists _, _. split; [vm_compute; reflexivity|].
  edestruct (Resubmit_frame demo_world "p1" (<["note" := "checked"]> ∅) 0%nat)
    as (q & Hr & _ & _ & _ & _ & Hfinal & _);
    [vm_compute; reflexivity|vm_compute; reflexivity|vm_compute; reflexivity|].
  split; [exact Hr|]. exact (proj1 (Hfinal ∅)).
Defined.

End resubmit_more.

(* ===================================================================== *)
(** * Further properties of the template substitution *)
(* ===================================================================== *)

Section template_more.

Import GoStr Tmpl Shape.

Lemma HasPrefix_first (a b : ascii) (s p : string) :
  a ≠ b → HasPrefix (String a s) (String b p) = false.
Proof. intros H. cbn. destruct (Ascii.eqb_spec b a); [congruence|done]. Qed.

(** A pattern whose first byte does not occur in [s] is not found. *)
Lemma replace_from_absent (c : ascii) (old new s : string) :
  has_byte c s = false → replace_from (String c old) new 0 s = s.
Proof.
  induction s as [|a r IH]; [done|]. cbn [has_byte]. intros H.
  apply orb_false_elim in H as [Ha Hr]. apply Ascii.eqb_neq in Ha.
  cbn [replace_from]. rewrite HasPrefix_first by done. now rewrite IH.
Qed.

Lemma ReplaceAll_absent (c : ascii) (old new s : string) :
  has_byte c s = false → ReplaceAll s (String c old) new = s.
Proof.
  intros H. unfold ReplaceAll. destruct (String.eqb _ _); [done|].
  now apply replace_from_absent.
Qed.

Lemma subst_one_plain (template : string) (kv : string * string) :
  no_placeholder_mark template = true → subst_one template kv = template.
Proof.
  unfold no_placeholder_mark. intros [Hd Hb]%andb_prop.
  apply negb_true_iff in Hd, Hb. unfold subst_one.
  change ("{{." ++ kv.1 ++ "}}")%string with (String "{" ("{." ++ kv.1 ++ "}}")%string).
  rewrite ReplaceAll_absent by done.
  change ("{{" ++ kv.1 ++ "}}")%string with (String "{" ("{" ++ kv.1 ++ "}}")%string).
  rewrite ReplaceAll_absent by done.
  change ("$" ++ kv.1)%string with (String "$" kv.1).
  now rewrite ReplaceAll_absent.
Qed.

(** A template that holds neither a dollar sign nor an opening brace is
    returned as it is by both tools, whatever the parameter string is and
    in whatever order the parameters are taken. *)
Theorem replaceParams_plain_template (order : list (string * string))
    (template paramsStr : string) :
  no_placeholder_mark template = true →
  SheikahAPI_replaceParams order template paramsStr = template
  ∧ QueryData_replaceParams order template paramsStr = template.
Proof.
  intros Hplain.
  assert (Hloop : subst_loop order template = template).
  { unfold subst_loop. induction order as [|kv r IH]; [done|].
    cbn [foldl]. now rewrite subst_one_plain. }
  unfold SheikahAPI_replaceParams, QueryData_replaceParams.
  destruct (_ || _), (String.eqb paramsStr ""); now rewrite ?Hloop.
Qed.

Lemma replaceParams_plain_template_witness :
  SheikahAPI_replaceParams [("x", "1"); ("host", "h")]
    "SELECT count() FROM access" "x=1,host=h"
  = "SELECT count() FROM access".
Proof.
  exact (proj1 (replaceParams_plain_template [("x", "1"); ("host", "h")]
                  "SELECT count() FROM access" "x=1,host=h" eq_refl)).
Defined.

(** ** The grammar of the parameter string *)

Lemma split_byte_snoc (sep : ascii) (cur s t : string) :
  split_byte sep cur (s ++ String sep t)
  = (split_byte sep cur s ++ split_byte sep EmptyString t)%list.
Proof.
  revert cur. induction s as [|a r IH]; intros cur.
  - change ("" ++ String sep t)%string with (String sep t).
    cbn [split_byte app]. now rewrite Ascii.eqb_refl.
  - change (String a r ++ String sep t)%string with (String a (r ++ String sep t)).
    cbn [split_byte]. destruct (Ascii.eqb a sep); [|apply IH].
    cbn [app]. now rewrite IH.
Qed.

Lemma append_assoc (a b c : string) : ((a ++ b) ++ c = a ++ (b ++ c))%string.
Proof.
  induction a as [|x a IH]; [done|].
  change (String x ((a ++ b) ++ c) = String x (a ++ (b ++ c)))%string.
  now rewrite IH.
Qed.

Lemma append_empty_r (a : string) : (a ++ "")%string = a.
Proof.
  induction a as [|x a IH]; [done|].
  change (String x (a ++ "")%string = String x a). now rewrite IH.
Qed.

Lemma split_byte_whole (sep : ascii) (cur s : string) :
  has_byte sep s = false → split_byte sep cur s = [(cur ++ s)%string].
Proof.
  revert cur. induction s as [|a r IH]; intros cur H.
  - cbn. now rewrite append_empty_r.
  - cbn [has_byte] in H. apply orb_false_elim in H as [Ha Hr].
    cbn [split_byte]. rewrite Ha, IH by done. now rewrite append_assoc.
Qed.

Lemma cut_first_whole (sep : ascii) (cur s : string) :
  has_byte sep s = false → cut_first sep cur s = [(cur ++ s)%string].
Proof.
  revert cur. induction s as [|a r IH]; intros cur H.
  - cbn. now rewrite append_empty_r.
  - cbn [has_byte] in H. apply orb_false_elim in H as [Ha Hr].
    cbn [cut_first]. rewrite Ha, IH by done. now rewrite append_assoc.
Qed.

Lemma cut_first_at (sep : ascii) (cur k v : string) :
  has_byte sep k = false →
  cut_first sep cur (k ++ String sep v) = [(cur ++ k)%string; v].
Proof.
  revert cur. induction k as [|a r IH]; intros cur H.
  - change ("" ++ String sep v)%string with (String sep v).
    cbn [cut_first]. now rewrite Ascii.eqb_refl, append_empty_r.
  - cbn [has_byte] in H. apply orb_false_elim in H as [Ha Hr].
    change (String a r ++ String sep v)%string with (String a (r ++ String sep v)).
    cbn [cut_first]. rewrite Ha, IH by done. now rewrite append_assoc.
Qed.

Lemma has_byte_app (c : ascii) (a b : string) :
  has_byte c (a ++ b) = has_byte c a || has_byte c b.
Proof.
  induction a as [|x a IH]; [done|].
  change (String x a ++ b)%string with (String x (a ++ b)).
  cbn [has_byte]. rewrite IH. now rewrite orb_assoc.
Qed.

(** One more pair at the end of the parameter string. *)
Lemma parseParams_snoc (s pair : string) :
  has_byte "," pair = false →
  parseParams (s ++ String "," pair) = add_pair (parseParams s) pair.
Proof.
  intros H. unfold parseParams, Split. rewrite split_byte_snoc, foldl_app.
  now rewrite (split_byte_whole "," "" pair H).
Qed.

(** The parameter string is read pair by pair, from left to right:
    - a pair without an equals sign is skipped;
    - a pair [k=v] sets the trimmed key to the trimmed value, replacing what
      an earlier pair gave to that key; the value is everything after the
      first equals sign, further equals signs included;
    - a single pair gives a map with that one entry.
    (Keys and values hold no comma: a comma always ends the pair.) *)
Theorem parseParams_grammar (s k v : string) :
  has_byte "," k = false → has_byte "=" k = false → has_byte "," v = false →
  parseParams (s ++ String "," k) = parseParams s
  ∧ parseParams (s ++ String "," (k ++ String "=" v))
    = <[TrimSpace k := TrimSpace v]> (parseParams s)
  ∧ parseParams (k ++ String "=" v) = {[TrimSpace k := TrimSpace v]}
  ∧ parseParams k = ∅.
Proof.
  intros Hkc Hke Hvc.
  assert (Hpair : has_byte "," (k ++ String "=" v) = false).
  { rewrite has_byte_app, Hkc. cbn. exact Hvc. }
  assert (Hadd : ∀ m, add_pair m (k ++ String "=" v) = <[TrimSpace k := TrimSpace v]> m).
  { intros m. unfold add_pair, SplitN2. now rewrite cut_first_at. }
  assert (Hskip : ∀ m, add_pair m k = m).
  { intros m. unfold add_pair, SplitN2. now rewrite cut_first_whole. }
  split; [|split; [|split]].
  - now rewrite parseParams_snoc, Hskip.
  - now rewrite parseParams_snoc, Hadd.
  - unfold parseParams, Split. rewrite (split_byte_whole "," "" _ Hpair).
    cbn [foldl]. change ("" ++ (k ++ String "=" v))%string with (k ++ String "=" v)%string.
    now rewrite Hadd.
  - unfold parseParams, Split. rewrite (split_byte_whole "," "" _ Hkc).
    cbn [foldl]. change ("" ++ k)%string with k. now rewrite Hskip.
Qed.

Lemma parseParams_grammar_witness :
  parseParams ("host=a,risk=low" ++ String "," (" risk " ++ String "=" "a=b "))
  = <["risk" := "a=b"]> (parseParams "host=a,risk=low").
Proof.
  exact (proj1 (proj2 (parseParams_grammar "host=a,risk=low" " risk " "a=b "
                         eq_refl eq_refl eq_refl))).
Defined.

End template_more.

Section trim_theorems.

Import GoStr Tmpl Shape.
Local Open Scope list_scope.

Lemma bytes_length (s : string) : List.length (bytes s) = String.length s.
Proof.
  unfold bytes. rewrite length_fmap.
  induction s as [|a r IH]; [done|]. cbn. now rewrite IH.
Qed.

Lemma is_prefix_bytes_length (p l : list N) :
  is_prefix_bytes p l = true → (List.length p ≤ List.length l)%nat.
Proof.
  revert l. induction p as [|a p IH]; intros [|b l] H; cbn in *; try lia; try done.
  destruct (N.eqb a b); [|done]. apply IH in H. lia.
Qed.

Lemma is_prefix_bytes_take (p l : list N) (m : nat) :
  is_prefix_bytes p (take m l) = true → is_prefix_bytes p l = true.
Proof.
  revert l m. induction p as [|a p IH]; intros l m H; [done|].
  destruct l as [|b l]; [now rewrite take_nil in H|].
  destruct m as [|m]; [done|]. cbn in *.
  destruct (N.eqb a b); [|done]. eauto.
Qed.

Lemma is_prefix_bytes_app (p l k : list N) :
  is_prefix_bytes p l = true → is_prefix_bytes p (l ++ k) = true.
Proof.
  revert l. induction p as [|a p IH]; intros [|b l] H; cbn in *; try done.
  destruct (N.eqb a b); [|done]. eauto.
Qed.

Lemma space_runes_nonempty (p : list N) :
  In p space_runes → (1 ≤ List.length p)%nat.
Proof.
  intros H. assert (Hall : Forall (fun q => 1 ≤ List.length q)%nat space_runes).
  { unfold space_runes. repeat constructor. }
  rewrite Forall_forall in Hall. apply Hall. now apply list_elem_of_In.
Qed.

Lemma leading_space_bounds (l : list N) (n : nat) :
  leading_space l = Some n → (1 ≤ n ≤ List.length l)%nat.
Proof.
  unfold leading_space. destruct (List.find _ _) as [p|] eqn:E; [|done].
  intros [= <-]. apply find_some in E as [Hin Hp]. split.
  - now apply space_runes_nonempty.
  - now apply is_prefix_bytes_length.
Qed.

Lemma trailing_space_bounds (l : list N) (n : nat) :
  trailing_space l = Some n → (1 ≤ n ≤ List.length l)%nat.
Proof.
  unfold trailing_space. destruct (List.find _ _) as [p|] eqn:E; [|done].
  intros [= <-]. apply find_some in E as [Hin Hp]. split.
  - now apply space_runes_nonempty.
  - apply is_prefix_bytes_length in Hp. now rewrite !length_rev in Hp.
Qed.

Lemma drop_bytes_length (n : nat) (s : string) :
  String.length (drop_bytes n s) = (String.length s - n)%nat.
Proof.
  revert s. induction n as [|n IH]; intros [|a s]; cbn; try done; try lia.
Qed.

Lemma bytes_substring (m : nat) (s : string) :
  bytes (String.substring 0 m s) = take m (bytes s).
Proof.
  revert s. induction m as [|m IH]; intros [|a s]; cbn; try done.
  unfold bytes in *. cbn. now rewrite IH.
Qed.

Lemma substring_length (m : nat) (s : string) :
  String.length (String.substring 0 m s) = Nat.min m (String.length s).
Proof.
  revert s. induction m as [|m IH]; intros [|a s]; cbn; try done.
  now rewrite IH.
Qed.

(** With enough rounds no white-space rune is left at the front. *)
Lemma trim_left_done (fuel : nat) (s : string) :
  (String.length s ≤ fuel)%nat →
  leading_space (bytes (trim_left fuel s)) = None.
Proof.
  revert s. induction fuel as [|f IH]; intros s Hlen.
  - destruct s; [reflexivity|cbn in Hlen; lia].
  - cbn [trim_left]. destruct (leading_space (bytes s)) as [n|] eqn:E; [|exact E].
    apply IH. apply leading_space_bounds in E. rewrite bytes_length in E.
    rewrite drop_bytes_length. lia.
Qed.

Lemma trim_right_done (fuel : nat) (s : string) :
  (String.length s ≤ fuel)%nat →
  trailing_space (bytes (trim_right fuel s)) = None.
Proof.
  revert s. induction fuel as [|f IH]; intros s Hlen.
  - destruct s; [reflexivity|cbn in Hlen; lia].
  - cbn [trim_right]. destruct (trailing_space (bytes s)) as [n|] eqn:E; [|exact E].
    apply IH. apply trailing_space_bounds in E. rewrite bytes_length in E.
    rewrite substring_length. lia.
Qed.

Lemma leading_space_prefix (m : nat) (s : string) :
  leading_space (bytes s) = None →
  leading_space (bytes (String.substring 0 m s)) = None.
Proof.
  unfold leading_space. intros H.
  destruct (List.find (fun p => is_prefix_bytes p (bytes s)) space_runes)
    as [p|] eqn:E; [cbn in H; discriminate|]. clear H.
  destruct (List.find
              (fun p => is_prefix_bytes p (bytes (String.substring 0 m s)))
              space_runes) as [p|] eqn:E'; [|reflexivity].
  apply find_some in E' as [Hin Hp]. rewrite bytes_substring in Hp.
  apply is_prefix_bytes_take in Hp.
  now rewrite (find_none _ _ E p Hin) in Hp.
Qed.

Lemma trim_right_keeps_front (fuel : nat) (s : string) :
  leading_space (bytes s) = None →
  leading_space (bytes (trim_right fuel s)) = None.
Proof.
  revert s. induction fuel as [|f IH]; intros s H; [exact H|].
  cbn [trim_right]. destruct (trailing_space (bytes s)); [|exact H].
  apply IH. now apply leading_space_prefix.
Qed.

(** [TrimSpace] leaves no white-space rune at either end. *)
Lemma TrimSpace_ends (s : string) :
  leading_space (bytes (TrimSpace s)) = None
  ∧ trailing_space (bytes (TrimSpace s)) = None.
Proof.
  unfold TrimSpace. split.
  - apply trim_right_keeps_front. now apply trim_left_done.
  - now apply trim_right_done.
Qed.

Lemma TrimSpace_fixed (s : string) :
  leading_space (bytes s) = None → trailing_space (bytes s) = None →
  TrimSpace s = s.
Proof.
  intros Hl Hr. unfold TrimSpace.
  assert (E : trim_left (String.length s) s = s).
  { destruct (String.length s); [done|]. cbn [trim_left]. now rewrite Hl. }
  rewrite E. destruct (String.length s); [done|]. cbn [trim_right]. now rewrite Hr.
Qed.

Lemma TrimSpace_idempotent (s : string) : trimmed (TrimSpace s).
Proof. destruct (TrimSpace_ends s). now apply TrimSpace_fixed. Qed.

Lemma add_pair_trimmed (m : gmap string string) (pair : string) :
  (∀ k v, m !! k = Some v → trimmed k ∧ trimmed v) →
  ∀ k v, add_pair m pair !! k = Some v → trimmed k ∧ trimmed v.
Proof.
  intros Hm k v. unfold add_pair.
  destruct (SplitN2 pair "=") as [|a [|b [|c r]]]; try apply Hm.
  destruct (decide (TrimSpace a = k)) as [<-|Hne].
  - rewrite lookup_insert_eq. intros [= <-]. split; apply TrimSpace_idempotent.
  - rewrite lookup_insert_ne by done. apply Hm.
Qed.

(** Every key and every value of the parameter map is trimmed: it has
    no white-space rune at its front or at its end, and trimming it again
    changes nothing, so a key written with blanks around it in the
    parameter string is found under its bare name. *)
Theorem parseParams_trimmed (paramsStr k v : string) :
  parseParams paramsStr !! k = Some v →
  TrimSpace k = k ∧ TrimSpace v = v
  ∧ leading_space (bytes k) = None ∧ trailing_space (bytes k) = None
  ∧ leading_space (bytes v) = None ∧ trailing_space (bytes v) = None.
Proof.
  assert (Hall : ∀ (pairs : list string) (m : gmap string string),
             (∀ k v, m !! k = Some v → trimmed k ∧ trimmed v) →
             ∀ k v, foldl add_pair m pairs !! k = Some v → trimmed k ∧ trimmed v).
  { induction pairs as [|pair r IH]; intros m Hm; [exact Hm|].
    cbn [foldl]. apply IH. now apply add_pair_trimmed. }
  intros Hk. destruct (Hall (Split paramsStr ",") ∅) with (k := k) (v := v)
    as [Htk Htv]; [intros ? ? H; now rewrite lookup_empty in H|exact Hk|].
  unfold trimmed in *. split; [done|]. split; [done|].
  destruct (TrimSpace_ends k) as [H1 H2], (TrimSpace_ends v) as [H3 H4].
  rewrite Htk in H1, H2. rewrite Htv in H3, H4. done.
Qed.

Lemma parseParams_trimmed_witness :
  TrimSpace "risk" = "risk" ∧ TrimSpace "high" = "high".
Proof.
  destruct (parseParams_trimmed "host=example.com,  risk = high " "risk" "high"
              ltac:(vm_compute; reflexivity)) as (H1 & H2 & _).
  now split.
Defined.

End trim_theorems.

(* ===================================================================== *)
(** * Further properties of the schedule parser *)
(* ===================================================================== *)

Section schedule_more.

Import Sched SchedSpec.

Lemma wrap64_range (z : Z) : Int64.min_int ≤ Int64.wrap64 z ≤ Int64.max_int.
Proof.
  unfold Int64.wrap64, Int64.min_int, Int64.max_int.
  pose proof (Z.mod_pos_bound (z + 2 ^ 63) (2 ^ 64) ltac:(lia)). lia.
Qed.

Lemma parseSchedule_range (s : string) :
  Int64.min_int ≤ parseSchedule s ≤ Int64.max_int.
Proof.
  assert (Hd : Int64.min_int ≤ 30 * Duration.Minute ≤ Int64.max_int)
    by (vm_compute; split; discriminate).
  assert (H0 : Int64.min_int ≤ 0 ≤ Int64.max_int)
    by (vm_compute; split; discriminate).
  unfold parseSchedule. destruct (String.eqb s ""); [exact H0|].
  destruct (unsnoc s) as [[pre last]|]; [|exact Hd].
  repeat (destruct (_ && _); [apply wrap64_range|]). exact Hd.
Qed.

(** Whatever the schedule string is, the interval handed to the ticker is
    a positive 64-bit duration: [time.NewTicker] is never given zero or a
    negative value, on which it would panic. *)
Theorem ticker_interval_positive (schedule : string) :
  0 < runActivity_interval schedule ≤ Int64.max_int.
Proof.
  unfold runActivity_interval.
  pose proof (parseSchedule_range schedule) as [_ Hmax].
  destruct (Z.leb_spec (parseSchedule schedule) 0).
  - vm_compute. split; [reflexivity|discriminate].
  - lia.
Qed.

(** The scanner stops at the first byte that is not a digit. *)
Lemma scan_digits_stop (acc : Z) (c : ascii) (rest : string) :
  is_digit c = false → scan_digits acc (String c rest) = acc.
Proof. intros H. cbn. now rewrite H. Qed.

Lemma scan_digits_numeral_then (d d' : Decimal.uint) (t : string) :
  scan_digits (Z.of_N (Unsigned.of_lu d')) (numeral d ++ t)
  = scan_digits (Z.of_N (Unsigned.of_lu (Decimal.revapp d d'))) t.
Proof.
  revert d'. unfold numeral.
  induction d as [|d IH|d IH|d IH|d IH|d IH|d IH|d IH|d IH|d IH|d IH];
    intros d'; [reflexivity|..];
    cbn [NilEmpty.string_of_uint Decimal.revapp];
    match goal with
    | |- context [(String ?c ?s ++ t)%string] =>
        change (String c s ++ t)%string with (String c (s ++ t))
    end;
    cbn [scan_digits];
    (replace (is_digit _) with true by reflexivity); cbv iota;
    rewrite <- IH; f_equal; cbn [Unsigned.of_lu]; unfold digit_val; cbn; lia.
Qed.

Lemma scan_digits_leading (d : Decimal.uint) (c : ascii) (rest : string) :
  is_digit c = false →
  scan_digits 0 (numeral d ++ String c rest) = value d.
Proof.
  intros Hc. change 0 with (Z.of_N (Unsigned.of_lu Decimal.Nil)).
  rewrite scan_digits_numeral_then, scan_digits_stop by done.
  unfold value, N.of_uint. now rewrite Unsigned.of_uint_alt.
Qed.

(** [Sscanf] reads the integer at the front and does not look at what
    follows it. *)
Lemma Sscanf_d_leading (d : Decimal.uint) (c : ascii) (rest : string) :
  d ≠ Decimal.Nil → value d ≤ Int64.max_int → is_digit c = false →
  Sscanf_d (numeral d ++ String c rest) = value d.
Proof.
  intros Hd Hmax Hc. destruct (numeral_head d Hd) as (c0 & s0 & E & Hc0).
  unfold Sscanf_d. pose proof (scan_digits_leading d c rest Hc) as Hscan.
  rewrite E in *.
  change (String c0 s0 ++ String c rest)%string
    with (String c0 (s0 ++ String c rest)) in *.
  rewrite SkipSpace_digit by done.
  destruct (digit_not_space c0 s0 Hc0) as (_ & _ & Hm & Hp).
  assert (Hsign : (match String c0 (s0 ++ String c rest) with
                   | String "-" r => (true, r)
                   | String "+" r => (false, r)
                   | _ => (false, String c0 (s0 ++ String c rest))
                   end) = (false, String c0 (s0 ++ String c rest))).
  { destruct c0 as [[|] [|] [|] [|] [|] [|] [|] [|]]; try reflexivity; congruence. }
  rewrite Hsign. cbn [starts_with_digit]. rewrite Hc0, Hscan.
  pose proof (value_nonneg d).
  unfold Int64.in_range, Int64.min_int.
  destruct (Z.leb_spec (- 2 ^ 63) (value d)), (Z.leb_spec (value d) Int64.max_int);
    cbn; lia.
Qed.

Lemma Sscanf_d_plus (d : Decimal.uint) :
  d ≠ Decimal.Nil → value d ≤ Int64.max_int →
  Sscanf_d (String "+" (numeral d)) = value d.
Proof.
  intros Hd Hmax. destruct (numeral_head d Hd) as (c0 & s0 & E & Hc0).
  unfold Sscanf_d. rewrite SkipSpace_plain by reflexivity.
  pose proof (scan_digits_value d) as Hscan. rewrite E in *.
  cbn [starts_with_digit]. rewrite Hc0, Hscan.
  pose proof (value_nonneg d).
  unfold Int64.in_range, Int64.min_int.
  destruct (Z.leb_spec (- 2 ^ 63) (value d)), (Z.leb_spec (value d) Int64.max_int);
    cbn; lia.
Qed.

(** The schedule parser reads the integer at the front of the
    expression and ignores every byte between it and the unit: a numeral
    denoting [n > 0] followed by a byte that is not a digit, by anything at
    all, and then by s, m or h makes the loop run every [n] units (so
    expressions such as "5xm" or "10 minutes" are taken as 5 minutes and
    10 seconds). A plus sign before the numeral is accepted. Both as long
    as [n] units fit a 64-bit duration. *)
Theorem schedule_reads_leading_integer (d : Decimal.uint) (c u : ascii)
    (rest : string) (unit : Z) :
  unit_of u = Some unit → 0 < value d → value d * unit ≤ Int64.max_int →
  is_digit c = false →
  runActivity_interval ((numeral d ++ String c rest) ++ String u EmptyString)
  = value d * unit
  ∧ runActivity_interval (String "+" (numeral d) ++ String u EmptyString)
    = value d * unit.
Proof.
  intros Hu Hpos Hmax Hc. pose proof (unit_bounds u unit Hu) as Hunit.
  assert (Hd : d ≠ Decimal.Nil) by (apply value_pos_not_nil; lia).
  assert (Hfit : value d ≤ Int64.max_int) by nia.
  assert (Hwrap : Int64.mul (value d) unit = value d * unit).
  { unfold Int64.mul. apply wrap64_id. unfold Int64.min_int. nia. }
  split.
  - assert (Hne : (numeral d ++ String c rest)%string ≠ EmptyString).
    { destruct (numeral_head d Hd) as (c0 & s0 & -> & _). discriminate. }
    rewrite interval_positive;
      rewrite (parseSchedule_unit _ u unit Hu Hne), Sscanf_d_leading, Hwrap
        by done; [done|nia].
  - rewrite interval_positive;
      rewrite (parseSchedule_unit _ u unit Hu) by discriminate;
      rewrite Sscanf_d_plus, Hwrap by done; [done|nia].
Qed.

Lemma schedule_reads_leading_integer_witness :
  runActivity_interval "10 minutes" = 10 * Duration.Second
  ∧ runActivity_interval "+10s" = 10 * Duration.Second.
Proof.
  exact (schedule_reads_leading_integer
           (Decimal.D1 (Decimal.D0 Decimal.Nil)) " " "s" "minute"
           Duration.Second eq_refl eq_refl ltac:(vm_compute; discriminate) eq_refl).
Defined.

End schedule_more.

(* ===================================================================== *)
(** * Further properties of the service life cycle *)
(* ===================================================================== *)

Section lifecycle_more.

Import Svc Lifecycle.
Local Open Scope list_scope.

Implicit Types (s : Service) (a : Activity).

Lemma start_one_fields s (name : string) (c : ActivityConfig) :
  let s' := start_one s (name, c) in
  config s' = config s ∧ ctx_done s' = ctx_done s
  ∧ queryTool_client s' = queryTool_client s
  ∧ apiTool_client s' = apiTool_client s
  ∧ wg s' = (wg s + if Enabled c then 1 else 0)%nat
  ∧ List.length (running s') = (List.length (running s) + if Enabled c then 1 else 0)%nat.
Proof.
  cbn. destruct (Enabled c); cbn; rewrite ?length_app; cbn; repeat split; lia.
Qed.

Lemma start_one_lookup s (name name' : string) (c : ActivityConfig) :
  activities (start_one s (name, c)) !! name'
  = if Enabled c && bool_decide (name = name')
    then Some (MkActivity name c (fresh (dom (chans s))))
    else activities s !! name'.
Proof.
  cbn. destruct (Enabled c); cbn; [|done].
  case_bool_decide as H; [subst; apply lookup_insert_eq|now apply lookup_insert_ne].
Qed.

Lemma start_one_well_started s (e : string * ActivityConfig) :
  well_started s → well_started (start_one s e).
Proof.
  destruct e as [name c]. intros (Hwg & Hopen & Hinj).
  unfold start_one. destruct (Enabled c); cbn [negb]; [|done].
  assert (Hfresh : chans s !! fresh (dom (chans s)) = None)
    by apply not_elem_of_dom, is_fresh.
  split; [cbn; rewrite length_app; cbn; lia|]. split.
  - intros n a. cbn. destruct (decide (name = n)) as [->|Hne].
    + rewrite lookup_insert_eq. intros [= <-]. cbn. apply lookup_insert_eq.
    + rewrite lookup_insert_ne by done. intros Ha.
      rewrite lookup_insert_ne; [now apply (Hopen n)|].
      intros Heq. pose proof (Hopen n a Ha) as Ho. rewrite <- Heq in Ho.
      congruence.
  - intros n1 n2 a1 a2. cbn.
    destruct (decide (name = n1)) as [E1|H1], (decide (name = n2)) as [E2|H2].
    + intros. congruence.
    + subst n1. rewrite lookup_insert_eq, lookup_insert_ne by done.
      intros [= <-] Ha2 Heq. cbn in Heq.
      pose proof (Hopen n2 a2 Ha2) as Ho. rewrite <- Heq in Ho. congruence.
    + subst n2. rewrite lookup_insert_ne, lookup_insert_eq by done.
      intros Ha1 [= <-] Heq. cbn in Heq.
      pose proof (Hopen n1 a1 Ha1) as Ho. rewrite Heq in Ho. congruence.
    + rewrite !lookup_insert_ne by done. apply Hinj.
Qed.

Lemma Start_loop (l : list (string * ActivityConfig)) s :
  let s' := foldl start_one s l in
  (well_started s → well_started s')
  ∧ ctx_done s' = ctx_done s
  ∧ wg s' = (wg s + List.length (List.filter (fun e => Enabled e.2) l))%nat
  ∧ (NoDup l.*1 →
     ∀ name c, (name, c) ∈ l → Enabled c = true →
               ∃ a, activities s' !! name = Some a ∧ Name a = name ∧ Config a = c)
  ∧ (∀ name a, activities s' !! name = Some a →
       activities s !! name = Some a
       ∨ ∃ c, (name, c) ∈ l ∧ Enabled c = true ∧ Name a = name ∧ Config a = c).
Proof.
  cbv zeta. revert s. induction l as [|[n c] r IH]; intros s.
  - cbn [foldl]. split; [done|]. split; [done|]. split; [cbn; lia|]. split.
    + intros _ name c Hin. now apply not_elem_of_nil in Hin.
    + intros name a Ha. now left.
  - cbn [foldl]. destruct (IH (start_one s (n, c))) as (Hws & Hctx & Hwg & Hall & Honly).
    destruct (start_one_fields s n c) as (_ & Hctx1 & _ & _ & Hwg1 & _).
    cbv zeta in *. split; [|split; [|split; [|split]]].
    + intros H. apply Hws. now apply start_one_well_started.
    + congruence.
    + rewrite Hwg, Hwg1. cbn [List.filter snd]. destruct (Enabled c); cbn; lia.
    + intros Hnd name c' Hin Hen. cbn in Hnd. apply NoDup_cons in Hnd as [Hn Hnd].
      apply elem_of_cons in Hin as [[= -> ->]|Hin]; [|now apply Hall].
      destruct (activities (foldl start_one (start_one s (n, c)) r) !! n)
        as [a|] eqn:Ha.
      * destruct (Honly n a Ha) as [Hs|(c2 & Hin2 & _)].
        -- rewrite start_one_lookup, Hen in Hs. cbn in Hs.
           rewrite bool_decide_true in Hs by done. injection Hs as <-. eauto.
        -- exfalso. apply Hn. apply list_elem_of_fmap. now exists (n, c2).
      * exfalso.
        assert (Hkeep : ∀ (l' : list (string * ActivityConfig)) s0 x,
                   is_Some (activities s0 !! x) →
                   is_Some (activities (foldl start_one s0 l') !! x)).
        { induction l' as [|[n' c'] r' IH']; intros s0 x Hx; [done|].
          cbn [foldl]. apply IH'. rewrite start_one_lookup.
          destruct (_ && _); eauto. }
        destruct (Hkeep r (start_one s (n, c)) n) as [a Ha'].
        { rewrite start_one_lookup, Hen. cbn. rewrite bool_decide_true by done. eauto. }
        congruence.
    + intros name a Ha. destruct (Honly name a Ha) as [Hs|(c2 & Hin & Hen & Hn & Hc)].
      * rewrite start_one_lookup in Hs.
        destruct (Enabled c) eqn:Hen; cbn in Hs; [|now left].
        case_bool_decide as Hnn; [|now left].
        injection Hs as <-. subst. right. exists c. repeat split; [left|done].
      * right. exists c2. repeat split; try done. now right.
Qed.

(** The loop of [Stop] returns when the channels it closes are open and
    pairwise different. *)
Lemma close_all_open (acts : list Activity) s :
  (∀ a, a ∈ acts → chans s !! stopCh a = Some false) →
  NoDup (stopCh <$> acts) →
  ∃ s', close_all acts s = Returns s'
        ∧ activities s' = activities s ∧ ctx_done s' = ctx_done s
        ∧ wg s' = wg s ∧ running s' = running s ∧ config s' = config s
        ∧ (∀ a, a ∈ acts → chans s' !! stopCh a = Some true).
Proof.
  revert s. induction acts as [|a r IH]; intros s Hopen Hnd.
  - exists s. repeat split. intros a Ha. now apply not_elem_of_nil in Ha.
  - cbn in Hnd. apply NoDup_cons in Hnd as [Ha Hnd].
    cbn [close_all]. unfold close at 1. rewrite (Hopen a) by left.
    set (s1 := MkService (config s) (activities s) (ctx_done s) (wg s)
                 (<[stopCh a := true]> (chans s)) (running s)
                 (queryTool_client s) (apiTool_client s)).
    destruct (IH s1) as (s' & Hrun & Hact & Hctx & Hwg & Hr & Hcfg & Hclosed).
    { intros b Hb. cbn. rewrite lookup_insert_ne; [apply Hopen; now right|].
      intros Heq. apply Ha. rewrite Heq. apply list_elem_of_fmap. eauto. }
    { exact Hnd. }
    exists s'. split; [exact Hrun|]. repeat split; try done.
    intros b [->|Hb]%elem_of_cons; [|now apply Hclosed].
    destruct (close_all_returns r s1 s' Hrun) as (_ & _ & _ & Hkeep).
    apply Hkeep. cbn. apply lookup_insert_eq.
Qed.

(** For every enabled configuration: [Start] launches one loop per
    enabled activity and none for a disabled one (the wait group counts
    them), and the [Stop] that follows returns, after which the context is
    cancelled, every stop channel is closed, no loop runs, the wait group is
    at zero and both tools have dropped their clients. *)
Theorem Start_then_Stop (cfg : SecOpsConfig) :
  cfg_Enabled cfg = true →
  ∃ s0 s1,
    Start (NewService cfg) = Some s0
    ∧ wg s0 = List.length (enabled_entries cfg)
    ∧ List.length (running s0) = List.length (enabled_entries cfg)
    ∧ (∀ name, is_Some (activities s0 !! name) ↔
               ∃ c, cfg_Activities cfg !! name = Some c ∧ Enabled c = true)
    ∧ Stop (Some s0) = Returns (Some s1)
    ∧ ctx_done s1 = true ∧ running s1 = [] ∧ wg s1 = 0%nat
    ∧ (∀ name a, activities s1 !! name = Some a → chans s1 !! stopCh a = Some true)
    ∧ activities s1 = activities s0
    ∧ queryTool_client s1 = false ∧ apiTool_client s1 = false.
Proof.
  intros Hen. unfold NewService. rewrite Hen. cbn [negb Start config].
  set (init := MkService cfg ∅ false 0 ∅ [] true true).
  set (l := map_to_list (cfg_Activities cfg)).
  destruct (Start_loop l init) as (Hws & Hctx & Hwg & Hall & Honly).
  cbv zeta in *. set (s0 := foldl start_one init l) in *.
  assert (Hwell : well_started s0) by (apply Hws; repeat split; done).
  destruct Hwell as (Hcount & Hopen & Hinj).
  assert (Hstop : ∃ s1, Stop (Some s0) = Returns (Some s1)
             ∧ ctx_done s1 = true ∧ running s1 = [] ∧ wg s1 = 0%nat
             ∧ (∀ name a, activities s1 !! name = Some a →
                          chans s1 !! stopCh a = Some true)
             ∧ activities s1 = activities s0
             ∧ queryTool_client s1 = false ∧ apiTool_client s1 = false).
  { unfold Stop.
    set (sc := MkService (config s0) (activities s0) true (wg s0) (chans s0)
                 (running s0) (queryTool_client s0) (apiTool_client s0)).
    destruct (close_all_open (map_to_list (activities sc)).*2 sc)
      as (s1 & Hrun & Hact & Hctx1 & Hwg1 & Hr1 & _ & Hclosed).
    { intros a [[n a'] [-> Hin]]%list_elem_of_fmap.
      apply elem_of_map_to_list in Hin. now apply (Hopen n). }
    { rewrite <- list_fmap_compose. apply NoDup_fmap_2_strong;
        [|apply NoDup_map_to_list].
      intros [n1 a1] [n2 a2] H1 H2 Heq. cbn in Heq.
      apply elem_of_map_to_list in H1, H2.
      assert (n1 = n2) as -> by (eapply (Hinj n1 n2 a1 a2); eauto).
      cbn in H1, H2. congruence. }
    rewrite Hrun.
    destruct (wg_Wait_cancelled s1) as (s2 & Hwait & Hr2 & Hwg2 & Hact2 & Hch2).
    { now rewrite Hctx1. }
    { now rewrite Hwg1, Hr1. }
    rewrite Hwait. eexists. split; [reflexivity|]. cbn.
    assert (Hctx2 : ctx_done s2 = true).
    { unfold wg_Wait in Hwait. destruct (_ =? 0)%nat; [|discriminate].
      injection Hwait as <-. cbn. now rewrite Hctx1. }
    repeat split; try done.
    - intros name a Ha. rewrite Hch2. apply Hclosed.
      apply list_elem_of_fmap. exists (name, a). split; [done|].
      apply elem_of_map_to_list. rewrite Hact2, Hact in Ha. exact Ha.
    - now rewrite Hact2, Hact. }
  destruct Hstop as (s1 & Hs1).
  exists s0, s1. split; [reflexivity|].
  split; [now rewrite Hwg|]. split; [now rewrite <- Hcount, Hwg|].
  split; [|exact Hs1].
  intros name. split.
  - intros [a Ha]. destruct (Honly name a Ha) as [Hinit|(c & Hin & Hc & _)].
    + cbn in Hinit. now rewrite lookup_empty in Hinit.
    + exists c. split; [now apply elem_of_map_to_list|done].
  - intros (c & Hc & Henabled).
    destruct (Hall (NoDup_fst_map_to_list _) name c) as (a & Ha & _); [|done|eauto].
    now apply elem_of_map_to_list.
Qed.

Lemma Start_then_Stop_witness :
  ∃ s0 s1,
    Start (NewService three_activities) = Some s0
    ∧ wg s0 = 2%nat
    ∧ Stop (Some s0) = Returns (Some s1)
    ∧ running s1 = [].
Proof.
  destruct (Start_then_Stop three_activities eq_refl)
    as (s0 & s1 & Hstart & Hwg & _ & _ & Hstop & _ & Hrun & _).
  exists s0, s1. split; [exact Hstart|]. split; [exact Hwg|]. now split.
Defined.

Lemma Stop_again_panics_witness :
  ∃ r m, Stop (Some started_three) = Returns r ∧ Stop r = Panics m.
Proof.
  eexists.
  edestruct (Stop_again_panics started_three) as [m Hm];
    [|vm_compute; reflexivity|].
  2: { exists m. split; [vm_compute; reflexivity|exact Hm]. }
  intros Hempty.
  assert (H : is_Some (activities started_three !! "risk_analysis"))
    by (eexists; vm_compute; reflexivity).
  rewrite Hempty, lookup_empty in H. now destruct H.
Defined.

End lifecycle_more.

(* ===================================================================== *)
(** * Properties of the debug UI handlers *)
(* ===================================================================== *)

Section handler_theorems.

Import Store Calls DebugUI.

Implicit Types (w : World) (l : loc) (p : Proposal.t) (id : string).

Lemma append_length (a b : string) :
  String.length (a ++ b) = (String.length a + String.length b)%nat.
Proof.
  induction a as [|x a IH]; [done|].
  change (String x a ++ b)%string with (String x (a ++ b)). cbn. now rewrite IH.
Qed.

Lemma drop_bytes_app (a b : string) :
  GoStr.drop_bytes (String.length a) (a ++ b) = b.
Proof.
  induction a as [|x a IH]; [now destruct b|].
  change (String x a ++ b)%string with (String x (a ++ b)). cbn. exact IH.
Qed.

Lemma substring_app (a b : string) :
  String.substring 0 (String.length a) (a ++ b) = a.
Proof.
  induction a as [|x a IH]; [now destruct b|].
  change (String x a ++ b)%string with (String x (a ++ b)). cbn. now rewrite IH.
Qed.

(** The identifier is cut out of the path of a route. *)
Lemma path_id_route id (suffix : string) :
  path_id ("/api/proposal/" ++ (id ++ suffix)) suffix = Some id.
Proof.
  unfold path_id, slice_from.
  rewrite append_length.
  destruct (Nat.ltb_spec (String.length "/api/proposal/" + String.length (id ++ suffix))
              (String.length "/api/proposal/")); [lia|].
  rewrite drop_bytes_app. unfold slice_drop_last. rewrite append_length.
  destruct (Nat.ltb_spec (String.length id + String.length suffix)
              (String.length suffix)); [lia|].
  replace (String.length id + String.length suffix - String.length suffix)%nat
    with (String.length id) by lia.
  now rewrite substring_app.
Qed.

Lemma slice_from_route id :
  slice_from (String.length "/api/proposal/") ("/api/proposal/" ++ id) = Some id.
Proof.
  unfold slice_from. rewrite append_length.
  destruct (Nat.ltb_spec (String.length "/api/proposal/" + String.length id)
              (String.length "/api/proposal/")); [lia|].
  now rewrite drop_bytes_app.
Qed.

(** The accept and the ignore route, [/api/proposal/<id>/accept] and
    [/api/proposal/<id>/ignore], with a service present and a non-empty
    identifier: the answer is 200 with the new status and the identifier
    exactly when the proposal is stored and pending, and then the proposal
    is decided; every failure of the service, an unknown identifier
    included, is answered with 400 and the text of the error, and leaves the
    state as it was. *)
Theorem decision_routes w id (params : gmap string string) :
  id ≠ EmptyString →
  (proposals (svc w) !! id = None →
     handleAccept true ("/api/proposal/" ++ (id ++ "/accept")) params w
     = Ret (http_Error ("proposal not found: " ++ id) StatusBadRequest) w
     ∧ handleIgnore true ("/api/proposal/" ++ (id ++ "/ignore")) params w
       = Ret (http_Error ("proposal not found: " ++ id) StatusBadRequest) w)
  ∧ (∀ l p, proposals (svc w) !! id = Some l → heap w !! l = Some p →
       (Proposal.Status p = ProposalStatusPending →
          handleAccept true ("/api/proposal/" ++ (id ++ "/accept")) params w
          = Ret (encode (JsonMap (<["status" := "accepted"]> (<["id" := id]> ∅))))
                (after_decision ProposalStatusAccepted l p w)
          ∧ handleIgnore true ("/api/proposal/" ++ (id ++ "/ignore")) params w
            = Ret (encode (JsonMap (<["status" := "ignored"]> (<["id" := id]> ∅))))
                  (after_decision ProposalStatusIgnored l p w))
       ∧ (Proposal.Status p ≠ ProposalStatusPending →
          handleAccept true ("/api/proposal/" ++ (id ++ "/accept")) params w
          = Ret (http_Error ("proposal already processed: " ++ Proposal.Status p)
                   StatusBadRequest) w
          ∧ handleIgnore true ("/api/proposal/" ++ (id ++ "/ignore")) params w
            = Ret (http_Error ("proposal already processed: " ++ Proposal.Status p)
                     StatusBadRequest) w)).
Proof.
  intros Hid. apply String.eqb_neq in Hid.
  assert (Ha : ∀ w0, handleAccept true ("/api/proposal/" ++ (id ++ "/accept")) params w0
                = (do err <- Accept id params;
                   match err with
                   | Some msg => ret (http_Error msg StatusBadRequest)
                   | None => ret (encode (JsonMap (<["status" := "accepted"]>
                                                      (<["id" := id]> ∅))))
                   end) w0).
  { intros w0. unfold handleAccept. now rewrite path_id_route, Hid. }
  assert (Hi : ∀ w0, handleIgnore true ("/api/proposal/" ++ (id ++ "/ignore")) params w0
                = (do err <- Ignore id params;
                   match err with
                   | Some msg => ret (http_Error msg StatusBadRequest)
                   | None => ret (encode (JsonMap (<["status" := "ignored"]>
                                                      (<["id" := id]> ∅))))
                   end) w0).
  { intros w0. unfold handleIgnore. now rewrite path_id_route, Hid. }
  split.
  - intros Hnone. rewrite Ha, Hi. unfold bind.
    now rewrite Accept_not_found, Ignore_not_found.
  - intros l p Hs Hp. split; intros Hst; rewrite Ha, Hi; unfold bind.
    + now rewrite (Accept_pending w id params l p), (Ignore_pending w id params l p).
    + now rewrite (Accept_processed w id params l p),
        (Ignore_processed w id params l p).
Qed.

Lemma decision_routes_witness :
  handleAccept true "/api/proposal/nope/accept" ∅ demo_world
  = Ret (http_Error "proposal not found: nope" StatusBadRequest) demo_world.
Proof.
  destruct (decision_routes demo_world "nope" ∅ ltac:(discriminate)) as [H _].
  exact (proj1 (H ltac:(vm_compute; reflexivity))).
Defined.

(** The route [/api/proposal/<id>] changes nothing and answers 400 for
    an empty identifier, 503 without a service, 404 with the text "proposal
    not found" for an identifier that is not stored, and 200 with the stored
    struct otherwise. *)
Theorem handleProposal_answers w id (available : bool) :
  handleProposal available ("/api/proposal/" ++ id) w
  = if String.eqb id "" then
      Ret (http_Error "proposal id required" StatusBadRequest) w
    else if negb available then
      Ret (http_Error "proposal service not available" StatusServiceUnavailable) w
    else match proposals (svc w) !! id with
         | None => Ret (http_Error "proposal not found" StatusNotFound) w
         | Some l => match heap w !! l with
                     | Some p => Ret (encode (JsonProposal p)) w
                     | None => Panic
                     end
         end.
Proof.
  unfold handleProposal. rewrite slice_from_route.
  destruct (String.eqb id ""); [done|]. destruct available; [|done]. cbn [negb].
  unfold Get. rewrite run_assoc, run_get_svc, run_ret.
  destruct (proposals (svc w) !! id) as [l|]; [|done].
  unfold bind, load. now destruct (heap w !! l).
Qed.

(** The resubmit route, [/api/proposal/<id>/resubmit], with a service
    present and a non-empty identifier: for a stored proposal the answer is
    200, whatever its status was, and the body carries the struct as
    [Resubmit] left it (status modified); for an identifier that is not
    stored the answer is 400 with "proposal not found" and nothing
    changes. *)
Theorem resubmit_route w id (params : gmap string string) :
  id ≠ EmptyString →
  (proposals (svc w) !! id = None →
     handleResubmit true ("/api/proposal/" ++ (id ++ "/resubmit")) params w
     = Ret (http_Error ("proposal not found: " ++ id) StatusBadRequest) w)
  ∧ (∀ l p, proposals (svc w) !! id = Some l → heap w !! l = Some p →
       handleResubmit true ("/api/proposal/" ++ (id ++ "/resubmit")) params w
       = Ret (encode (JsonResubmitted id
                        (Some (resubmitted params (clock w (clock_reads w)) p))))
             (after_resubmit params l p w)).
Proof.
  intros Hid. apply String.eqb_neq in Hid. split.
  - intros Hnone. unfold handleResubmit. rewrite path_id_route, Hid. cbn [negb].
    unfold bind. now rewrite Resubmit_not_found.
  - intros l p Hs Hp. unfold handleResubmit. rewrite path_id_route, Hid. cbn [negb].
    unfold bind at 1. rewrite (Resubmit_run w id params l p Hs Hp).
    unfold bind, load. cbn. now rewrite lookup_insert_eq.
Qed.

Lemma resubmit_route_witness :
  ∃ q w',
    handleResubmit true "/api/proposal/p1/resubmit" (<["note" := "ok"]> ∅) demo_world
    = Ret (encode (JsonResubmitted "p1" (Some q))) w'
    ∧ Proposal.Status q = ProposalStatusModified.
Proof.
  destruct (resubmit_route demo_world "p1" (<["note" := "ok"]> ∅) ltac:(discriminate))
    as [_ H].
  eexists _, _. split.
  - eapply (H 0%nat); vm_compute; reflexivity.
  - reflexivity.
Defined.

End handler_theorems.

Section route_and_count.

Import Store Calls DebugUI.
Local Open Scope list_scope.

Implicit Types (w : World) (l : loc) (p : Proposal.t) (id : string).

(** A proposal that [Create] has stored is served by the route
    [/api/proposal/<id>] under the identifier that [Create] returned, with
    status 200 and the struct as [Create] left it; once [Delete] has removed
    it, the same route answers 404. *)
Theorem proposal_route_follows_store w l p :
  heap w !! l = Some p →
  ∃ id w1 w2,
    Create l w = Ret id w1
    ∧ handleProposal true ("/api/proposal/" ++ id) w1
      = Ret (encode (JsonProposal (created w p))) w1
    ∧ Delete id w1 = Ret true w2
    ∧ handleProposal true ("/api/proposal/" ++ id) w2
      = Ret (http_Error "proposal not found" StatusNotFound) w2.
Proof.
  intros Hp.
  pose proof (created_ID_nonempty w p) as Hne. apply String.eqb_neq in Hne.
  eexists _, _, _. split; [exact (Create_run w l p Hp)|].
  split.
  { rewrite handleProposal_answers, Hne. cbn [negb].
    now rewrite after_create_stored, after_create_heap. }
  split.
  { apply (Delete_present _ _ l), after_create_stored. }
  rewrite handleProposal_answers, Hne. cbn [negb].
  cbn [svc with_svc proposals]. now rewrite lookup_delete_eq.
Qed.

Lemma proposal_route_follows_store_witness :
  ∃ id w1,
    Create 0%nat zero_world = Ret id w1
    ∧ ∃ q, handleProposal true ("/api/proposal/" ++ id) w1
           = Ret (encode (JsonProposal q)) w1.
Proof.
  destruct (proposal_route_follows_store zero_world 0%nat zero_proposal
              ltac:(vm_compute; reflexivity)) as (id & w1 & w2 & Hc & Hget & _).
  exists id, w1. split; [exact Hc|]. eexists. exact Hget.
Defined.

(** [GetAll] returns as many pointers as the map has entries. [Create]
    under an identifier that is not stored yet makes the list one longer;
    under an identifier that is stored it replaces the entry and the list
    keeps its length; [Delete] of a stored identifier makes it one
    shorter. *)
Theorem GetAll_counts_entries w :
  (∃ all, GetAll w = Ret all w ∧ List.length all = size (proposals (svc w)))
  ∧ (∀ l p, heap w !! l = Some p →
       ∃ id w' all',
         Create l w = Ret id w' ∧ GetAll w' = Ret all' w'
         ∧ List.length all'
           = if decide (is_Some (proposals (svc w) !! id))
             then size (proposals (svc w))
             else S (size (proposals (svc w))))
  ∧ (∀ id l, proposals (svc w) !! id = Some l →
       ∃ w' all',
         Delete id w = Ret true w' ∧ GetAll w' = Ret all' w'
         ∧ S (List.length all') = size (proposals (svc w))).
Proof.
  assert (Hlen : ∀ m : gmap string loc, List.length (map_to_list m).*2 = size m).
  { intros m. now rewrite length_fmap, length_map_to_list. }
  split; [|split].
  - eexists. split; [reflexivity|apply Hlen].
  - intros l p Hp. eexists _, _, _. split; [exact (Create_run w l p Hp)|].
    split; [reflexivity|]. rewrite Hlen.
    change (proposals (svc (after_create l p w)))
      with (<[Proposal.ID (created w p) := l]> (proposals (svc w))).
    destruct (decide _) as [[l0 Hl0]|Hnone].
    + rewrite <- (insert_delete_id (proposals (svc w)) _ _ Hl0) at 2.
      rewrite <- (insert_delete_eq (proposals (svc w))).
      rewrite !map_size_insert_None by apply lookup_delete_eq. reflexivity.
    + apply map_size_insert_None. now apply eq_None_not_Some.
  - intros id l Hs. eexists _, _. split; [now apply (Delete_present w id l)|].
    split; [reflexivity|]. rewrite Hlen. cbn [svc with_svc proposals].
    rewrite <- (insert_delete_id (proposals (svc w)) _ _ Hs) at 2.
    now rewrite map_size_insert_None by apply lookup_delete_eq.
Qed.

End route_and_count.

Section resubmit_order.

Import Store Calls.

(** The loop of [Resubmit] gives the same parameters in whatever order Go
    ranges over the submitted map: every declared parameter whose key was
    submitted gets the submitted text as its value, every other declared
    parameter is kept, and no parameter is added. *)
Theorem Resubmit_loop_any_order (params : gmap string string)
    (order : list (string * string)) (parameters : gmap string Param.t) :
  order ≡ₚ map_to_list params →
  merge_params order parameters = merge_params (map_to_list params) parameters
  ∧ ∀ k, merge_params order parameters !! k
         = merged params k <$> parameters !! k.
Proof.
  intros Hperm.
  rewrite (merge_params_order params order parameters Hperm).
  split; [reflexivity|]. intros k. apply merge_params_map.
Qed.

Lemma Resubmit_loop_any_order_witness :
  merge_params [("level", "3"); ("note", "n")]
    (<["note" := Param.Build "note" "Note" "string" "" []]> ∅)
  = merge_params (map_to_list (<["level" := "3"]> (<["note" := "n"]> ∅)))
      (<["note" := Param.Build "note" "Note" "string" "" []]> ∅).
Proof.
  apply (Resubmit_loop_any_order (<["level" := "3"]> (<["note" := "n"]> ∅))).
  assert (E : map_to_list (<["level" := "3"]> (<["note" := "n"]> ∅) : gmap string string)
              = [("note", "n"); ("level", "3")]) by (vm_compute; reflexivity).
  rewrite E. apply perm_swap.
Defined.

End resubmit_order.

Section placeholder_theorems.

Import GoStr Tmpl Shape Placeholder.
Local Open Scope list_scope.

Lemma HasPrefix_app (s t : string) : HasPrefix (s ++ t)%string s = true.
Proof.
  induction s as [|a s IH]; [now destruct t|].
  change (String a s ++ t)%string with (String a (s ++ t)).
  cbn [HasPrefix]. now rewrite Ascii.eqb_refl.
Qed.

Lemma replace_from_skip (old new x t : string) :
  replace_from old new (String.length x) (x ++ t)%string
  = replace_from old new 0 t.
Proof.
  induction x as [|a x IH]; [reflexivity|].
  change (String a x ++ t)%string with (String a (x ++ t)). exact IH.
Qed.

(** At an occurrence of the pattern the replacement is written and the
    scan goes on behind the occurrence. *)
Lemma replace_from_match (c : ascii) (old new t : string) :
  replace_from (String c old) new 0 (String c old ++ t)%string
  = (new ++ replace_from (String c old) new 0 t)%string.
Proof.
  change (String c old ++ t)%string with (String c (old ++ t)).
  cbn [replace_from].
  change (String c (old ++ t)) with (String c old ++ t)%string.
  rewrite HasPrefix_app. cbn [String.length]. rewrite Nat.sub_1_r.
  cbn [Nat.pred]. now rewrite replace_from_skip.
Qed.

(** Text without the first byte of the pattern is copied. *)
Lemma replace_from_text (c : ascii) (old new a t : string) :
  has_byte c a = false →
  replace_from (String c old) new 0 (a ++ t)%string
  = (a ++ replace_from (String c old) new 0 t)%string.
Proof.
  induction a as [|x a IH]; [reflexivity|]. cbn [has_byte]. intros H.
  apply orb_false_elim in H as [Hx Ha]. apply Ascii.eqb_neq in Hx.
  change (String x a ++ t)%string with (String x (a ++ t)).
  cbn [replace_from]. rewrite HasPrefix_first by done. rewrite IH by done.
  reflexivity.
Qed.

Lemma plain_marks (s : string) :
  no_placeholder_mark s = true →
  has_byte "$" s = false ∧ has_byte "{" s = false.
Proof.
  unfold no_placeholder_mark. intros [H1 H2]%andb_prop.
  now apply negb_true_iff in H1, H2.
Qed.

Lemma plain_key_parts (k : string) :
  plain_key k = true →
  has_byte "$" k = false ∧ has_byte "{" k = false ∧ HasPrefix k "." = false.
Proof.
  unfold plain_key. intros [H1 H2]%andb_prop. apply negb_true_iff in H2.
  apply plain_marks in H1 as [? ?]. done.
Qed.

(** A value without marks is none of the patterns, so [ReplaceAll] does
    not take its shortcut for equal arguments. *)
Lemma pattern_not_value (sp : spelling) (k v : string) :
  no_placeholder_mark v = true → String.eqb (pattern sp k) v = false.
Proof.
  intros [Hd Hb]%plain_marks. apply String.eqb_neq. intros <-.
  destruct sp; unfold pattern in Hd, Hb.
  - change ("{{." ++ k ++ "}}")%string
      with (String "{" ("{." ++ k ++ "}}"))%string in Hb. discriminate Hb.
  - change ("{{" ++ k ++ "}}")%string
      with (String "{" ("{" ++ k ++ "}}"))%string in Hb. discriminate Hb.
  - change ("$" ++ k)%string with (String "$" k) in Hd. discriminate Hd.
Qed.

(** The braced placeholder does not hold the dotted pattern. *)
Lemma dotted_skips_braced (k v t : string) :
  plain_key k = true →
  replace_from (pattern Dotted k) v 0 (pattern Braced k ++ t)%string
  = (pattern Braced k ++ replace_from (pattern Dotted k) v 0 t)%string.
Proof.
  intros (Hd & Hb & Hdot)%plain_key_parts. unfold pattern.
  change ("{{." ++ k ++ "}}")%string
    with (String "{" (String "{" (String "." (k ++ "}}"))))%string.
  change (("{{" ++ k ++ "}}") ++ t)%string
    with (String "{" (String "{" ((k ++ "}}") ++ t)))%string.
  change ("{{" ++ k ++ "}}")%string
    with (String "{" (String "{" (k ++ "}}")))%string.
  change (String "{" (String "{" (k ++ "}}")) ++ ?x)%string
    with (String "{" (String "{" ((k ++ "}}") ++ x)))%string.
  assert (H1 : HasPrefix ((k ++ "}}") ++ t)%string (String "." (k ++ "}}")) = false).
  { destruct k as [|a k]; [reflexivity|].
    change ((String a k ++ "}}") ++ t)%string with (String a ((k ++ "}}") ++ t))%string.
    cbn [HasPrefix] in Hdot |- *.
    destruct (Ascii.eqb "." a); [now destruct k|reflexivity]. }
  assert (H2 : ∀ q, HasPrefix ((k ++ "}}") ++ t)%string (String "{" q) = false).
  { intros q. destruct k as [|a k]; [reflexivity|].
    change ((String a k ++ "}}") ++ t)%string with (String a ((k ++ "}}") ++ t))%string.
    cbn [has_byte] in Hb. apply orb_false_elim in Hb as [Ha _].
    apply Ascii.eqb_neq in Ha. now apply HasPrefix_first. }
  cbn [replace_from HasPrefix]. rewrite !Ascii.eqb_refl, H1, H2.
  rewrite replace_from_text; [reflexivity|].
  rewrite has_byte_app, Hb. reflexivity.
Qed.

(** One [ReplaceAll] call on a template given by pieces. *)
Lemma replace_pass (sp : spelling) (k v : string) (ps : list piece) :
  plain_key k = true → no_placeholder_mark v = true →
  pieces_from (rank sp) ps →
  ReplaceAll (render k ps) (pattern sp k) v = render k (fill_piece sp v <$> ps)
  ∧ pieces_from (S (rank sp)) (fill_piece sp v <$> ps).
Proof.
  intros Hk Hv Hps. unfold ReplaceAll. rewrite pattern_not_value by done.
  pose proof (plain_key_parts k Hk) as (Hkd & Hkb & Hkdot).
  assert (Hold : ∃ c old, pattern sp k = String c old
                          ∧ (c = "$"%char ∨ c = "{"%char)).
  { destruct sp; eexists _, _; (split; [reflexivity|]); auto. }
  destruct Hold as (c & old & Hpat & Hc).
  assert (Hloop : replace_from (pattern sp k) v 0 (render k ps)
                  = render k (fill_piece sp v <$> ps)
                  ∧ pieces_from (S (rank sp)) (fill_piece sp v <$> ps)).
  { induction Hps as [|p r Hp Hr IH]; [split; [reflexivity|constructor]|].
    destruct IH as [IH1 IH2]. destruct p as [s|sp'].
    - apply plain_marks in Hp as Hs. destruct Hs as [Hsd Hsb]. split.
      + cbn [fmap list_fmap fill_piece render]. rewrite Hpat in IH1 |- *.
        rewrite replace_from_text; [now rewrite IH1|].
        now destruct Hc as [-> | ->].
      + constructor; [exact Hp|exact IH2].
    - cbn [fmap list_fmap fill_piece render].
      destruct (Nat.eqb_spec (rank sp) (rank sp')) as [E|E].
      + assert (sp' = sp) as -> by (destruct sp, sp'; cbn in E; congruence).
        split; [|constructor; [exact Hv|exact IH2]].
        cbn [render]. rewrite <- IH1. rewrite Hpat. apply replace_from_match.
      + split; [|constructor; [cbn beta iota in Hp |- *; lia|exact IH2]].
        cbn [render]. rewrite <- IH1.
        destruct sp, sp'; cbn [rank] in Hp, E; try lia.
        * now apply dotted_skips_braced.
        * apply replace_from_text. unfold pattern.
          change ("$" ++ k)%string with (String "$" k). cbn [has_byte].
          now rewrite Hkb.
        * apply replace_from_text. unfold pattern.
          change ("$" ++ k)%string with (String "$" k). cbn [has_byte].
          now rewrite Hkb. }
  rewrite Hpat in Hloop |- *. exact Hloop.
Qed.

Lemma render_all_filled (k v : string) (ps : list piece) :
  pieces_from 3 ps → render k ps = filled v ps.
Proof.
  induction 1 as [|p r Hp Hr IH]; [reflexivity|].
  destruct p as [s|sp]; cbn [render filled]; [now rewrite IH|].
  destruct sp; cbn in Hp; lia.
Qed.

Lemma filled_fill (sp : spelling) (v : string) (ps : list piece) :
  filled v (fill_piece sp v <$> ps) = filled v ps.
Proof.
  induction ps as [|p r IH]; [reflexivity|].
  destruct p as [s|sp']; cbn [fmap list_fmap fill_piece].
  - cbn [filled]. now rewrite <- IH.
  - destruct (Nat.eqb _ _); cbn [filled]; now rewrite <- IH.
Qed.

Lemma pieces_from_plain (ps : list piece) :
  plain_text ps = true → pieces_from 0 ps.
Proof.
  unfold plain_text, pieces_from. rewrite forallb_forall, Forall_forall.
  intros H p Hin. apply list_elem_of_In, H in Hin.
  destruct p; [exact Hin|cbn; lia].
Qed.

(** The three calls of one round of the loop. *)
Lemma subst_one_filled (k v : string) (ps : list piece) :
  plain_key k = true → no_placeholder_mark v = true → plain_text ps = true →
  subst_one (render k ps) (k, v) = filled v ps.
Proof.
  intros Hk Hv Hps. apply pieces_from_plain in Hps. unfold subst_one.
  cbn [fst snd].
  destruct (replace_pass Dotted k v ps Hk Hv Hps) as [E1 P1].
  destruct (replace_pass Braced k v _ Hk Hv P1) as [E2 P2].
  destruct (replace_pass Dollar k v _ Hk Hv P2) as [E3 P3].
  unfold pattern in E1, E2, E3. rewrite E1, E2, E3.
  rewrite (render_all_filled k v _ P3). now rewrite !filled_fill.
Qed.

(** With one parameter [k=v], a template that is literal text with
    placeholders for [k] in any of the three spellings comes back with [v]
    in the place of every placeholder, from both tools: this is the only
    value the call can return. (The literal text, the key and the value
    hold no dollar sign and no opening brace; the key does not start with
    a dot.) *)
Theorem placeholders_filled (k v paramsStr : string) (ps : list piece) :
  plain_key k = true → no_placeholder_mark v = true → plain_text ps = true →
  parseParams paramsStr = {[k := v]} →
  ∀ out,
    (may_return SheikahAPI_replaceParams (render k ps) paramsStr out
     ↔ out = filled v ps)
    ∧ (may_return QueryData_replaceParams (render k ps) paramsStr out
       ↔ out = filled v ps).
Proof.
  intros Hk Hv Hps Hparse out.
  pose proof (subst_one_filled k v ps Hk Hv Hps) as Hone.
  assert (Hne : String.eqb paramsStr "" = false).
  { apply String.eqb_neq. intros ->.
    assert (E : parseParams "" = ∅) by reflexivity.
    rewrite E in Hparse. symmetry in Hparse.
    exact (map_non_empty_singleton k v Hparse). }
  assert (Hempty : render k ps = ""%string → filled v ps = ""%string).
  { intros E. rewrite <- Hone, E. unfold subst_one. cbn [fst snd].
    change ("{{." ++ k ++ "}}")%string with (String "{" ("{." ++ k ++ "}}")%string).
    rewrite ReplaceAll_absent by reflexivity.
    change ("{{" ++ k ++ "}}")%string with (String "{" ("{" ++ k ++ "}}")%string).
    rewrite ReplaceAll_absent by reflexivity.
    change ("$" ++ k)%string with (String "$" k).
    now rewrite ReplaceAll_absent. }
  assert (Horder : ∀ order, range_order (parseParams paramsStr) order ↔ order = [(k, v)]).
  { intros order. unfold range_order. rewrite Hparse, map_to_list_singleton.
    split; [apply Permutation_singleton_r|now intros ->]. }
  unfold may_return, SheikahAPI_replaceParams, QueryData_replaceParams.
  rewrite Hne, orb_false_r. split; split.
  - intros (order & ->%Horder & <-).
    destruct (String.eqb_spec (render k ps) "") as [E|_].
    + rewrite E. symmetry. now apply Hempty.
    + exact Hone.
  - intros ->. exists [(k, v)]. split; [now apply Horder|].
    destruct (String.eqb_spec (render k ps) "") as [E|_].
    + rewrite E. symmetry. now apply Hempty.
    + exact Hone.
  - intros (order & ->%Horder & <-). exact Hone.
  - intros ->. exists [(k, v)]. split; [now apply Horder|exact Hone].
Qed.

Lemma placeholders_filled_witness :
  may_return SheikahAPI_replaceParams
    "host = '$host' or {{.host}} or {{host}}" "host=example.com"
    "host = 'example.com' or example.com or example.com".
Proof.
  apply (placeholders_filled "host" "example.com" "host=example.com"
           [Text "host = '"; Hole Dollar; Text "' or "; Hole Dotted;
            Text " or "; Hole Braced]
           eq_refl eq_refl eq_refl).
  - vm_compute. reflexivity.
  - reflexivity.
Defined.

End placeholder_theorems.
